(** * SecureChat core: CryptoEngine, AppState, RealtimeManager, ConnectivityManager

    A shallow embedding of the parts of [core.js] and [services.js] that the
    specification's testable properties talk about, with the properties
    proved (or refuted) on the embedding.

    Conventions.
    - A JavaScript string is the list of its UTF-16 code units ([list Z],
      each unit in [0, 65536)).  Opaque identifiers (conversation ids,
      message ids, labels) are Rocq [string]s.
    - A [Uint8Array] is a [list byte].
    - An [async] function, or one that may throw, returns an [outcome]:
      [Returned v] for a fulfilled promise / normal return, [Thrown e] for a
      rejected promise / exception.
    - [Date.now()], [Math.random()], [navigator.onLine] and the results of
      network calls are explicit inputs. *)

From Stdlib Require Import ZArith QArith Qround Qminmax Qpower Lia Lqa Sorted.
From Stdlib Require Import Strings.Byte Strings.Ascii.
From stdpp Require Import gmap strings list fin_maps.

Local Open Scope Z_scope.

(* ===================================================================== *)
(** ** Outcomes of calls that may throw *)
(* ===================================================================== *)

Inductive exn : Type :=
  | InvalidCharacterError   (* DOMException raised by atob / btoa *)
  | OperationError          (* DOMException raised by crypto.subtle *)
  | MissingParameters.      (* new Error('Missing encryption parameters') *)

Inductive outcome (A : Type) : Type :=
  | Returned (a : A)
  | Thrown (e : exn).
Arguments Returned {A} a.
Arguments Thrown {A} e.

Definition obind {A B} (m : outcome A) (k : A -> outcome B) : outcome B :=
  match m with
  | Returned a => k a
  | Thrown e => Thrown e
  end.

Notation "'let!' x ':=' m 'in' k" := (obind m (fun x => k))
  (at level 10, x name, m at level 100, k at level 200).

(** [try { body } catch { handler }] *)
Definition try_catch {A} (body : outcome A) (handler : outcome A) : outcome A :=
  match body with
  | Returned a => Returned a
  | Thrown _ => handler
  end.

Definition returns {A} (m : outcome A) : Prop := exists a, m = Returned a.

(* ===================================================================== *)
(** ** JavaScript strings and bytes *)
(* ===================================================================== *)

Abbreviation jsstring := (list Z).

(** [String.fromCharCode(n)]: ToUint16 of the argument. *)
Definition fromCharCode (n : Z) : Z := n mod 65536.

(** Truthiness of a string: only the empty string is falsy. *)
Definition truthy (s : jsstring) : bool :=
  match s with [] => false | _ => true end.

(** An ASCII literal as a JavaScript string. *)
Definition js (s : string) : jsstring :=
  map (fun a => Z.of_N (Ascii.N_of_ascii a)) (Stdlib.Strings.String.list_ascii_of_string s).

Definition Z_of_byte (b : byte) : Z := Z.of_N (Byte.to_N b).

(** Storing a number into a [Uint8Array] slot wraps it modulo 256. *)
Definition byte_of_Z (z : Z) : byte :=
  match Byte.of_N (Z.to_N (z mod 256)) with
  | Some b => b
  | None => Byte.x00
  end.

(* ===================================================================== *)
(** ** Platform: [btoa] / [atob] (RFC 4648 encode, forgiving-base64 decode) *)
(* ===================================================================== *)

Module Base64.

(** The base-64 alphabet: value (0..63) to code unit. *)
Definition b64char (i : Z) : Z :=
  if i <? 26 then 65 + i            (* A-Z *)
  else if i <? 52 then 97 + (i - 26) (* a-z *)
  else if i <? 62 then 48 + (i - 52) (* 0-9 *)
  else if i =? 62 then 43            (* + *)
  else 47.                           (* / *)

(** Code unit to value; [None] for a unit outside the alphabet. *)
Definition b64index (c : Z) : option Z :=
  if (65 <=? c) && (c <=? 90) then Some (c - 65)
  else if (97 <=? c) && (c <=? 122) then Some (c - 97 + 26)
  else if (48 <=? c) && (c <=? 57) then Some (c - 48 + 52)
  else if c =? 43 then Some 62
  else if c =? 47 then Some 63
  else None.

(** Three octets become four sextets; a tail of one or two octets becomes
    two or three sextets. *)
Fixpoint b64_groups (bytes : list Z) : list Z :=
  match bytes with
  | a :: b :: c :: rest =>
      a / 4 :: (a mod 4) * 16 + b / 16 :: (b mod 16) * 4 + c / 64 :: c mod 64
        :: b64_groups rest
  | [a; b] => [a / 4; (a mod 4) * 16 + b / 16; (b mod 16) * 4]
  | [a] => [a / 4; (a mod 4) * 16]
  | [] => []
  end.

Definition b64_padding (n : nat) : list Z :=
  repeat 61 ((3 - n mod 3) mod 3)%nat.

Definition b64_encode (bytes : list Z) : list Z :=
  map b64char (b64_groups bytes) ++ b64_padding (length bytes).

(** [btoa(s)]: throws when a code unit exceeds 0xFF. *)
Definition btoa (s : jsstring) : option jsstring :=
  if forallb (fun c => (0 <=? c) && (c <=? 255)) s
  then Some (b64_encode s) else None.

Definition ascii_whitespace (c : Z) : bool :=
  (c =? 9) || (c =? 10) || (c =? 12) || (c =? 13) || (c =? 32).

(** Remove one or two trailing [=]. *)
Definition strip_padding (s : list Z) : list Z :=
  match rev s with
  | c1 :: r1 =>
      if c1 =? 61 then
        match r1 with
        | c2 :: r2 => if c2 =? 61 then rev r2 else rev r1
        | [] => rev r1
        end
      else s
  | [] => s
  end.

Fixpoint b64_decode (ix : list Z) : list Z :=
  match ix with
  | i1 :: i2 :: i3 :: i4 :: rest =>
      i1 * 4 + i2 / 16 :: (i2 mod 16) * 16 + i3 / 4 :: (i3 mod 4) * 64 + i4
        :: b64_decode rest
  | [i1; i2; i3] => [i1 * 4 + i2 / 16; (i2 mod 16) * 16 + i3 / 4]
  | [i1; i2] => [i1 * 4 + i2 / 16]
  | _ => []
  end.

(** [atob(s)] (the HTML forgiving-base64 decode): [None] stands for the
    [InvalidCharacterError] it throws. *)
Definition atob (s : jsstring) : option jsstring :=
  let s1 := List.filter (fun c => negb (ascii_whitespace c)) s in
  let s2 := if (Z.of_nat (length s1) mod 4 =? 0) then strip_padding s1 else s1 in
  if Z.of_nat (length s2) mod 4 =? 1 then None
  else b64_decode <$> mapM b64index s2.

End Base64.

(* ===================================================================== *)
(** ** Platform: [TextEncoder] / [TextDecoder] (WHATWG Encoding, UTF-8) *)
(* ===================================================================== *)

Module Utf8.

Definition is_high (c : Z) : bool := (0xD800 <=? c) && (c <=? 0xDBFF).
Definition is_low (c : Z) : bool := (0xDC00 <=? c) && (c <=? 0xDFFF).

(** Conversion of a JavaScript string to a sequence of scalar values: a
    surrogate pair is one code point, an unpaired surrogate is replaced by
    U+FFFD. *)
Fixpoint code_points (s : jsstring) : list Z :=
  match s with
  | [] => []
  | c :: rest =>
      if is_high c then
        match rest with
        | d :: rest' =>
            if is_low d
            then 0x10000 + (c - 0xD800) * 0x400 + (d - 0xDC00) :: code_points rest'
            else 0xFFFD :: code_points rest
        | [] => [0xFFFD]
        end
      else if is_low c then 0xFFFD :: code_points rest
      else c :: code_points rest
  end.

(** A string with no unpaired surrogate, all of whose units are 16-bit. *)
Fixpoint well_formed (s : jsstring) : bool :=
  match s with
  | [] => true
  | c :: rest =>
      if is_high c then
        match rest with
        | d :: rest' => is_low d && well_formed rest'
        | [] => false
        end
      else negb (is_low c) && (0 <=? c) && (c <? 65536) && well_formed rest
  end.

Definition utf8_encode_cp (cp : Z) : list byte :=
  if cp <? 0x80 then [byte_of_Z cp]
  else if cp <? 0x800 then
    [byte_of_Z (0xC0 + cp / 64); byte_of_Z (0x80 + cp mod 64)]
  else if cp <? 0x10000 then
    [byte_of_Z (0xE0 + cp / 4096); byte_of_Z (0x80 + (cp / 64) mod 64);
     byte_of_Z (0x80 + cp mod 64)]
  else
    [byte_of_Z (0xF0 + cp / 262144); byte_of_Z (0x80 + (cp / 4096) mod 64);
     byte_of_Z (0x80 + (cp / 64) mod 64); byte_of_Z (0x80 + cp mod 64)].

(** [new TextEncoder().encode(str)] *)
Definition TextEncoder_encode (s : jsstring) : list byte :=
  flat_map utf8_encode_cp (code_points s).

(** The decoder's state between bytes: nothing pending, or a partial code
    point with the number of continuation bytes still needed and the
    bounds the next byte must respect. *)
Inductive dstate : Type :=
  | Idle
  | Pending (cp : Z) (needed : nat) (lower upper : Z).

(** What a byte does when no sequence is pending. *)
Definition lead_byte (b : Z) : list Z * dstate :=
  if b <=? 0x7F then ([b], Idle)
  else if (0xC2 <=? b) && (b <=? 0xDF) then ([], Pending (b mod 32) 1 0x80 0xBF)
  else if (0xE0 <=? b) && (b <=? 0xEF) then
    ([], Pending (b mod 16) 2 (if b =? 0xE0 then 0xA0 else 0x80)
                              (if b =? 0xED then 0x9F else 0xBF))
  else if (0xF0 <=? b) && (b <=? 0xF4) then
    ([], Pending (b mod 8) 3 (if b =? 0xF0 then 0x90 else 0x80)
                             (if b =? 0xF4 then 0x8F else 0xBF))
  else ([0xFFFD], Idle).

(** The UTF-8 decoder with replacement (error mode "replacement"): an
    ill-formed sequence yields U+FFFD and the offending byte is read again
    as the start of a new sequence. *)
Fixpoint utf8_decode (st : dstate) (bs : list byte) : list Z :=
  match bs with
  | [] => match st with Idle => [] | Pending _ _ _ _ => [0xFFFD] end
  | b0 :: rest =>
      let b := Z_of_byte b0 in
      match st with
      | Idle => (lead_byte b).1 ++ utf8_decode (lead_byte b).2 rest
      | Pending cp n lo hi =>
          if (lo <=? b) && (b <=? hi) then
            let cp' := cp * 64 + b mod 64 in
            match n with
            | S (S n') => utf8_decode (Pending cp' (S n') 0x80 0xBF) rest
            | _ => cp' :: utf8_decode Idle rest
            end
          else
            0xFFFD :: (lead_byte b).1 ++ utf8_decode (lead_byte b).2 rest
      end
  end.

(** A leading byte-order mark EF BB BF is dropped ([ignoreBOM] is false by
    default). *)
Definition strip_bom (bs : list byte) : list byte :=
  match bs with
  | b1 :: b2 :: b3 :: rest =>
      if (Z_of_byte b1 =? 0xEF) && (Z_of_byte b2 =? 0xBB) && (Z_of_byte b3 =? 0xBF)
      then rest else bs
  | _ => bs
  end.

Definition utf16_units (cp : Z) : list Z :=
  if cp <? 0x10000 then [cp]
  else [0xD800 + (cp - 0x10000) / 0x400; 0xDC00 + (cp - 0x10000) mod 0x400].

(** [new TextDecoder().decode(buf)] *)
Definition TextDecoder_decode (bs : list byte) : jsstring :=
  flat_map utf16_units (utf8_decode Idle (strip_bom bs)).

(** The string iterator ([for (const ch of str)], [new Set(str)]): one
    element per code point, an unpaired surrogate being an element of its
    own. *)
Fixpoint string_iterator (s : jsstring) : list jsstring :=
  match s with
  | [] => []
  | c :: rest =>
      if is_high c then
        match rest with
        | d :: rest' =>
            if is_low d then [c; d] :: string_iterator rest'
            else [c] :: string_iterator rest
        | [] => [[c]]
        end
      else [c] :: string_iterator rest
  end.

End Utf8.

(* ===================================================================== *)
(** ** CONFIG (core.js) *)
(* ===================================================================== *)

Module CONFIG.
Definition PBKDF2_ITERATIONS : Z := 100000.
Definition AES_KEY_LENGTH : Z := 256.
Definition IV_LENGTH : nat := 12.
Definition SALT_LENGTH : nat := 16.
Definition PASSKEY_LOCKOUT_ATTEMPTS : Z := 5.
Definition PASSKEY_LOCKOUT_DURATION_MS : Z := 60000.
Definition RECONNECT_INTERVAL_MS : Z := 5000.
Definition PASSKEY_MIN_LENGTH : Z := 4.

End CONFIG.

(* ===================================================================== *)
(** ** Platform: [crypto.subtle] and [crypto.getRandomValues] *)
(* ===================================================================== *)

(** The Web Crypto primitives the engine calls.  [pbkdf2 iterations bits
    password salt] stands for [importKey('raw', password, 'PBKDF2')]
    followed by [deriveKey] with SHA-256; [aes_gcm_decrypt] is [None] where
    [crypto.subtle.decrypt] rejects. *)
Class WebCrypto : Type := {
  CryptoKey : Type;
  pbkdf2 : Z -> Z -> list byte -> list byte -> CryptoKey;
  aes_gcm_encrypt : CryptoKey -> list byte -> list byte -> list byte;
  aes_gcm_decrypt : CryptoKey -> list byte -> list byte -> option (list byte);
}.

(** What AES-GCM guarantees: decryption under the same key and 96-bit IV
    inverts encryption, and the ciphertext carries a 128-bit tag. *)
Class WebCryptoSpec (W : WebCrypto) : Prop := {
  aes_gcm_correct : forall k iv pt,
    length iv = CONFIG.IV_LENGTH ->
    aes_gcm_decrypt k iv (aes_gcm_encrypt k iv pt) = Some pt;
  aes_gcm_tag : forall k iv pt,
    length (aes_gcm_encrypt k iv pt) = (length pt + 16)%nat;
}.

(** The entropy behind [crypto.getRandomValues]: the n-th random byte. *)
Definition entropy : Type := nat -> byte.

(* ===================================================================== *)
(** ** CryptoEngine (core.js) *)
(* ===================================================================== *)

Module CryptoEngine.

Record EncryptResult : Type := { ciphertext : jsstring; iv : jsstring }.
Record DecryptResult : Type := { text : jsstring; success : bool }.

(** [crypto.getRandomValues(new Uint8Array(length))] *)
Definition getRandomBytes (rnd : entropy) (len : nat) : list byte :=
  map rnd (seq 0 len).

Definition bufferToBase64 (buffer : list byte) : outcome jsstring :=
  let bin := map (fun b => fromCharCode (Z_of_byte b)) buffer in
  match Base64.btoa bin with
  | Some s => Returned s
  | None => Thrown InvalidCharacterError
  end.

Definition base64ToBuffer (base64 : jsstring) : outcome (list byte) :=
  match Base64.atob base64 with
  | Some bin => Returned (map byte_of_Z bin)
  | None => Thrown InvalidCharacterError
  end.

Definition encode (str : jsstring) : list byte := Utf8.TextEncoder_encode str.
Definition decode (buf : list byte) : jsstring := Utf8.TextDecoder_decode buf.

Section Engine.
Context {W : WebCrypto}.

Definition deriveKey (passkey : jsstring) (salt : list byte) : CryptoKey :=
  pbkdf2 CONFIG.PBKDF2_ITERATIONS CONFIG.AES_KEY_LENGTH (encode passkey) salt.

Definition encrypt (plaintext passkey saltBase64 : jsstring) (rnd : entropy)
  : outcome EncryptResult :=
  if negb (truthy plaintext) || negb (truthy passkey) || negb (truthy saltBase64)
  then Thrown MissingParameters
  else
    let! salt := base64ToBuffer saltBase64 in
    let key := deriveKey passkey salt in
    let iv := getRandomBytes rnd CONFIG.IV_LENGTH in
    let ct := aes_gcm_encrypt key iv (encode plaintext) in
    let! c := bufferToBase64 ct in
    let! i := bufferToBase64 iv in
    Returned {| ciphertext := c; iv := i |}.

Definition missing_text : jsstring :=
  [0xD83D; 0xDD12] ++ js " Missing decryption data".

Definition fallback_text : jsstring :=
  [0xD83D; 0xDD12; 0x20; 0x2022; 0x2022; 0x2022; 0x2022; 0x2022; 0x2022].

Definition ranges : list (Z * Z) :=
  [ (0x0E00, 0x0E7F);    (* Thai *)
    (0x10A0, 0x10FF);    (* Georgian *)
    (0x0530, 0x058F);    (* Armenian *)
    (0x2200, 0x22FF);    (* Math operators *)
    (0x0400, 0x04FF);    (* Cyrillic *)
    (0x3040, 0x309F) ].  (* Hiragana *)

(** The body of the [for] loop of [generateGibberish], from index [i] on;
    [bytes] are the bytes not yet visited. *)
Fixpoint gibberish_loop (i : Z) (bytes : list byte) (out : jsstring) : jsstring :=
  match bytes with
  | [] => out
  | b :: rest =>
      let v := Z_of_byte b in
      let '(lo, hi) := nth (Z.to_nat (v mod Z.of_nat (length ranges))) ranges (0, 0) in
      let out1 := out ++ [fromCharCode (lo + v mod (hi - lo))] in
      let out2 := if (0 <? i) && (i mod 7 =? 0) then out1 ++ js " " else out1 in
      gibberish_loop (i + 1) rest out2
  end.

(** The glyphs for already decoded bytes. *)
Definition gibberish_of_bytes (bytes : list byte) : jsstring :=
  let len := Nat.min (length bytes) 40 in
  let out := gibberish_loop 0 (take len bytes) [] in
  if truthy out then out else fallback_text.

Definition generateGibberish (ciphertextB64 : jsstring) : outcome jsstring :=
  let! bytes := base64ToBuffer ciphertextB64 in
  Returned (gibberish_of_bytes bytes).

Definition decrypt (ciphertextB64 ivB64 passkey saltBase64 : jsstring)
  : outcome DecryptResult :=
  if negb (truthy ciphertextB64) || negb (truthy ivB64)
     || negb (truthy passkey) || negb (truthy saltBase64)
  then Returned {| text := missing_text; success := false |}
  else
    try_catch
      (let! salt := base64ToBuffer saltBase64 in
       let key := deriveKey passkey salt in
       let! iv := base64ToBuffer ivB64 in
       let! ct := base64ToBuffer ciphertextB64 in
       let! plain := match aes_gcm_decrypt key iv ct with
                     | Some p => Returned p
                     | None => Thrown OperationError
                     end in
       Returned {| text := decode plain; success := true |})
      (let! g := generateGibberish ciphertextB64 in
       Returned {| text := g; success := false |}).

End Engine.

(** *** Passkey strength meter *)

Definition is_lower (c : Z) : bool := (97 <=? c) && (c <=? 122).
Definition is_upper (c : Z) : bool := (65 <=? c) && (c <=? 90).
Definition is_digit (c : Z) : bool := (48 <=? c) && (c <=? 57).
Definition line_terminator (c : Z) : bool :=
  (c =? 10) || (c =? 13) || (c =? 0x2028) || (c =? 0x2029).

(** [/(.)\1{2,}/.test(s)]: some unit other than a line terminator occurs
    three times in a row. *)
Fixpoint has_triple (s : jsstring) : bool :=
  match s with
  | a :: ((b :: c :: _) as rest) =>
      (negb (line_terminator a) && (a =? b) && (a =? c)) || has_triple rest
  | _ => false
  end.

Definition b2z (b : bool) : Z := if b then 1 else 0.

(** The tally [s] before it is mapped to a level. *)
Definition strength_tally (passkey : jsstring) : Z :=
  let len := Z.of_nat (length passkey) in
  let unique := Z.of_nat (length (remove_dups (Utf8.string_iterator passkey))) in
  b2z (4 <=? len) + b2z (8 <=? len) + b2z (12 <=? len) + b2z (20 <=? len)
  + b2z (existsb is_lower passkey)
  + b2z (existsb is_upper passkey)
  + b2z (existsb is_digit passkey)
  + b2z (existsb (fun c => negb (is_lower c || is_upper c || is_digit c)) passkey)
  + b2z (6 <=? unique) + b2z (10 <=? unique)
  - b2z (has_triple passkey).

Definition levels : list (string * string) :=
  [ ("Very Weak", "#ef4444"); ("Weak", "#f97316"); ("Fair", "#eab308");
    ("Strong", "#22c55e"); ("Very Strong", "#06b6d4") ]%string.

(** [arr[i]] for a numeric index: [None] is [undefined]. *)
Definition js_index {A} (l : list A) (i : Z) : option A :=
  if i <? 0 then None else l !! Z.to_nat i.

(** [label] and [color] are [None] where the returned object has no such
    property (the spread of [undefined] adds none). *)
Record Strength : Type := { score : Z; label : option string; color : option string }.

Definition measureStrength (passkey : jsstring) : Strength :=
  if negb (truthy passkey)
  then {| score := 0; label := Some ""%string; color := Some ""%string |}
  else
    let s := strength_tally passkey in
    let n := Z.max 0 (Z.min 4 (Qfloor (inject_Z s / (5 # 2)))) in
    let lv := js_index levels n in
    {| score := n; label := fst <$> lv; color := snd <$> lv |}.

(** *** Lockout bookkeeping ([AppState.passkeyAttempts]) *)

Record Attempt : Type := { count : Z; lockedUntil : option Z }.

(** [now > a.lockedUntil], where [null] converts to 0. *)
Definition after_lock (now : Z) (a : Attempt) : bool :=
  default 0 (lockedUntil a) <? now.

Definition isLockedOut (now : Z) (conversationId : string)
    (attempts : gmap string Attempt) : bool * gmap string Attempt :=
  match attempts !! conversationId with
  | None => (false, attempts)
  | Some a =>
      if count a <? CONFIG.PASSKEY_LOCKOUT_ATTEMPTS then (false, attempts)
      else if after_lock now a then (false, delete conversationId attempts)
      else (true, attempts)
  end.

Definition recordFailedAttempt (now : Z) (conversationId : string)
    (attempts : gmap string Attempt) : Attempt * gmap string Attempt :=
  let cur := default {| count := 0; lockedUntil := None |} (attempts !! conversationId) in
  let cur1 := {| count := count cur + 1; lockedUntil := lockedUntil cur |} in
  let cur2 :=
    if CONFIG.PASSKEY_LOCKOUT_ATTEMPTS <=? count cur1
    then {| count := count cur1;
            lockedUntil := Some (now + CONFIG.PASSKEY_LOCKOUT_DURATION_MS) |}
    else cur1 in
  (cur2, <[conversationId := cur2]> attempts).

Definition resetAttempts (conversationId : string)
    (attempts : gmap string Attempt) : gmap string Attempt :=
  delete conversationId attempts.

(** *** Salts and files *)

(** [generateSalt()] *)
Definition generateSalt (rnd : entropy) : outcome jsstring :=
  bufferToBase64 (getRandomBytes rnd CONFIG.SALT_LENGTH).

(** What [encryptFile] resolves to: the ciphertext stays an [ArrayBuffer],
    only the IV is base-64. *)
Record EncryptedFile : Type := { file_ciphertext : list byte; file_iv : jsstring }.

Section Files.
Context {W : WebCrypto}.

Definition encryptFile (fileData : list byte) (passkey saltBase64 : jsstring)
    (rnd : entropy) : outcome EncryptedFile :=
  let! salt := base64ToBuffer saltBase64 in
  let key := deriveKey passkey salt in
  let iv := getRandomBytes rnd CONFIG.IV_LENGTH in
  let ct := aes_gcm_encrypt key iv fileData in
  let! i := bufferToBase64 iv in
  Returned {| file_ciphertext := ct; file_iv := i |}.

(** [decryptFile]: [None] is the [null] of the [catch] block. *)
Definition decryptFile (ciphertext : list byte) (ivB64 passkey saltBase64 : jsstring)
  : outcome (option (list byte)) :=
  try_catch
    (let! salt := base64ToBuffer saltBase64 in
     let key := deriveKey passkey salt in
     let! iv := base64ToBuffer ivB64 in
     match aes_gcm_decrypt key iv ciphertext with
     | Some plain => Returned (Some plain)
     | None => Thrown OperationError
     end)
    (Returned None).

End Files.

(** *** Passphrases held in memory *)

(** The four slots of the store the engine keeps its secrets in; a derived
    key is an opaque handle. *)
Record Keys : Type := {
  passkeys : gmap string jsstring;
  derivedKeys : gmap string Z;
  passkeySalts : gmap string jsstring;
  passkeyAttempts : gmap string Attempt;
}.

Definition with_attempts (a : gmap string Attempt) (k : Keys) : Keys :=
  {| passkeys := passkeys k; derivedKeys := derivedKeys k;
     passkeySalts := passkeySalts k; passkeyAttempts := a |}.

Definition with_salts (s : gmap string jsstring) (k : Keys) : Keys :=
  {| passkeys := passkeys k; derivedKeys := derivedKeys k;
     passkeySalts := s; passkeyAttempts := passkeyAttempts k |}.

(** [setPasskey]: stores the passphrase and drops the cached key. *)
Definition setPasskey (conversationId : string) (passkey : jsstring) (k : Keys) : Keys :=
  {| passkeys := <[conversationId := passkey]> (passkeys k);
     derivedKeys := delete conversationId (derivedKeys k);
     passkeySalts := passkeySalts k; passkeyAttempts := passkeyAttempts k |}.

(** [getPasskey]: [None] is [null]. *)
Definition getPasskey (conversationId : string) (k : Keys) : option jsstring :=
  passkeys k !! conversationId.

End CryptoEngine.

(* ===================================================================== *)
(** ** AppState (core.js): the store object and [reset] *)
(* ===================================================================== *)

Module AppState.

(** The values the store holds under its top-level keys.  Objects are
    string-keyed maps; arrays and [Set]s are lists; a [CryptoKey] is an
    opaque handle. *)
Local Unset Elimination Schemes.
Inductive value : Type :=
  | VNull
  | VUndefined
  | VBool (b : bool)
  | VNum (n : Z)
  | VStr (s : string)
  | VCryptoKey (handle : Z)
  | VArray (items : list value)
  | VSet (items : list value)
  | VObject (props : gmap string value).
Local Set Elimination Schemes.

(** What [INITIAL_STATE()] reads from the browser. *)
Record Env : Type := {
  stored_theme : option string;   (* localStorage.getItem('securechat_theme') *)
  innerWidth : Z;                 (* window.innerWidth *)
}.

(** [localStorage.getItem(..) || 'dark'] *)
Definition initial_theme (env : Env) : string :=
  match stored_theme env with
  | Some t => if decide (t = ""%string) then "dark"%string else t
  | None => "dark"%string
  end.

Definition INITIAL_STATE (env : Env) : gmap string value :=
  list_to_map
    [ ("user", VNull); ("session", VNull); ("profile", VNull);
      ("contacts", VArray []); ("contactRequests", VArray []);
      ("blockedUsers", VArray []);
      ("conversations", VArray []); ("activeConversationId", VNull);
      ("messages", VObject ∅); ("messagePagination", VObject ∅);
      ("passkeys", VObject ∅); ("derivedKeys", VObject ∅);
      ("passkeySalts", VObject ∅); ("passkeyAttempts", VObject ∅);
      ("onlineUsers", VSet []); ("typingUsers", VObject ∅);
      ("lastSeen", VObject ∅);
      ("theme", VStr (initial_theme env));
      ("sidebarOpen", VBool (768 <? innerWidth env)%Z);
      ("activeView", VStr "chat");
      ("connectionStatus", VStr "connected");
      ("unreadCounts", VObject ∅); ("totalUnread", VNum 0%Z);
      ("messageQueue", VArray []);
      ("initialized", VBool false) ]%string.

(** [for (const k of Object.keys(o)) { o[k] = zero; delete o[k]; }],
    performed in place on the object [o]; the result is what [o] holds
    afterwards. *)
Definition wipe (zero : value) (o : gmap string value) : gmap string value :=
  foldl (fun acc k => delete k (<[k := zero]> acc)) o (map fst (map_to_list o)).

(** What [reset()] leaves behind: the objects that were [_state.passkeys]
    and [_state.derivedKeys] (mutated in place), the new [_state], and the
    bus event. *)
Record ResetResult : Type := {
  old_passkeys : gmap string value;
  old_derivedKeys : gmap string value;
  new_state : gmap string value;
  emitted : list string;
}.

Inductive store_error : Type := TypeError.

(** [reset()].  [Object.keys] of a missing, [null] or [undefined] slot is a
    [TypeError]; the store only ever holds objects under the two keys. *)
Definition reset (env : Env) (_state : gmap string value)
  : store_error + ResetResult :=
  match _state !! "passkeys"%string, _state !! "derivedKeys"%string with
  | Some (VObject pk), Some (VObject dk) =>
      let pk' := wipe (VStr "") pk in
      let dk' := wipe VNull dk in
      let preservedTheme := default VUndefined (_state !! "theme"%string) in
      let fresh := INITIAL_STATE env in
      inr {| old_passkeys := pk';
             old_derivedKeys := dk';
             new_state := <["theme"%string := preservedTheme]> fresh;
             emitted := ["state:reset"%string] |}
  | _, _ => inl TypeError
  end.

End AppState.

(* ===================================================================== *)
(** ** The store fields the service layer reads and writes *)
(* ===================================================================== *)

Module Store.

(** A row of the [messages] table as delivered by the change feed. *)
Record Message : Type := {
  id : string;
  conversation_id : string;
  sender_id : string;
  idempotency_key : option string;   (* [None]: null / absent *)
  ciphertext : string;
}.

(** An entry of [messageQueue]: the payload given to [queueMessage] and
    the [_queuedAt] stamp ([None]: property absent). *)
Record QueueEntry : Type := {
  conversationId : string;
  userId : string;
  idempotencyKey : string;
  _queuedAt : option Z;
}.

Record t : Type := {
  messages : gmap string (list Message);
  unreadCounts : gmap string Z;
  totalUnread : Z;
  activeConversationId : option string;
  user_id : option string;             (* AppState.get('user')?.id *)
}.

Definition set_messages (v : gmap string (list Message)) (s : t) : t :=
  {| messages := v; unreadCounts := unreadCounts s; totalUnread := totalUnread s;
     activeConversationId := activeConversationId s; user_id := user_id s |}.
Definition set_unreadCounts (v : gmap string Z) (s : t) : t :=
  {| messages := messages s; unreadCounts := v; totalUnread := totalUnread s;
     activeConversationId := activeConversationId s; user_id := user_id s |}.
Definition set_totalUnread (v : Z) (s : t) : t :=
  {| messages := messages s; unreadCounts := unreadCounts s; totalUnread := v;
     activeConversationId := activeConversationId s; user_id := user_id s |}.
Definition set_activeConversationId (v : option string) (s : t) : t :=
  {| messages := messages s; unreadCounts := unreadCounts s;
     totalUnread := totalUnread s;
     activeConversationId := v; user_id := user_id s |}.

(** [Object.values(counts).reduce((a, b) => a + b, 0)] *)
Definition reduce_sum (counts : gmap string Z) : Z :=
  foldl (fun a b => a + b) 0 (map snd (map_to_list counts)).

(** Truthiness of an id that may be [null]: a non-empty string. *)
Definition truthy_id (o : option string) : bool :=
  match o with
  | Some s => bool_decide (s <> ""%string)
  | None => false
  end.

End Store.

(* ===================================================================== *)
(** ** RealtimeManager (services.js) *)
(* ===================================================================== *)

Module RealtimeManager.
Import Store.

(** Calls that leave the component: bus events and backend requests. *)
Inductive Effect : Type :=
  | Emit (event : string) (conversationId : string)
  | EmitConfirmed (message : Message)
  | EmitReceived (message : Message)
  | MarkMessagesRead (conversationId : string) (userId : option string)
  | Subscribe (channel : string) (conversationId : string)
  | Unsubscribe (channel : string) (conversationId : string)
  | Warn (what : string).

Record State : Type := {
  _userId : option string;
  _activeConversationId : option string;
  store : Store.t;
  effects : list Effect;     (* oldest first *)
}.

Definition with_store (f : Store.t -> Store.t) (st : State) : State :=
  {| _userId := _userId st; _activeConversationId := _activeConversationId st;
     store := f (store st); effects := effects st |}.
Definition with_active (a : option string) (st : State) : State :=
  {| _userId := _userId st; _activeConversationId := a;
     store := store st; effects := effects st |}.
Definition perform (e : Effect) (st : State) : State :=
  {| _userId := _userId st; _activeConversationId := _activeConversationId st;
     store := store st; effects := effects st ++ [e] |}.

(** [m.idempotency_key && m.idempotency_key === key] *)
Definition same_key (key : string) (m : Message) : bool :=
  truthy_id (idempotency_key m) && bool_decide (idempotency_key m = Some key).

Definition same_id (i : string) (m : Message) : bool := bool_decide (id m = i).

(** [_onMessageInsert(msg)]; [visible] is
    [document.visibilityState === 'visible']. *)
Definition _onMessageInsert (visible : bool) (msg : option Message) (st : State) : State :=
  match msg with
  | None => st
  | Some msg =>
      let convId := conversation_id msg in
      if bool_decide (Some (sender_id msg) = _userId st)
      then perform (EmitConfirmed msg) st
      else
        let messages := default [] (messages (store st) !! convId) in
        let dup_key :=
          match idempotency_key msg with
          | Some k => truthy_id (Some k) && existsb (same_key k) messages
          | None => false
          end in
        if dup_key then st
        else if existsb (same_id (id msg)) messages then st
        else
          let messages' := messages ++ [msg] in
          let st1 :=
            with_store (fun s => set_messages (<[convId := messages']> (Store.messages s)) s) st in
          let st2 :=
            if bool_decide (Some convId = _activeConversationId st1) && visible
            then perform (MarkMessagesRead convId (_userId st1)) st1
            else st1 in
          perform (EmitReceived msg) st2
  end.

(** [_updateUnreadCount(conversationId, count)] *)
Definition _updateUnreadCount (conversationId : string) (count : Z) (st : State) : State :=
  let counts := <[conversationId := count]> (unreadCounts (store st)) in
  let st1 := with_store (set_unreadCounts counts) st in
  let total := reduce_sum (unreadCounts (store st1)) in
  with_store (set_totalUnread total) st1.

(** [_handleGlobalMessageInsert(payload)], with [msg = payload.new]. *)
Definition _handleGlobalMessageInsert (visible : bool) (msg : option Message)
    (st : State) : State :=
  match msg with
  | None => st
  | Some msg =>
      if bool_decide (Some (sender_id msg) = _userId st) then st
      else
        let convId := conversation_id msg in
        let st1 :=
          if negb (bool_decide (Some convId = _activeConversationId st)) || negb visible
          then
            let old := unreadCounts (store st) in
            let counts := <[convId := default 0 (old !! convId) + 1]> old in
            let sa := with_store (set_unreadCounts counts) st in
            let total := reduce_sum (unreadCounts (store sa)) in
            let sb := with_store (set_totalUnread total) sa in
            perform (Emit "notification:message" convId) sb
          else st in
        perform (Emit "conversations:updated" convId) st1
  end.

(** [leaveConversation(conversationId)].  The typing broadcast and its
    timers are not part of this state. *)
Definition leaveConversation (conversationId : string) (st : State) : State :=
  let st1 := perform (Unsubscribe "messages" conversationId) st in
  let st2 := perform (Unsubscribe "presence" conversationId) st1 in
  let st3 :=
    if bool_decide (_activeConversationId st2 = Some conversationId)
    then with_store (set_activeConversationId None) (with_active None st2)
    else st2 in
  perform (Emit "conversation:left" conversationId) st3.

(** [enterConversation(conversationId)]; [markReadOk] tells whether the
    [markMessagesRead] request resolved. *)
Definition enterConversation (markReadOk : bool) (conversationId : string)
    (st : State) : State :=
  let st0 :=
    match _activeConversationId st with
    | Some prev =>
        if truthy_id (Some prev) && negb (bool_decide (prev = conversationId))
        then leaveConversation prev st else st
    | None => st
    end in
  let st1 :=
    with_store (set_activeConversationId (Some conversationId))
      (with_active (Some conversationId) st0) in
  let st2 := perform (Subscribe "messages" conversationId) st1 in
  let st3 :=
    if truthy_id (_userId st2)
    then perform (Subscribe "presence" conversationId) st2 else st2 in
  let st4 :=
    if truthy_id (_userId st3) then
      let sa := perform (MarkMessagesRead conversationId (_userId st3)) st3 in
      if markReadOk then _updateUnreadCount conversationId 0 sa
      else perform (Warn "markMessagesRead failed") sa
    else st3 in
  perform (Emit "conversation:entered" conversationId) st4.

(** [_onMessageDelete(oldMsg)].  The event is recorded with its
    conversation; the id it carries is [id oldMsg]. *)
Definition _onMessageDelete (oldMsg : option Message) (st : State) : State :=
  match oldMsg with
  | None => st
  | Some oldMsg =>
      let convId := conversation_id oldMsg in
      let messages := default [] (messages (store st) !! convId) in
      let filtered := List.filter (fun m => negb (same_id (id oldMsg) m)) messages in
      let st1 :=
        with_store (fun s => set_messages (<[convId := filtered]> (Store.messages s)) s) st in
      perform (Emit "message:deleted" convId) st1
  end.

(** *** The typing indicator for one's own keystrokes *)

(** [_typingBroadcastTimer] is [Some c] while the auto-stop timer is
    pending, [c] being the conversation its closure holds; [broadcasts]
    lists the calls of [_broadcastTypingState], oldest first. *)
Record Typing : Type := {
  _isTypingBroadcast : bool;
  _typingBroadcastTimer : option string;
  broadcasts : list (string * bool);
}.

(** [startTyping(conversationId)]; [active] is [_activeConversationId]. *)
Definition startTyping (active : option string) (conversationId : string)
    (ty : Typing) : Typing :=
  if negb (truthy_id (Some conversationId))
     || negb (bool_decide (Some conversationId = active))
  then ty
  else
    let ty1 :=
      if negb (_isTypingBroadcast ty)
      then {| _isTypingBroadcast := true;
              _typingBroadcastTimer := _typingBroadcastTimer ty;
              broadcasts := broadcasts ty ++ [(conversationId, true)] |}
      else ty in
    {| _isTypingBroadcast := _isTypingBroadcast ty1;
       _typingBroadcastTimer := Some conversationId;
       broadcasts := broadcasts ty1 |}.

(** [stopTyping(conversationId)] *)
Definition stopTyping (conversationId : string) (ty : Typing) : Typing :=
  {| _isTypingBroadcast := false;
     _typingBroadcastTimer := None;
     broadcasts := broadcasts ty ++ [(conversationId, false)] |}.

(** The auto-stop timer fires (nothing happens when none is pending). *)
Definition typing_timer_fires (ty : Typing) : Typing :=
  match _typingBroadcastTimer ty with
  | Some conversationId => stopTyping conversationId ty
  | None => ty
  end.

(** What [leaveConversation(conversationId)] does to the indicator: the
    [stopTyping] at its top and [_clearAllTypingTimers]. *)
Definition leave_typing (conversationId : string) (ty : Typing) : Typing :=
  let ty1 := if _isTypingBroadcast ty then stopTyping conversationId ty else ty in
  {| _isTypingBroadcast := false;
     _typingBroadcastTimer := None;
     broadcasts := broadcasts ty1 |}.

(** *** Presence: who is online, who is typing *)

(** [onlineUsers] is a [Set], kept in insertion order; [typingUsers] has
    one [Set] per conversation; [_typingExpireTimers] maps a user to the
    conversation the pending timer will clear that user from. *)
Record Presence : Type := {
  onlineUsers : list string;
  typingUsers : gmap string (list string);
  _typingExpireTimers : gmap string string;
}.

(** [set.add(uid)] and [set.delete(uid)] *)
Definition add_user (uid : string) (set : list string) : list string :=
  if bool_decide (uid ∈ set) then set else set ++ [uid].
Definition delete_user (uid : string) (set : list string) : list string :=
  List.filter (fun u => negb (bool_decide (u = uid))) set.

(** One turn of the loop of [_processPresenceState] over
    [Object.entries(state)]: the locals [onlineUsers] and [typingSet] and
    the timers.  A presence payload is its [typing] flag. *)
Definition presence_entry (userId : option string) (conversationId : string)
    (acc : list string * list string * gmap string string)
    (entry : string * list bool) : list string * list string * gmap string string :=
  let '(online, typingSet, timers) := acc in
  let '(uid, presences) := entry in
  if bool_decide (Some uid = userId) then acc
  else
    let online' := add_user uid online in
    if default false (last presences)
    then (online', add_user uid typingSet, <[uid := conversationId]> timers)
    else (online', typingSet, delete uid timers).

(** [_processPresenceState(conversationId, state)]; [userId] is
    [_userId]. *)
Definition _processPresenceState (userId : option string) (conversationId : string)
    (state : list (string * list bool)) (p : Presence) : Presence :=
  let r := foldl (presence_entry userId conversationId)
             (onlineUsers p, [], _typingExpireTimers p) state in
  {| onlineUsers := r.1.1;
     typingUsers := <[conversationId := r.1.2]> (typingUsers p);
     _typingExpireTimers := r.2 |}.

(** The timer armed by [_setTypingExpireTimer] for a user fires (nothing
    happens when none is pending). *)
Definition typing_expires (uid : string) (p : Presence) : Presence :=
  match _typingExpireTimers p !! uid with
  | Some conversationId =>
      {| onlineUsers := onlineUsers p;
         typingUsers :=
           match typingUsers p !! conversationId with
           | Some typing => <[conversationId := delete_user uid typing]> (typingUsers p)
           | None => typingUsers p
           end;
         _typingExpireTimers := delete uid (_typingExpireTimers p) |}
  | None => p
  end.

End RealtimeManager.

(* ===================================================================== *)
(** ** ConnectivityManager (services.js) *)
(* ===================================================================== *)

Module ConnectivityManager.
Import Store.

(** *** Offline queue *)

Definition EXPIRY_MS : Z := 5 * 60 * 1000.

(** [Date.now() - (msg._queuedAt || 0) > EXPIRY_MS] *)
Definition expired (t : Z) (msg : QueueEntry) : bool :=
  EXPIRY_MS <? t - default 0 (_queuedAt msg).

(** The locals of [flushQueue], with what left the component: the
    entries handed to [SupabaseService.sendMessage] and the entries
    announced on ['message:queue:expired'], oldest first. *)
Record FlushAcc : Type := {
  sent : Z;
  failed : Z;
  remaining : list QueueEntry;
  send_calls : list QueueEntry;
  expired_events : list QueueEntry;
}.

Definition flush_init : FlushAcc :=
  {| sent := 0; failed := 0; remaining := []; send_calls := []; expired_events := [] |}.

Section Flush.
(** [now i]: what [Date.now()] returns in the i-th iteration of the loop;
    [sendMessage i msg]: whether the request made there resolves. *)
Variable now : nat -> Z.
Variable sendMessage : nat -> QueueEntry -> bool.

Fixpoint flush_loop (i : nat) (queue : list QueueEntry) (acc : FlushAcc) : FlushAcc :=
  match queue with
  | [] => acc
  | msg :: rest =>
      if expired (now i) msg then
        flush_loop (S i) rest
          {| sent := sent acc; failed := failed acc + 1; remaining := remaining acc;
             send_calls := send_calls acc;
             expired_events := expired_events acc ++ [msg] |}
      else if sendMessage i msg then
        flush_loop (S i) rest
          {| sent := sent acc + 1; failed := failed acc; remaining := remaining acc;
             send_calls := send_calls acc ++ [msg];
             expired_events := expired_events acc |}
      else
        flush_loop (S i) rest
          {| sent := sent acc; failed := failed acc + 1;
             remaining := remaining acc ++ [msg];
             send_calls := send_calls acc ++ [msg];
             expired_events := expired_events acc |}
  end.

Record FlushResult : Type := { r_sent : Z; r_failed : Z; r_remaining : Z }.

(** [flushQueue()]: the returned counts, the new [messageQueue], and the
    final locals.  The ['queue:flushed'] event and the toasts repeat the
    counts and are left out. *)
Definition flushQueue (queue : list QueueEntry)
  : FlushResult * list QueueEntry * FlushAcc :=
  match queue with
  | [] => ({| r_sent := 0; r_failed := 0; r_remaining := 0 |}, queue, flush_init)
  | _ =>
      let acc := flush_loop 0 queue flush_init in
      ({| r_sent := sent acc; r_failed := failed acc;
          r_remaining := Z.of_nat (length (remaining acc)) |},
       remaining acc, acc)
  end.

End Flush.

(** *** Tab visibility: marking the active conversation read *)

Record VisState : Type := {
  _tabVisible : bool;
  vstore : Store.t;
}.

(** [_handleVisibilityChange()]; [visibleNow] is
    [document.visibilityState === 'visible'] and [markReadOk] whether
    [markMessagesRead] resolved.  The reconnection it may start and the
    presence calls touch none of these fields. *)
Definition _handleVisibilityChange (visibleNow markReadOk : bool) (v : VisState)
  : VisState :=
  let wasVisible := _tabVisible v in
  let s := vstore v in
  if visibleNow && negb wasVisible then
    let activeConv := activeConversationId s in
    let userId := user_id s in
    match activeConv with
    | Some conv =>
        if truthy_id activeConv && truthy_id userId && markReadOk then
          let counts := unreadCounts s in
          if 0 <? default 0 (counts !! conv) then
            let counts' := <[conv := 0]> counts in
            let s1 := set_unreadCounts counts' s in
            let total := reduce_sum counts' in
            {| _tabVisible := visibleNow; vstore := set_totalUnread total s1 |}
          else {| _tabVisible := visibleNow; vstore := s |}
        else {| _tabVisible := visibleNow; vstore := s |}
    | None => {| _tabVisible := visibleNow; vstore := s |}
    end
  else {| _tabVisible := visibleNow; vstore := s |}.

(** *** Reconnection with back-off *)

Inductive Status : Type := online | offline | reconnecting.

#[global] Instance Status_eq_dec : EqDecision Status.
Proof. solve_decision. Defined.

(** What [SupabaseService.getSession()] does: resolves to a session,
    resolves to [null], or rejects. *)
Inductive SessionResult : Type := SessionAlive | SessionGone | SessionError.

Inductive Notice : Type :=
  | Bus (event : string)
  | StatusChange (status previous : Status)
  | Toast (message : string) (persistent : bool).

(** Why the loop armed a timer: the first wait after [_startReconnecting],
    the browser still being offline, or the failure of an attempt. *)
Inductive TimerFor : Type :=
  | FirstAttempt
  | StillOffline
  | AfterFailure (attempt : Z).

(** The fields of the manager the loop uses.  A pending [setTimeout] is
    [Some delay]; [scheduled] lists every timer the loop armed, oldest
    first, with its delay.  Delays are exact rationals. *)
Record Conn : Type := {
  _status : Status;
  _reconnectAttempts : Z;
  _reconnectInterval : option Q;
  connectionStatus : string;
  scheduled : list (TimerFor * Q);
  notices : list Notice;
}.

Definition _maxReconnectDelay : Q := 30000.
Definition MAX_ATTEMPTS : Z := 15.

Definition stateMap (s : Status) : string :=
  match s with
  | online => "connected"
  | offline => "disconnected"
  | reconnecting => "reconnecting"
  end.

Definition notify (n : Notice) (c : Conn) : Conn :=
  {| _status := _status c; _reconnectAttempts := _reconnectAttempts c;
     _reconnectInterval := _reconnectInterval c;
     connectionStatus := connectionStatus c;
     scheduled := scheduled c; notices := notices c ++ [n] |}.

Definition set_connectionStatus (v : string) (c : Conn) : Conn :=
  {| _status := _status c; _reconnectAttempts := _reconnectAttempts c;
     _reconnectInterval := _reconnectInterval c;
     connectionStatus := v;
     scheduled := scheduled c; notices := notices c |}.

Definition set_attempts (n : Z) (c : Conn) : Conn :=
  {| _status := _status c; _reconnectAttempts := n;
     _reconnectInterval := _reconnectInterval c;
     connectionStatus := connectionStatus c;
     scheduled := scheduled c; notices := notices c |}.

(** [this._reconnectInterval = setTimeout(attemptReconnect, delay)] *)
Definition setTimeout (why : TimerFor) (delay : Q) (c : Conn) : Conn :=
  {| _status := _status c; _reconnectAttempts := _reconnectAttempts c;
     _reconnectInterval := Some delay;
     connectionStatus := connectionStatus c;
     scheduled := scheduled c ++ [(why, delay)]; notices := notices c |}.

Definition clear_interval (c : Conn) : Conn :=
  {| _status := _status c; _reconnectAttempts := _reconnectAttempts c;
     _reconnectInterval := None;
     connectionStatus := connectionStatus c;
     scheduled := scheduled c; notices := notices c |}.

Definition _setStatus (status : Status) (c : Conn) : Conn :=
  let old := _status c in
  if decide (old = status) then c
  else
    let c1 :=
      {| _status := status; _reconnectAttempts := _reconnectAttempts c;
         _reconnectInterval := _reconnectInterval c;
         connectionStatus := stateMap status;
         scheduled := scheduled c; notices := notices c |} in
    notify (StatusChange status old) c1.

Definition _stopReconnecting (c : Conn) : Conn :=
  match _reconnectInterval c with
  | Some _ => clear_interval c
  | None => c
  end.

(** [_reconnect()]: [inl] when it throws.  [hasUser] is the truthiness of
    [AppState.get('user')?.id]. *)
Definition _reconnect (session : SessionResult) (hasUser : bool) (c : Conn)
  : Conn + Conn :=
  match session with
  | SessionError => inl c
  | SessionGone => inl (notify (Bus "session:expired") c)
  | SessionAlive =>
      let c1 := if hasUser then notify (Bus "realtime:reconnect") c else c in
      let c2 := set_connectionStatus "connected" c1 in
      let c3 := set_attempts 0 c2 in
      inr (_stopReconnecting c3)
  end.

(** The delay armed after the failed attempt number [attempts];
    [random] is the value of [Math.random()]. *)
Definition backoff_delay (attempts : Z) (random : Q) : Q :=
  let base := (inject_Z CONFIG.RECONNECT_INTERVAL_MS * Qpower (3 # 2) (attempts - 1))%Q in
  let jitter := (random * 1000)%Q in
  Qmin (base + jitter)%Q _maxReconnectDelay.

(** What one firing of the timer is given by the environment. *)
Record Tick : Type := {
  onLine : bool;              (* navigator.onLine *)
  session : SessionResult;
  hasUser : bool;
  random : Q;                 (* Math.random(), in [0, 1) *)
}.

(** The closure [attemptReconnect] of [_startReconnecting]. *)
Definition attemptReconnect (t : Tick) (c : Conn) : Conn :=
  if negb (onLine t) then
    setTimeout StillOffline (inject_Z CONFIG.RECONNECT_INTERVAL_MS) c
  else
    let c1 := set_attempts (_reconnectAttempts c + 1) c in
    match _reconnect (session t) (hasUser t) c1 with
    | inr c2 =>
        let c3 := _setStatus online c2 in
        let c4 := clear_interval c3 in
        notify (Toast "Reconnected!" false) c4
    | inl c2 =>
        if MAX_ATTEMPTS <=? _reconnectAttempts c2 then
          let c3 := _stopReconnecting c2 in
          let c4 := _setStatus offline c3 in
          notify (Toast "Unable to reconnect. Please check your connection and refresh the page." true) c4
        else
          setTimeout (AfterFailure (_reconnectAttempts c2))
            (backoff_delay (_reconnectAttempts c2) (random t)) c2
    end.

Definition _startReconnecting (c : Conn) : Conn :=
  match _reconnectInterval c with
  | Some _ => c
  | None =>
      let c1 := _setStatus reconnecting c in
      let c2 := set_connectionStatus "reconnecting" c1 in
      setTimeout FirstAttempt (inject_Z CONFIG.RECONNECT_INTERVAL_MS) c2
  end.

(** The pending timer fires (nothing happens when none is pending). *)
Definition timer_fires (t : Tick) (c : Conn) : Conn :=
  match _reconnectInterval c with
  | Some _ => attemptReconnect t c
  | None => c
  end.

(** The loop: [_startReconnecting] followed by one firing per tick. *)
Definition reconnect_loop (ticks : list Tick) (c : Conn) : Conn :=
  foldl (fun c t => timer_fires t c) (_startReconnecting c) ticks.

(** *** The offline queue, continued *)

(** [queueMessage(messagePayload)]: the payload is copied and stamped. *)
Definition queueMessage (now : Z) (messagePayload : QueueEntry)
    (queue : list QueueEntry) : list QueueEntry :=
  queue ++ [ {| conversationId := conversationId messagePayload;
                userId := userId messagePayload;
                idempotencyKey := idempotencyKey messagePayload;
                _queuedAt := Some now |} ].

(** *** Browser events, manual reconnection and the heartbeat *)


Definition forceReconnect (session : SessionResult) (hasUser : bool) (c : Conn) : Conn :=
  let c1 := _setStatus reconnecting c in
  match _reconnect session hasUser c1 with
  | inr c2 => notify (Toast "Reconnected!" false) (_setStatus online c2)
  | inl c2 => _startReconnecting c2
  end.

(** [_handleOnline()], on the manager and the queue; [activeConv] is the
    truthiness of [AppState.get('activeConversationId')].  The toasts and
    the event of [flushQueue] are left out, as in [flushQueue]. *)
Definition _handleOnline (now : nat -> Z) (sendMessage : nat -> QueueEntry -> bool)
    (session : SessionResult) (hasUser activeConv : bool)
    (c : Conn) (queue : list QueueEntry) : Conn * list QueueEntry :=
  let c1 := _setStatus reconnecting c in
  match _reconnect session hasUser c1 with
  | inr c2 =>
      let c3 := _setStatus online c2 in
      let c4 := set_attempts 0 c3 in
      let c5 := notify (Toast "Connection restored" false) c4 in
      let queue' := (flushQueue now sendMessage queue).1.2 in
      let c6 := if activeConv then notify (Bus "conversation:reconnect") c5 else c5 in
      let c7 := notify (Bus "conversations:refresh") c6 in
      (notify (Bus "contacts:refresh") c7, queue')
  | inl c2 => (_startReconnecting c2, queue)
  end.


End ConnectivityManager.

(* ===================================================================== *)
(** ** EventBus (core.js) *)
(* ===================================================================== *)

Module EventBus.

(** A registered function.  Callbacks are told apart by a number (their
    identity as JavaScript functions); every call of [once] makes a new
    wrapper function around its callback. *)
Inductive Listener : Type :=
  | Plain (callback : nat)
  | Wrapper (serial : nat) (callback : nat).

#[global] Instance Listener_eq_dec : EqDecision Listener.
Proof. solve_decision. Defined.

(** [_listeners]: a [Set] per event, in insertion order; [wrappers]
    counts the wrapper functions made so far. *)
Record Bus : Type := {
  _listeners : gmap string (list Listener);
  wrappers : nat;
}.

(** [set.add(f)] *)
Definition set_add (f : Listener) (set : list Listener) : list Listener :=
  if bool_decide (f ∈ set) then set else set ++ [f].

(** [set.delete(f)] *)
Definition set_delete (f : Listener) (set : list Listener) : list Listener :=
  List.filter (fun g => negb (bool_decide (g = f))) set.

Definition subscribe (event : string) (f : Listener) (bus : Bus) : Bus :=
  {| _listeners := <[event := set_add f (default [] (_listeners bus !! event))]>
                     (_listeners bus);
     wrappers := wrappers bus |}.

(** [this._listeners.get(event)?.delete(f)]: the handle returned by [on]
    and [once], and the body of [off]. *)
Definition unsubscribe (event : string) (f : Listener) (bus : Bus) : Bus :=
  match _listeners bus !! event with
  | Some set =>
      {| _listeners := <[event := set_delete f set]> (_listeners bus);
         wrappers := wrappers bus |}
  | None => bus
  end.

(** [on(event, callback)] *)
Definition on (event : string) (callback : nat) (bus : Bus) : Bus :=
  subscribe event (Plain callback) bus.

(** [once(event, callback)]: the bus, and the wrapper its handle removes. *)
Definition once (event : string) (callback : nat) (bus : Bus) : Bus * Listener :=
  let w := Wrapper (wrappers bus) callback in
  (subscribe event w {| _listeners := _listeners bus; wrappers := S (wrappers bus) |}, w).

(** [off(event, callback)] *)
Definition off (event : string) (callback : nat) (bus : Bus) : Bus :=
  unsubscribe event (Plain callback) bus.

Definition target (f : Listener) : nat :=
  match f with Plain c => c | Wrapper _ c => c end.

Definition is_wrapper (f : Listener) : bool :=
  match f with Wrapper _ _ => true | Plain _ => false end.

(** [emit(event, data)] for callbacks that do not themselves call the
    bus: the callbacks invoked, in order, and the bus afterwards (every
    wrapper that ran has removed itself).  A callback that throws is
    logged and the loop goes on, so the list does not depend on it. *)
Definition emit (event : string) (bus : Bus) : list nat * Bus :=
  match _listeners bus !! event with
  | None => ([], bus)
  | Some cbs =>
      (map target cbs,
       {| _listeners := <[event := List.filter (fun f => negb (is_wrapper f)) cbs]>
                          (_listeners bus);
          wrappers := wrappers bus |})
  end.

End EventBus.

(* ===================================================================== *)
(** ** SupabaseService (core.js): realtime channels *)
(* ===================================================================== *)

Module SupabaseService.

(** [_channels] maps a key to the channel object made for it; a channel
    object is told apart by its serial number.  [client_channels] lists
    the channels the client holds: those [client.channel(..)] made and
    [client.removeChannel(..)] has not been given. *)
Record Realtime : Type := {
  _channels : gmap string nat;
  client_channels : list nat;
  created : nat;
}.

Definition removeChannel (ch : nat) (l : list nat) : list nat :=
  List.filter (fun c => negb (Nat.eqb c ch)) l.

Definition _removeChannel (key : string) (s : Realtime) : Realtime :=
  match _channels s !! key with
  | Some existing =>
      {| _channels := delete key (_channels s);
         client_channels := removeChannel existing (client_channels s);
         created := created s |}
  | None => s
  end.

(** What [subscribeToMessages], [subscribeToAllMessages],
    [subscribeToContacts] and [subscribeToPresence] do with their key
    (['messages:' + id], ['all-messages:' + id], ['contacts:' + id],
    ['presence:' + id]). *)
Definition subscribe (key : string) (s : Realtime) : Realtime :=
  let s1 := _removeChannel key s in
  let ch := created s1 in
  {| _channels := <[key := ch]> (_channels s1);
     client_channels := client_channels s1 ++ [ch];
     created := S (created s1) |}.

Definition unsubscribe (key : string) (s : Realtime) : Realtime :=
  _removeChannel key s.

Definition unsubscribeAll (s : Realtime) : Realtime :=
  {| _channels := ∅;
     client_channels :=
       foldl (fun l ch => removeChannel ch l) (client_channels s)
         (map snd (map_to_list (_channels s)));
     created := created s |}.

End SupabaseService.

(* ===================================================================== *)
(** ** UIRenderer (app.js): the callers of the engine and of the store *)
(* ===================================================================== *)

Module UIRenderer.
Import CryptoEngine Store.

(** *** The passkey dialog *)

Inductive Submitted : Type :=
  | TooShort        (* 'Passkey must be at least 4 characters' *)
  | LockedOutNow    (* 'Locked out. Please wait.' *)
  | Opened.         (* the dialog closes and the conversation opens *)

Section Passkey.
Context {W : WebCrypto}.

(** [_ensureSalt(conversationId, conv)]; [fetched] is what
    [conv?.encryption_salt] or else [getConversationSalt] gave. *)
Definition _ensureSalt (conversationId : string) (fetched : option jsstring)
    (rnd : entropy) (k : Keys) : outcome Keys :=
  if truthy (default [] (passkeySalts k !! conversationId)) then Returned k
  else
    let! salt := if truthy (default [] fetched) then Returned (default [] fetched)
                 else generateSalt rnd in
    Returned (with_salts (<[conversationId := salt]> (passkeySalts k)) k).

(** [_handlePasskeySubmit()], with what it leaves in the store.  [now] and
    [later] are [Date.now()] in [isLockedOut] and in
    [recordFailedAttempt]; [msgs] lists the ciphertext and IV of the
    messages held for the conversation. *)
Definition _handlePasskeySubmit (now later : Z) (convId : string) (passkey : jsstring)
    (fetched : option jsstring) (rnd : entropy)
    (msgs : list (jsstring * jsstring)) (k : Keys) : outcome Submitted * Keys :=
  if negb (truthy passkey) || (Z.of_nat (length passkey) <? CONFIG.PASSKEY_MIN_LENGTH)
  then (Returned TooShort, k)
  else
    let locked := isLockedOut now convId (passkeyAttempts k) in
    let k1 := with_attempts locked.2 k in
    if locked.1 then (Returned LockedOutNow, k1)
    else
      let k2 := setPasskey convId passkey k1 in
      match _ensureSalt convId fetched rnd k2 with
      | Thrown e => (Thrown e, k2)
      | Returned k3 =>
          let salt := default [] (passkeySalts k3 !! convId) in
          if truthy salt then
            match List.find (fun m => truthy m.1 && truthy m.2) msgs with
            | Some firstWithCipher =>
                match decrypt firstWithCipher.1 firstWithCipher.2 passkey salt with
                | Thrown e => (Thrown e, k3)
                | Returned result =>
                    if success result
                    then (Returned Opened,
                          with_attempts (resetAttempts convId (passkeyAttempts k3)) k3)
                    else (Returned Opened,
                          with_attempts
                            (recordFailedAttempt later convId (passkeyAttempts k3)).2 k3)
                end
            | None => (Returned Opened, k3)
            end
          else (Returned Opened, k3)
      end.

End Passkey.

(** *** The message list of a conversation *)

(** An element of [AppState.messages[convId]] as the renderer sees it: a
    row of the server, or the stand-in pushed by [handleSendMessage]
    ([_optimistic: true], id ['temp-' + idempotencyKey]). *)
Inductive Row : Type :=
  | Optimistic (idempotencyKey : string) (status : string)
  | Server (m : Message).

Definition row_id (r : Row) : string :=
  match r with
  | Optimistic key _ => "temp-" +:+ key
  | Server m => id m
  end.

Definition _optimistic (r : Row) : bool :=
  match r with Optimistic _ _ => true | Server _ => false end.

(** The [filter] of [_loadMessages]: a row passes when its id has not
    been seen. *)
Fixpoint unique_from (seen : list string) (merged : list Row) : list Row :=
  match merged with
  | [] => []
  | m :: rest =>
      if bool_decide (row_id m ∈ seen) then unique_from seen rest
      else m :: unique_from (row_id m :: seen) rest
  end.

(** What [_loadMessages] stores: [before] tells whether an older page was
    asked for, [msgs] is the page, [existing] the list held so far. *)
Definition loaded (before : bool) (msgs existing : list Row) : list Row :=
  let merged := if before then msgs ++ existing else msgs in
  unique_from [] merged.

(** [msgs.findIndex(p)] *)
Fixpoint findIndex {A} (p : A -> bool) (l : list A) : option nat :=
  match l with
  | [] => None
  | x :: rest => if p x then Some O else S <$> findIndex p rest
  end.

(** The text of a key inside a template literal: [null] prints as 'null'. *)
Definition key_text (idempKey : option string) : string := default "null" idempKey.

(** [_replaceOptimistic(convId, idempKey, realMsg)] on the list. *)
Definition _replaceOptimistic (idempKey : option string) (realMsg : Message)
    (msgs : list Row) : list Row :=
  let wanted := "temp-" +:+ key_text idempKey in
  match findIndex (fun m => _optimistic m && bool_decide (row_id m = wanted)) msgs with
  | Some idx => <[idx := Server realMsg]> msgs
  | None =>
      if existsb (fun m => bool_decide (row_id m = id realMsg)) msgs then msgs
      else msgs ++ [Server realMsg]
  end.

(** The push of [handleSendMessage]. *)
Definition push_optimistic (idempotencyKey : string) (msgs : list Row) : list Row :=
  msgs ++ [Optimistic idempotencyKey "sending"].

End UIRenderer.

(* ===================================================================== *)
(** ** Utils (core.js) *)
(* ===================================================================== *)

Module Utils.

(** One call, at time [n], of the function [throttle(fn, ms)] returned:
    whether [fn] runs, and the closure's [last] afterwards. *)
Definition throttled (ms : Z) (n : Z) (last : Z) : bool * Z :=
  if ms <=? n - last then (true, n) else (false, last).

(** The times at which [fn] runs when the throttled function is called at
    the given times, [last] being what the closure holds. *)
Fixpoint throttle (ms : Z) (last : Z) (times : list Z) : list Z :=
  match times with
  | [] => []
  | n :: rest =>
      if (throttled ms n last).1
      then n :: throttle ms (throttled ms n last).2 rest
      else throttle ms (throttled ms n last).2 rest
  end.

(** [data.slice(start, end)] *)
Definition slice {A} (data : list A) (start stop : Z) : list A :=
  let len := Z.of_nat (length data) in
  let from := if start <? 0 then Z.max (len + start) 0 else Z.min start len in
  let to := if stop <? 0 then Z.max (len + stop) 0 else Z.min stop len in
  take (Z.to_nat (to - from)) (drop (Z.to_nat from) data).

(** The [for] loop of [chunkData] from index [i] on, run for at most
    [fuel] turns; [None] when they do not suffice. *)
Fixpoint chunk_loop {A} (fuel : nat) (data : list A) (max : Z) (i : Z)
    (chunks : list (list A)) : option (list (list A)) :=
  if i <? Z.of_nat (length data) then
    match fuel with
    | O => None
    | S fuel' => chunk_loop fuel' data max (i + max) (chunks ++ [slice data i (i + max)])
    end
  else Some chunks.

(** [chunkData(data, max)] *)
Definition chunkData {A} (fuel : nat) (data : list A) (max : Z) : option (list (list A)) :=
  chunk_loop fuel data max 0 [].

End Utils.

(* ===================================================================== *)
(** ** A reference instance of the platform primitives *)
(* ===================================================================== *)

(** A tagged-concatenation stand-in for PBKDF2 and AES-GCM.  It is not a
    cipher; it only shows that [WebCryptoSpec] can be met and lets the
    engine be run on concrete inputs. *)
Module ToyCrypto.

Definition toy_tag (k : list byte) : list byte :=
  take 16 (k ++ repeat Byte.x00 16).

Definition toy_decrypt (k iv ct : list byte) : option (list byte) :=
  let n := (length ct - 16)%nat in
  if bool_decide (16 <= length ct)%nat
     && forallb (fun p => Z_of_byte p.1 =? Z_of_byte p.2) (zip (drop n ct) (toy_tag k))
  then Some (take n ct) else None.

#[global] Instance toy : WebCrypto := {|
  CryptoKey := list byte;
  pbkdf2 := fun _ _ password salt => password ++ salt;
  aes_gcm_encrypt := fun k iv pt => pt ++ toy_tag k;
  aes_gcm_decrypt := toy_decrypt;
|}.

End ToyCrypto.

(* ===================================================================== *)
(** * The vocabulary of the properties *)
(* ===================================================================== *)

(** ** Ranges *)

Definition octet (b : Z) : Prop := 0 <= b < 256.
Definition sextet (i : Z) : Prop := 0 <= i < 64.

(** A Unicode scalar value: a code point that is not a surrogate. *)
Definition scalar (cp : Z) : Prop :=
  0 <= cp < 0xD800 \/ 0xE000 <= cp < 0x110000.

(** ** Lockout *)

Section LockoutVocabulary.
Import CryptoEngine.

(** The store after [recordFailedAttempt(conv)] has been called once at
    each of the given times, in order. *)
Definition record_all (conv : string) (times : list Z)
    (attempts : gmap string Attempt) : gmap string Attempt :=
  foldl (fun a t => (recordFailedAttempt t conv a).2) attempts times.

(** The counter of a conversation, 0 when it has no entry. *)
Definition counter (conv : string) (attempts : gmap string Attempt) : Z :=
  from_option count 0 (attempts !! conv).

End LockoutVocabulary.

(** ** The store *)

Section StoreVocabulary.
Import AppState.

(** A store after some use: a cached passphrase and key, a changed theme,
    unread messages. *)
Definition used_state : gmap string value :=
  <["passkeys"%string := VObject {[ "c1"%string := VStr "hunter2" ]}]>
    (<["derivedKeys"%string := VObject {[ "c1"%string := VCryptoKey 7 ]}]>
       (<["theme"%string := VStr "solarized"]>
          (<["totalUnread"%string := VNum 3]>
             (INITIAL_STATE {| stored_theme := None; innerWidth := 1280 |})))).

End StoreVocabulary.

(** ** Messages and unread counters *)

Section MessageVocabulary.
Import Store RealtimeManager.

(** A stored message counts as a copy of [msg] when it has the same id, or
    the same non-empty idempotency key. *)
Definition copy_of (msg m : Message) : bool :=
  same_id (id msg) m
  || match idempotency_key msg with
     | Some k => truthy_id (Some k) && same_key k m
     | None => false
     end.

Definition copies (msg : Message) (l : list Message) : nat :=
  length (List.filter (copy_of msg) l).

(** The list kept for a conversation ([[]] when it has none yet). *)
Definition conversation (convId : string) (st : State) : list Message :=
  default [] (messages (store st) !! convId).

Definition bob_hello : Message :=
  {| id := "m1"; conversation_id := "c1"; sender_id := "bob";
     idempotency_key := Some "k1"%string; ciphertext := "q83v" |}.

Definition alice_idle : State :=
  {| _userId := Some "alice"%string; _activeConversationId := Some "c1"%string;
     store := {| messages := ∅; unreadCounts := ∅; totalUnread := 0;
                 activeConversationId := Some "c1"%string;
                 user_id := Some "alice"%string |};
     effects := [] |}.

(** The sum of the entries of [unreadCounts]. *)
Definition sum_entries (counts : gmap string Z) : Z :=
  map_fold (fun _ n acc => n + acc) 0 counts.

Definition unread_consistent (s : Store.t) : Prop :=
  totalUnread s = sum_entries (unreadCounts s).

(** Either the unread fields are untouched or they are consistent. *)
Definition untouched_or_consistent (before after : Store.t) : Prop :=
  (unreadCounts after = unreadCounts before /\ totalUnread after = totalUnread before)
  \/ unread_consistent after.

End MessageVocabulary.

(** ** The offline queue *)

Section QueueVocabulary.
Import Store ConnectivityManager.
Variable now : nat -> Z.
Variable sendMessage : nat -> QueueEntry -> bool.

(** The entries of a queue with their positions, counted from [i]. *)
Definition indexed_from (i : nat) (queue : list QueueEntry) : list (nat * QueueEntry) :=
  zip (seq i (length queue)) queue.

(** The fate of the entry at a position: dropped as too old, delivered,
    or kept after a failed send. *)
Definition dropped (p : nat * QueueEntry) : bool := expired (now p.1) p.2.
Definition delivered (p : nat * QueueEntry) : bool :=
  negb (dropped p) && sendMessage p.1 p.2.
Definition kept (p : nat * QueueEntry) : bool :=
  negb (dropped p) && negb (sendMessage p.1 p.2).

Definition count_of (f : nat * QueueEntry -> bool) (l : list (nat * QueueEntry)) : Z :=
  Z.of_nat (length (List.filter f l)).

Definition entries_of (f : nat * QueueEntry -> bool) (l : list (nat * QueueEntry))
  : list QueueEntry :=
  map snd (List.filter f l).

End QueueVocabulary.

(** ** The reconnection loop *)

Section LoopVocabulary.
Import ConnectivityManager.

(** The delays of the timers armed after a failed attempt, oldest first. *)
Definition backoff_delays (c : Conn) : list Q :=
  flat_map (fun p => match p.1 with AfterFailure _ => [p.2] | _ => [] end) (scheduled c).

(** The delays the formula gives for the attempts numbered [n + 1],
    [n + 2], ... with the random numbers of the given ticks. *)
Fixpoint delays_from (n : Z) (ticks : list Tick) : list Q :=
  match ticks with
  | [] => []
  | t :: ts => backoff_delay (n + 1) (random t) :: delays_from (n + 1) ts
  end.

(** The loop is waiting for its timer, [n] attempts having failed. *)
Definition running (c : Conn) (n : nat) : Prop :=
  is_Some (_reconnectInterval c)
  /\ _reconnectAttempts c = Z.of_nat n
  /\ _status c = reconnecting.

(** The loop has given up. *)
Definition stopped (c : Conn) : Prop :=
  _reconnectInterval c = None
  /\ _reconnectAttempts c = MAX_ATTEMPTS
  /\ _status c = offline
  /\ connectionStatus c = "disconnected"%string
  /\ exists msg, last (notices c) = Some (Toast msg true).

(** A browser that stays online, a backend that does not answer. *)
Definition dead_backend (r : Q) : Tick :=
  {| onLine := true; session := SessionError; hasUser := true; random := r |}.

Definition fresh_manager : Conn :=
  {| _status := online; _reconnectAttempts := 0; _reconnectInterval := None;
     connectionStatus := "connected"; scheduled := []; notices := [] |}.

End LoopVocabulary.

(** ** The placeholder text *)

Section PlaceholderVocabulary.
Import CryptoEngine.

(** A unit of the placeholder: a space, or a character of one of the six
    blocks of [ranges]. *)
Definition glyph_or_space (u : Z) : Prop :=
  u = 32 \/ exists lo hi, In (lo, hi) ranges /\ lo <= u < hi.

(** The number of indices [j] in [[i, i + n)] after which the loop of
    [generateGibberish] adds a space. *)
Fixpoint spaces_from (i : Z) (n : nat) : nat :=
  match n with
  | O => O
  | S n' => (if (0 <? i) && (i mod 7 =? 0) then 1 else 0) + spaces_from (i + 1) n'
  end.

End PlaceholderVocabulary.

(** ** The passkey dialog *)

Section DialogVocabulary.
Import CryptoEngine UIRenderer.

(** What one press of the submit button is given: the clock at the lock
    check and at the recording of a failure, the passphrase typed, the
    salt the server offers, the entropy for a new salt, and the
    ciphertext and IV of the messages held for the conversation. *)
Record Submission : Type := {
  at_check : Z;
  at_record : Z;
  typed : jsstring;
  offered_salt : option jsstring;
  salt_entropy : entropy;
  held : list (jsstring * jsstring);
}.

Definition submit `{W : WebCrypto} (conv : string) (s : Submission) (k : Keys)
  : outcome Submitted * Keys :=
  _handlePasskeySubmit (at_check s) (at_record s) conv (typed s)
    (offered_salt s) (salt_entropy s) (held s) k.

(** The store after the given presses, in order. *)
Definition submit_all `{W : WebCrypto} (conv : string) (l : list Submission) (k : Keys)
  : Keys :=
  foldl (fun k s => (submit conv s k).2) k l.

(** A store in which the conversation c1 has a salt and four failures. *)
Definition four_failures : Keys :=
  {| passkeys := ∅; derivedKeys := ∅;
     passkeySalts := {[ "c1"%string := js "s1" ]};
     passkeyAttempts := {[ "c1"%string := {| count := 4; lockedUntil := None |} ]} |}.

(** A store in which c1 is locked until the given time. *)
Definition locked_until (stamp : Z) : Keys :=
  {| passkeys := ∅; derivedKeys := ∅;
     passkeySalts := {[ "c1"%string := js "s1" ]};
     passkeyAttempts :=
       {[ "c1"%string := {| count := 5; lockedUntil := Some stamp |} ]} |}.

(** A press with a passphrase that does not open the one message held. *)
Definition wrong_guess (t : Z) : Submission :=
  {| at_check := t; at_record := t; typed := js "abcd";
     offered_salt := None; salt_entropy := fun _ => Byte.x2a;
     held := [(js "AAAA", js "AAAA")] |}.

End DialogVocabulary.

(** ** Realtime channels *)

Section ChannelVocabulary.
Import RealtimeManager SupabaseService.

Inductive ChannelOp : Type :=
  | Sub (key : string)
  | Unsub (key : string)
  | UnsubAll.

Definition channel_op (o : ChannelOp) (s : Realtime) : Realtime :=
  match o with
  | Sub key => subscribe key s
  | Unsub key => unsubscribe key s
  | UnsubAll => unsubscribeAll s
  end.

Definition no_channels : Realtime :=
  {| _channels := ∅; client_channels := []; created := 0 |}.

(** The client holds each channel once, and holds exactly the channels
    registered in [_channels], each under one key. *)
Definition tidy (s : Realtime) : Prop :=
  NoDup (client_channels s)
  /\ (forall ch, ch ∈ client_channels s <-> exists key, _channels s !! key = Some ch)
  /\ (forall k1 k2 ch,
         _channels s !! k1 = Some ch -> _channels s !! k2 = Some ch -> k1 = k2).

(** Every registered channel was made before the next serial number. *)
Definition serials_below (s : Realtime) : Prop :=
  forall key ch, _channels s !! key = Some ch -> (ch < created s)%nat.

(** The keys of the channels of a conversation. *)
Definition conversation_keys (active : option string) : gset string :=
  match active with
  | Some c => {[ "messages:" +:+ c; "presence:" +:+ c ]}
  | None => ∅
  end.

(** What a call recorded by the manager does to the service:
    [Subscribe "messages" c] is [subscribeToMessages(c, ..)],
    [Subscribe "presence" c] is [subscribeToPresence(c, ..)], and
    [Unsubscribe ch c] is [unsubscribe(ch + ':' + c)]. *)
Definition service_call (e : Effect) (s : Realtime) : Realtime :=
  match e with
  | Subscribe channel conversationId =>
      subscribe (channel +:+ ":" +:+ conversationId) s
  | Unsubscribe channel conversationId =>
      unsubscribe (channel +:+ ":" +:+ conversationId) s
  | _ => s
  end.

Definition service_after (es : list Effect) (s : Realtime) : Realtime :=
  foldl (fun s e => service_call e s) s es.

(** The manager after entering the given conversations one after the
    other, each with the outcome of its read-receipt request. *)
Definition visit_all (visits : list (string * bool)) (st : State) : State :=
  foldl (fun st v => enterConversation v.2 v.1 st) st visits.

End ChannelVocabulary.

(** ** The typing indicator *)

Section TypingVocabulary.
Import RealtimeManager.

Inductive TypingEvent : Type :=
  | Keystroke (active : option string) (conversationId : string)
  | StopTyping (conversationId : string)
  | AutoStop
  | Leave (conversationId : string).

Definition typing_step (ty : Typing) (e : TypingEvent) : Typing :=
  match e with
  | Keystroke active conversationId => startTyping active conversationId ty
  | StopTyping conversationId => stopTyping conversationId ty
  | AutoStop => typing_timer_fires ty
  | Leave conversationId => leave_typing conversationId ty
  end.

Definition typing_idle : Typing :=
  {| _isTypingBroadcast := false; _typingBroadcastTimer := None; broadcasts := [] |}.

(** No two broadcasts in a row announce typing. *)
Fixpoint no_repeated_typing (l : list (string * bool)) : bool :=
  match l with
  | a :: ((b :: _) as rest) => negb (a.2 && b.2) && no_repeated_typing rest
  | _ => true
  end.

(** The flag is up exactly while the auto-stop timer is pending, and
    exactly when the last broadcast announced typing. *)
Definition typing_settled (ty : Typing) : Prop :=
  no_repeated_typing (broadcasts ty) = true
  /\ (_isTypingBroadcast ty = true <-> is_Some (_typingBroadcastTimer ty))
  /\ (_isTypingBroadcast ty = true <-> exists c, last (broadcasts ty) = Some (c, true)).

End TypingVocabulary.

(** ** The connection, event by event *)

Section ConnectionVocabulary.
Import Store ConnectivityManager.

(** The queue after the given payloads were queued, each at its time. *)
Definition queue_all (entries : list (Z * QueueEntry)) (queue : list QueueEntry)
  : list QueueEntry :=
  foldl (fun q p => queueMessage p.1 p.2 q) queue entries.




(** A payload waiting to be queued. *)
Definition hello_payload : QueueEntry :=
  {| conversationId := "c1"; userId := "alice"; idempotencyKey := "k1";
     _queuedAt := None |}.

(** A backend that answers. *)
Definition live_backend (r : Q) : Tick :=
  {| onLine := true; session := SessionAlive; hasUser := true; random := r |}.

End ConnectionVocabulary.

(** ** Presence *)

Section PresenceVocabulary.
Import RealtimeManager.

(** The users shown as typing in a conversation. *)
Definition typing_in (conversationId : string) (p : Presence) : list string :=
  default [] (typingUsers p !! conversationId).

(** A presence state says that the user is typing: the last payload of
    the user's entry has the flag. *)
Definition says_typing (state : list (string * list bool)) (uid : string) : Prop :=
  exists presences, (uid, presences) ∈ state /\ default false (last presences) = true.

Definition nobody_here : Presence :=
  {| onlineUsers := []; typingUsers := ∅; _typingExpireTimers := ∅ |}.

End PresenceVocabulary.

(* ===================================================================== *)
(** * Properties *)
(* ===================================================================== *)

(** ** Bytes *)

Lemma Z_of_byte_range (b : byte) : 0 <= Z_of_byte b < 256.
Proof.
  unfold Z_of_byte. pose proof (Byte.to_N_bounded b). lia.
Qed.

Lemma byte_of_Z_of_byte (b : byte) : byte_of_Z (Z_of_byte b) = b.
Proof.
  unfold byte_of_Z. pose proof (Z_of_byte_range b) as Hr.
  rewrite Z.mod_small by lia. unfold Z_of_byte.
  rewrite N2Z.id, Byte.of_to_N. reflexivity.
Qed.

Lemma Z_of_byte_of_Z (z : Z) : Z_of_byte (byte_of_Z z) = z mod 256.
Proof.
  unfold byte_of_Z, Z_of_byte.
  pose proof (Z.mod_pos_bound z 256 ltac:(lia)) as Hr.
  destruct (Byte.of_N (Z.to_N (z mod 256))) as [b|] eqn:E.
  - apply Byte.to_of_N in E. rewrite E. lia.
  - apply Byte.of_N_None_iff in E. lia.
Qed.

Lemma Z_of_byte_of_Z_small (z : Z) : 0 <= z < 256 -> Z_of_byte (byte_of_Z z) = z.
Proof. intros. rewrite Z_of_byte_of_Z. apply Z.mod_small. lia. Qed.

(** Induction three elements at a time. *)
Lemma list_ind3 {A} (P : list A -> Prop) :
  P [] -> (forall a, P [a]) -> (forall a b, P [a; b]) ->
  (forall a b c l, P l -> P (a :: b :: c :: l)) ->
  forall l, P l.
Proof.
  intros H0 H1 H2 H3.
  fix IH 1. intros [|a [|b [|c l]]].
  - exact H0.
  - exact (H1 a).
  - exact (H2 a b).
  - exact (H3 a b c l (IH l)).
Qed.

(** Case analysis on every integer comparison of the goal. *)
Ltac zcases :=
  repeat match goal with
    | |- context [?a <=? ?b] => destruct (Z.leb_spec a b)
    | |- context [?a <? ?b] => destruct (Z.ltb_spec a b)
    | |- context [?a =? ?b] => destruct (Z.eqb_spec a b)
    end; simpl; try lia; try reflexivity; try (f_equal; lia).

(** Linear arithmetic with division and remainder by constants. *)
Ltac dm := Z.div_mod_to_equations; lia.

(** ** Base64: [atob] inverts [btoa] *)

Section Base64Facts.
Import Base64.

Lemma b64index_b64char (i : Z) : sextet i -> b64index (b64char i) = Some i.
Proof. unfold sextet, b64index, b64char. intros Hi. zcases. Qed.

Lemma b64char_plain (i : Z) :
  sextet i -> ascii_whitespace (b64char i) = false /\ b64char i <> 61.
Proof.
  unfold sextet, b64char. intros Hi.
  destruct (Z.ltb_spec i 26), (Z.ltb_spec i 52), (Z.ltb_spec i 62), (Z.eqb_spec i 62);
    unfold ascii_whitespace; split; zcases.
Qed.

Lemma b64_groups_sextets (bytes : list Z) :
  Forall octet bytes -> Forall sextet (b64_groups bytes).
Proof.
  unfold octet, sextet.
  induction bytes as [|a|a b|a b c l IH] using list_ind3; intros H; simpl.
  - constructor.
  - inversion_clear H as [|? ? Ha _].
    repeat constructor; Z.div_mod_to_equations; lia.
  - inversion_clear H as [|? ? Ha H']. inversion_clear H' as [|? ? Hb _].
    repeat constructor; Z.div_mod_to_equations; lia.
  - inversion_clear H as [|? ? Ha H']. inversion_clear H' as [|? ? Hb H''].
    inversion_clear H'' as [|? ? Hc Hl].
    repeat (constructor; [Z.div_mod_to_equations; lia|]). auto.
Qed.

Lemma b64_decode_groups (bytes : list Z) :
  Forall octet bytes -> b64_decode (b64_groups bytes) = bytes.
Proof.
  unfold octet.
  induction bytes as [|a|a b|a b c l IH] using list_ind3; intros H; simpl.
  - reflexivity.
  - inversion_clear H as [|? ? Ha _].
    f_equal. Z.div_mod_to_equations; lia.
  - inversion_clear H as [|? ? Ha H']. inversion_clear H' as [|? ? Hb _].
    f_equal; [|f_equal]; Z.div_mod_to_equations; lia.
  - inversion_clear H as [|? ? Ha H']. inversion_clear H' as [|? ? Hb H''].
    inversion_clear H'' as [|? ? Hc Hl].
    rewrite (IH Hl).
    f_equal; [|f_equal; [|f_equal]]; Z.div_mod_to_equations; lia.
Qed.

Lemma b64_padding_shift (n : nat) : b64_padding (S (S (S n))) = b64_padding n.
Proof.
  unfold b64_padding. replace (S (S (S n))) with (n + 1 * 3)%nat by lia.
  now rewrite Nat.Div0.mod_add.
Qed.

Lemma b64_padding_cases (n : nat) :
  b64_padding n = [] \/ b64_padding n = [61] \/ b64_padding n = [61; 61].
Proof.
  unfold b64_padding.
  pose proof (Nat.mod_upper_bound n 3 ltac:(lia)) as Hn.
  destruct (n mod 3)%nat as [|[|[|k]]]; simpl; auto; lia.
Qed.

Lemma b64_lengths (bytes : list Z) :
  Z.of_nat (length (b64_groups bytes) + length (b64_padding (length bytes))) mod 4 = 0
  /\ Z.of_nat (length (b64_groups bytes)) mod 4 <> 1.
Proof.
  induction bytes as [|a|a b|a b c l IH] using list_ind3.
  - simpl. split; [reflexivity | discriminate].
  - simpl. split; [reflexivity | discriminate].
  - simpl. split; [reflexivity | discriminate].
  - change (length (a :: b :: c :: l)) with (S (S (S (length l)))).
    rewrite b64_padding_shift.
    change (b64_groups (a :: b :: c :: l)) with
      (a / 4 :: (a mod 4) * 16 + b / 16 :: (b mod 16) * 4 + c / 64 :: c mod 64
         :: b64_groups l).
    cbn [length]. destruct IH as [IH1 IH2]. split.
    + replace (Z.of_nat (S (S (S (S (length (b64_groups l)))))
                         + length (b64_padding (length l))))
        with (Z.of_nat (length (b64_groups l) + length (b64_padding (length l))) + 1 * 4)
        by lia.
      now rewrite Z.mod_add by lia.
    + replace (Z.of_nat (S (S (S (S (length (b64_groups l))))))) 
        with (Z.of_nat (length (b64_groups l)) + 1 * 4) by lia.
      now rewrite Z.mod_add by lia.
Qed.

Lemma strip_padding_app (core pad : list Z) :
  Forall (fun c => c <> 61) core ->
  pad = [] \/ pad = [61] \/ pad = [61; 61] ->
  strip_padding (core ++ pad) = core.
Proof.
  intros Hcore Hpad. unfold strip_padding.
  assert (Hhead : forall x r, rev core = x :: r -> (x =? 61) = false).
  { intros x r E. apply Z.eqb_neq.
    rewrite Forall_forall in Hcore. apply Hcore.
    apply list_elem_of_In, in_rev. rewrite E. now left. }
  destruct Hpad as [-> | [-> | ->]]; rewrite rev_app_distr; simpl.
  - rewrite app_nil_r. destruct (rev core) as [|x r] eqn:E; [reflexivity|].
    now rewrite (Hhead x r eq_refl).
  - destruct (rev core) as [|x r] eqn:E.
    + rewrite <- (rev_involutive core), E. reflexivity.
    + rewrite (Hhead x r eq_refl). rewrite <- E. apply rev_involutive.
  - apply rev_involutive.
Qed.

Lemma filter_all {A} (f : A -> bool) (l : list A) :
  Forall (fun x => f x = true) l -> List.filter f l = l.
Proof.
  induction 1 as [|x l Hx _ IH]; simpl; [reflexivity|].
  now rewrite Hx, IH.
Qed.

(** Decoding an encoding gives the octets back. *)
Lemma atob_b64_encode (bytes : list Z) :
  Forall octet bytes -> atob (b64_encode bytes) = Some bytes.
Proof.
  intros Hb. unfold atob, b64_encode.
  pose proof (b64_groups_sextets bytes Hb) as Hg.
  pose proof (b64_lengths bytes) as [Hlen Hcore].
  pose proof (b64_padding_cases (length bytes)) as Hpad.
  set (g := b64_groups bytes) in *. set (pad := b64_padding (length bytes)) in *.
  assert (Hplain : Forall (fun c => c <> 61) (map b64char g)).
  { apply Forall_map. eapply Forall_impl; [exact Hg|].
    intros i Hi. apply (b64char_plain i Hi). }
  rewrite filter_all.
  2:{ apply Forall_app. split.
      - apply Forall_map. eapply Forall_impl; [exact Hg|].
        intros i Hi. simpl. destruct (b64char_plain i Hi) as [-> _]. reflexivity.
      - destruct Hpad as [-> | [-> | ->]]; repeat constructor. }
  rewrite length_app, length_map, Hlen. simpl (0 =? 0).
  cbv iota. rewrite (strip_padding_app _ _ Hplain Hpad).
  rewrite length_map.
  destruct (Z.eqb_spec (Z.of_nat (length g) mod 4) 1) as [E|_]; [contradiction|].
  rewrite mapM_fmap_Forall_Some.
  2:{ eapply Forall_impl; [exact Hg|]. intros i Hi. now apply b64index_b64char. }
  simpl. f_equal. now apply b64_decode_groups.
Qed.

End Base64Facts.

(** ** UTF-8: [TextDecoder] inverts [TextEncoder] on well-formed strings *)

Section Utf8Facts.
Import Utf8.

Lemma lead_ascii (b : Z) : 0 <= b <= 0x7F -> lead_byte b = ([b], Idle).
Proof. intros. unfold lead_byte. zcases. Qed.

Lemma lead_two (b : Z) :
  0xC2 <= b <= 0xDF -> lead_byte b = ([], Pending (b mod 32) 1 0x80 0xBF).
Proof. intros. unfold lead_byte. zcases. Qed.

Lemma lead_three (b : Z) :
  0xE0 <= b <= 0xEF ->
  lead_byte b = ([], Pending (b mod 16) 2 (if b =? 0xE0 then 0xA0 else 0x80)
                                          (if b =? 0xED then 0x9F else 0xBF)).
Proof.
  intros. unfold lead_byte.
  destruct (Z.leb_spec b 0x7F); [lia|].
  destruct (Z.leb_spec 0xC2 b), (Z.leb_spec b 0xDF); simpl; try lia;
  destruct (Z.leb_spec 0xE0 b), (Z.leb_spec b 0xEF); simpl; try lia; reflexivity.
Qed.

Lemma lead_four (b : Z) :
  0xF0 <= b <= 0xF4 ->
  lead_byte b = ([], Pending (b mod 8) 3 (if b =? 0xF0 then 0x90 else 0x80)
                                         (if b =? 0xF4 then 0x8F else 0xBF)).
Proof.
  intros. unfold lead_byte.
  destruct (Z.leb_spec b 0x7F); [lia|].
  destruct (Z.leb_spec 0xC2 b), (Z.leb_spec b 0xDF); simpl; try lia;
  destruct (Z.leb_spec 0xE0 b), (Z.leb_spec b 0xEF); simpl; try lia;
  destruct (Z.leb_spec 0xF0 b), (Z.leb_spec b 0xF4); simpl; try lia; reflexivity.
Qed.

Lemma decode_idle (b0 : byte) (rest : list byte) :
  utf8_decode Idle (b0 :: rest)
  = (lead_byte (Z_of_byte b0)).1 ++ utf8_decode (lead_byte (Z_of_byte b0)).2 rest.
Proof. reflexivity. Qed.

Lemma decode_last (cp lo hi : Z) (b0 : byte) (rest : list byte) :
  lo <= Z_of_byte b0 <= hi ->
  utf8_decode (Pending cp 1 lo hi) (b0 :: rest)
  = cp * 64 + Z_of_byte b0 mod 64 :: utf8_decode Idle rest.
Proof.
  intros [H1 H2]. cbn [utf8_decode].
  apply Z.leb_le in H1, H2. now rewrite H1, H2.
Qed.

Lemma decode_more (cp lo hi : Z) (n : nat) (b0 : byte) (rest : list byte) :
  lo <= Z_of_byte b0 <= hi ->
  utf8_decode (Pending cp (S (S n)) lo hi) (b0 :: rest)
  = utf8_decode (Pending (cp * 64 + Z_of_byte b0 mod 64) (S n) 0x80 0xBF) rest.
Proof.
  intros [H1 H2]. cbn [utf8_decode].
  apply Z.leb_le in H1, H2. now rewrite H1, H2.
Qed.

(** One encoded scalar value is decoded to itself, whatever follows. *)
Lemma utf8_decode_encode_cp (cp : Z) (rest : list byte) :
  scalar cp ->
  utf8_decode Idle (utf8_encode_cp cp ++ rest) = cp :: utf8_decode Idle rest.
Proof.
  unfold scalar, utf8_encode_cp. intros Hcp.
  destruct (Z.ltb_spec cp 0x80) as [H1|H1];
    [|destruct (Z.ltb_spec cp 0x800) as [H2|H2];
      [|destruct (Z.ltb_spec cp 0x10000) as [H3|H3]]]; cbn [app].
  - rewrite decode_idle, Z_of_byte_of_Z_small by lia.
    now rewrite lead_ascii by lia.
  - rewrite decode_idle, Z_of_byte_of_Z_small by dm.
    rewrite lead_two by dm. cbn [fst snd app].
    rewrite decode_last by (rewrite Z_of_byte_of_Z_small by dm; dm).
    rewrite Z_of_byte_of_Z_small by dm. f_equal. dm.
  - rewrite decode_idle, Z_of_byte_of_Z_small by dm.
    rewrite lead_three by dm. cbn [fst snd app].
    rewrite decode_more.
    2:{ rewrite Z_of_byte_of_Z_small by dm.
        destruct (Z.eqb_spec (224 + cp / 4096) 224), (Z.eqb_spec (224 + cp / 4096) 237); dm. }
    rewrite decode_last by (rewrite Z_of_byte_of_Z_small by dm; dm).
    rewrite !Z_of_byte_of_Z_small by dm. f_equal. dm.
  - rewrite decode_idle, Z_of_byte_of_Z_small by dm.
    rewrite lead_four by dm. cbn [fst snd app].
    rewrite decode_more.
    2:{ rewrite Z_of_byte_of_Z_small by dm.
        destruct (Z.eqb_spec (240 + cp / 262144) 240), (Z.eqb_spec (240 + cp / 262144) 244); dm. }
    rewrite decode_more by (rewrite Z_of_byte_of_Z_small by dm; dm).
    rewrite decode_last by (rewrite Z_of_byte_of_Z_small by dm; dm).
    rewrite !Z_of_byte_of_Z_small by dm. f_equal. dm.
Qed.

Lemma utf8_decode_encode (cps : list Z) :
  Forall scalar cps -> utf8_decode Idle (flat_map utf8_encode_cp cps) = cps.
Proof.
  induction 1 as [|cp cps Hcp _ IH]; [reflexivity|].
  cbn [flat_map]. rewrite utf8_decode_encode_cp by assumption. now rewrite IH.
Qed.

(** The encoding of a scalar value other than U+FEFF does not start with
    the byte-order mark. *)
Lemma strip_bom_encode_cp (cp : Z) (rest : list byte) :
  scalar cp -> cp <> 0xFEFF ->
  strip_bom (utf8_encode_cp cp ++ rest) = utf8_encode_cp cp ++ rest.
Proof.
  unfold scalar, utf8_encode_cp. intros Hcp Hne.
  destruct (Z.ltb_spec cp 0x80) as [H1|H1];
    [|destruct (Z.ltb_spec cp 0x800) as [H2|H2];
      [|destruct (Z.ltb_spec cp 0x10000) as [H3|H3]]]; cbn [app].
  - destruct rest as [|b2 [|b3 rest]]; try reflexivity. unfold strip_bom.
    rewrite Z_of_byte_of_Z_small by lia.
    destruct (Z.eqb_spec cp 239); [lia | reflexivity].
  - destruct rest as [|b3 rest]; try reflexivity. unfold strip_bom.
    rewrite Z_of_byte_of_Z_small by dm.
    destruct (Z.eqb_spec (192 + cp / 64) 239); [dm | reflexivity].
  - unfold strip_bom. rewrite !Z_of_byte_of_Z_small by dm.
    destruct (Z.eqb_spec (224 + cp / 4096) 239); [|reflexivity].
    destruct (Z.eqb_spec (128 + cp / 64 mod 64) 187); [|reflexivity].
    destruct (Z.eqb_spec (128 + cp mod 64) 191); [|reflexivity].
    exfalso. dm.
  - unfold strip_bom. rewrite Z_of_byte_of_Z_small by dm.
    destruct (Z.eqb_spec (240 + cp / 262144) 239); [dm | reflexivity].
Qed.

(** On a well-formed string the conversion to scalar values loses
    nothing. *)
Lemma code_points_well_formed (n : nat) : forall s : jsstring,
  (length s <= n)%nat -> well_formed s = true ->
  Forall scalar (code_points s) /\ flat_map utf16_units (code_points s) = s.
Proof.
  induction n as [|n IH]; intros s Hlen Hwf.
  { destruct s; [split; [constructor | reflexivity] | simpl in Hlen; lia]. }
  destruct s as [|c rest]; [split; [constructor | reflexivity]|].
  cbn [well_formed code_points] in *. unfold is_high, is_low in *.
  destruct (Z.leb_spec 0xD800 c) as [Hh1|Hh1], (Z.leb_spec c 0xDBFF) as [Hh2|Hh2];
    cbn [andb] in *.
  - (* a high surrogate: it must be followed by a low one *)
    destruct rest as [|d rest']; [discriminate|].
    destruct (Z.leb_spec 0xDC00 d) as [Hl1|Hl1], (Z.leb_spec d 0xDFFF) as [Hl2|Hl2];
      cbn [andb] in *; try discriminate.
    destruct (IH rest') as [IH1 IH2]; [simpl in Hlen; lia | assumption |].
    split.
    + constructor; [unfold scalar; lia | assumption].
    + cbn [flat_map]. rewrite IH2. unfold utf16_units.
      destruct (Z.ltb_spec (65536 + (c - 55296) * 1024 + (d - 56320)) 65536); [lia|].
      cbn [app]. f_equal; [dm | f_equal; dm].
  - (* above the high surrogates *)
    destruct (Z.leb_spec 0xDC00 c) as [Hl1|Hl1], (Z.leb_spec c 0xDFFF) as [Hl2|Hl2];
      cbn [andb negb] in *; try discriminate; try lia.
    + destruct (Z.leb_spec 0 c), (Z.ltb_spec c 65536); cbn [andb] in *;
        try discriminate.
      destruct (IH rest) as [IH1 IH2]; [simpl in Hlen; lia | assumption |].
      split; [constructor; [unfold scalar; lia | assumption]|].
      cbn [flat_map]. rewrite IH2. unfold utf16_units.
      destruct (Z.ltb_spec c 65536); [reflexivity | lia].
  - (* below the surrogates *)
    destruct (Z.leb_spec 0xDC00 c) as [Hl1|Hl1]; [lia|]. cbn [andb negb] in *.
    destruct (Z.leb_spec 0 c), (Z.ltb_spec c 65536); cbn [andb] in *;
      try discriminate.
    destruct (IH rest) as [IH1 IH2]; [simpl in Hlen; lia | assumption |].
    split; [constructor; [unfold scalar; lia | assumption]|].
    cbn [flat_map]. rewrite IH2. unfold utf16_units.
    destruct (Z.ltb_spec c 65536); [reflexivity | lia].
  - lia.
Qed.

(** The first scalar value of a well-formed string that does not start
    with U+FEFF is not U+FEFF. *)
Lemma code_points_head (s : jsstring) :
  head s <> Some 0xFEFF -> head (code_points s) <> Some 0xFEFF.
Proof.
  destruct s as [|c rest]; [easy|]. cbn [head code_points]. intros Hc.
  unfold is_high, is_low.
  destruct (Z.leb_spec 0xD800 c), (Z.leb_spec c 0xDBFF); cbn [andb].
  - destruct rest as [|d rest']; [cbn; congruence|].
    destruct (Z.leb_spec 0xDC00 d), (Z.leb_spec d 0xDFFF); cbn; intros [= E]; lia.
  - destruct (Z.leb_spec 0xDC00 c), (Z.leb_spec c 0xDFFF); cbn; congruence.
  - destruct (Z.leb_spec 0xDC00 c), (Z.leb_spec c 0xDFFF); cbn; congruence.
  - lia.
Qed.

(** [decode(encode(s)) = s] for a well-formed [s] that does not begin
    with U+FEFF. *)
Lemma TextDecoder_TextEncoder (s : jsstring) :
  well_formed s = true -> head s <> Some 0xFEFF ->
  TextDecoder_decode (TextEncoder_encode s) = s.
Proof.
  intros Hwf Hbom. unfold TextDecoder_decode, TextEncoder_encode.
  destruct (code_points_well_formed (length s) s (le_n _) Hwf) as [Hsc Hrt].
  pose proof (code_points_head s Hbom) as Hhd.
  assert (Hstrip : strip_bom (flat_map utf8_encode_cp (code_points s))
                   = flat_map utf8_encode_cp (code_points s)).
  { destruct (code_points s) as [|cp cps]; [reflexivity|].
    cbn [flat_map]. inversion_clear Hsc as [|? ? Hcp _].
    apply strip_bom_encode_cp; [assumption|]. cbn in Hhd. congruence. }
  rewrite Hstrip, utf8_decode_encode by assumption. exact Hrt.
Qed.

End Utf8Facts.

(** ** CryptoEngine: encoding helpers *)

Section EncodingFacts.
Import CryptoEngine.

Lemma bufferToBase64_returns (buffer : list byte) :
  bufferToBase64 buffer = Returned (Base64.b64_encode (map Z_of_byte buffer)).
Proof.
  unfold bufferToBase64, Base64.btoa.
  assert (Hbin : map (fun b => fromCharCode (Z_of_byte b)) buffer = map Z_of_byte buffer).
  { apply map_ext. intros b. unfold fromCharCode.
    pose proof (Z_of_byte_range b). apply Z.mod_small. lia. }
  rewrite Hbin.
  assert (Hall : forallb (fun c => (0 <=? c) && (c <=? 255)) (map Z_of_byte buffer) = true).
  { apply forallb_forall. intros c Hc. apply in_map_iff in Hc as [b [<- _]].
    pose proof (Z_of_byte_range b). apply andb_true_intro. split; apply Z.leb_le; lia. }
  now rewrite Hall.
Qed.

Lemma base64ToBuffer_b64_encode (buffer : list byte) :
  base64ToBuffer (Base64.b64_encode (map Z_of_byte buffer)) = Returned buffer.
Proof.
  unfold base64ToBuffer. rewrite atob_b64_encode.
  - f_equal. rewrite map_map. rewrite <- (map_id buffer) at 2.
    apply map_ext. intros b. apply byte_of_Z_of_byte.
  - apply Forall_map, Forall_forall. intros b _. apply Z_of_byte_range.
Qed.

Lemma b64_encode_truthy (bytes : list Z) :
  bytes <> [] -> truthy (Base64.b64_encode bytes) = true.
Proof.
  unfold Base64.b64_encode.
  destruct bytes as [|a [|b [|c l]]]; [congruence | reflexivity..].
Qed.

Lemma truthy_nonempty (s : jsstring) : s <> [] -> truthy s = true.
Proof. destruct s; [congruence | reflexivity]. Qed.

Lemma length_getRandomBytes (rnd : entropy) (n : nat) :
  length (getRandomBytes rnd n) = n.
Proof. unfold getRandomBytes. now rewrite length_map, length_seq. Qed.

End EncodingFacts.

(** ** CryptoEngine: encrypt, decrypt, gibberish *)

Section EngineFacts.
Import CryptoEngine.
Context {W : WebCrypto}.

(** [encrypt] returns as soon as its arguments are non-empty and the salt
    is base-64. *)
Lemma encrypt_returns (plaintext passkey saltBase64 : jsstring) (rnd : entropy) :
  plaintext <> [] -> passkey <> [] -> saltBase64 <> [] ->
  is_Some (Base64.atob saltBase64) ->
  returns (encrypt plaintext passkey saltBase64 rnd).
Proof.
  intros Hp Hk Hs [bin Hbin]. unfold encrypt, returns.
  rewrite !truthy_nonempty by assumption. cbn [negb orb].
  unfold base64ToBuffer at 1. rewrite Hbin. cbn [obind].
  rewrite !bufferToBase64_returns. cbn [obind]. eauto.
Qed.

(** What [decrypt] makes of the output of [encrypt], for any plaintext:
    the UTF-8 decoding of its UTF-8 encoding. *)
Lemma decrypt_encrypt `{!WebCryptoSpec W}
    (plaintext passkey saltBase64 : jsstring) (rnd : entropy) (r : EncryptResult) :
  passkey <> [] -> saltBase64 <> [] ->
  encrypt plaintext passkey saltBase64 rnd = Returned r ->
  decrypt (ciphertext r) (iv r) passkey saltBase64
  = Returned {| text := decode (encode plaintext); success := true |}.
Proof.
  intros Hk Hs. unfold encrypt.
  destruct (negb (truthy plaintext) || negb (truthy passkey) || negb (truthy saltBase64));
    [discriminate|].
  destruct (base64ToBuffer saltBase64) as [salt|e] eqn:Hsalt; [|discriminate].
  cbn [obind]. rewrite !bufferToBase64_returns. cbn [obind].
  set (key := deriveKey passkey salt).
  set (ivb := getRandomBytes rnd CONFIG.IV_LENGTH).
  set (ct := aes_gcm_encrypt key ivb (encode plaintext)).
  intros Hr.
  assert (Er : r = {| ciphertext := Base64.b64_encode (map Z_of_byte ct);
                      iv := Base64.b64_encode (map Z_of_byte ivb) |}) by congruence.
  subst r. clear Hr. cbn [ciphertext iv].
  unfold decrypt.
  assert (Hct : ct <> []).
  { intros E. pose proof (aes_gcm_tag key ivb (encode plaintext)) as Hlen.
    fold ct in Hlen. rewrite E in Hlen. simpl in Hlen. lia. }
  assert (Hiv : ivb <> []).
  { intros E. pose proof (length_getRandomBytes rnd CONFIG.IV_LENGTH) as Hlen.
    fold ivb in Hlen. rewrite E in Hlen. discriminate. }
  rewrite (b64_encode_truthy (map Z_of_byte ct)) by (destruct ct; [congruence | discriminate]).
  rewrite (b64_encode_truthy (map Z_of_byte ivb)) by (destruct ivb; [congruence | discriminate]).
  rewrite !truthy_nonempty by assumption. cbn [negb orb].
  rewrite Hsalt. cbn [obind]. rewrite !base64ToBuffer_b64_encode. cbn [obind].
  fold key. unfold ct at 1.
  rewrite aes_gcm_correct by apply length_getRandomBytes.
  reflexivity.
Qed.

(** With all four arguments present, [decrypt] either succeeds with a
    decoded text or ends in its [catch] block. *)
Lemma decrypt_present (ciphertextB64 ivB64 passkey saltBase64 : jsstring) :
  ciphertextB64 <> [] -> ivB64 <> [] -> passkey <> [] -> saltBase64 <> [] ->
  (exists plain,
     decrypt ciphertextB64 ivB64 passkey saltBase64
     = Returned {| text := decode plain; success := true |})
  \/ decrypt ciphertextB64 ivB64 passkey saltBase64
     = (let! g := generateGibberish ciphertextB64 in
        Returned {| text := g; success := false |}).
Proof.
  intros Hc Hi Hk Hs. unfold decrypt.
  rewrite !truthy_nonempty by assumption. cbn [negb orb].
  destruct (base64ToBuffer saltBase64) as [salt|]; cbn [obind try_catch]; [|now right].
  destruct (base64ToBuffer ivB64) as [ivb|]; cbn [obind try_catch]; [|now right].
  destruct (base64ToBuffer ciphertextB64) as [ct|] eqn:Hct; cbn [obind try_catch].
  2:{ right. unfold generateGibberish. now rewrite Hct. }
  destruct (aes_gcm_decrypt _ ivb ct) as [plain|]; cbn [obind try_catch].
  - left. eauto.
  - now right.
Qed.

(** With an argument missing, [decrypt] returns the fixed notice. *)
Lemma decrypt_missing (ciphertextB64 ivB64 passkey saltBase64 : jsstring) :
  ciphertextB64 = [] \/ ivB64 = [] \/ passkey = [] \/ saltBase64 = [] ->
  decrypt ciphertextB64 ivB64 passkey saltBase64
  = Returned {| text := missing_text; success := false |}.
Proof.
  unfold decrypt. intros [-> | [-> | [-> | ->]]]; cbn [truthy negb orb];
    rewrite ?orb_true_r; reflexivity.
Qed.

Lemma gibberish_of_bytes_nonempty (bytes : list byte) :
  gibberish_of_bytes bytes <> [].
Proof.
  unfold gibberish_of_bytes.
  destruct (gibberish_loop 0 _ []) as [|c out]; cbn [truthy]; discriminate.
Qed.

End EngineFacts.

(** The reference primitives meet the specification. *)
#[global] Instance toy_spec : WebCryptoSpec ToyCrypto.toy.
Proof.
  assert (Htag : forall k, length (ToyCrypto.toy_tag k) = 16%nat).
  { intros k. unfold ToyCrypto.toy_tag.
    rewrite length_take, length_app, repeat_length. lia. }
  split.
  - intros k ivb pt _. cbn. unfold ToyCrypto.toy_decrypt.
    rewrite length_app, Htag.
    replace (length pt + 16 - 16)%nat with (length pt) by lia.
    rewrite drop_app_length, take_app_length.
    rewrite bool_decide_eq_true_2 by lia. cbn [andb].
    assert (Hsame : forall l : list byte,
               forallb (fun p => Z_of_byte p.1 =? Z_of_byte p.2) (zip l l) = true).
    { induction l as [|b l IH]; [reflexivity|]. cbn. now rewrite Z.eqb_refl, IH. }
    now rewrite Hsame.
  - intros k ivb pt. cbn. now rewrite length_app, Htag.
Qed.

(** ** C1: encrypt, then decrypt *)

Section Roundtrip.
Import CryptoEngine.

(** C1 (amended).  For every non-empty plaintext that is well-formed UTF-16
    and does not begin with U+FEFF, every non-empty passphrase and every
    non-empty salt that is valid base-64, [encrypt] returns a ciphertext and
    an iv, and [decrypt] of these with the same passphrase and salt returns
    the plaintext with the success flag true.  The platform's AES-GCM is
    assumed to decrypt what it encrypted. *)
Theorem encrypt_decrypt_roundtrip `{W : WebCrypto} `{!WebCryptoSpec W}
    (plaintext passkey saltBase64 : jsstring) (rnd : entropy) :
  plaintext <> [] -> passkey <> [] -> saltBase64 <> [] ->
  Utf8.well_formed plaintext = true ->
  head plaintext <> Some 0xFEFF ->
  is_Some (Base64.atob saltBase64) ->
  exists r,
    encrypt plaintext passkey saltBase64 rnd = Returned r
    /\ decrypt (ciphertext r) (iv r) passkey saltBase64
       = Returned {| text := plaintext; success := true |}.
Proof.
  intros Hp Hk Hs Hwf Hbom Hsalt.
  destruct (encrypt_returns plaintext passkey saltBase64 rnd Hp Hk Hs Hsalt) as [r Hr].
  exists r. split; [exact Hr|].
  rewrite (decrypt_encrypt plaintext passkey saltBase64 rnd r Hk Hs Hr).
  unfold decode, encode. now rewrite TextDecoder_TextEncoder.
Qed.

Lemma encrypt_decrypt_roundtrip_witness :
  exists r,
    encrypt (W := ToyCrypto.toy) (js "hello") (js "p1") (js "s1") (fun _ => Byte.x2a)
    = Returned r
    /\ decrypt (W := ToyCrypto.toy) (ciphertext r) (iv r) (js "p1") (js "s1")
       = Returned {| text := js "hello"; success := true |}.
Proof.
  apply (encrypt_decrypt_roundtrip (W := ToyCrypto.toy)).
  - discriminate.
  - discriminate.
  - discriminate.
  - reflexivity.
  - discriminate.
  - eexists. reflexivity.
Defined.

(** C1 as stated fails.  With the passphrase "p1" and the salt "s1": a
    plaintext that is an unpaired surrogate comes back as U+FFFD, and a
    plaintext that begins with U+FEFF comes back without it, both with the
    success flag true; and with the non-empty salt "!" [encrypt] throws. *)
Lemma encrypt_decrypt_not_identity :
  let rnd : entropy := fun _ => Byte.x2a in
  let run (plaintext : jsstring) :=
    let! r := encrypt (W := ToyCrypto.toy) plaintext (js "p1") (js "s1") rnd in
    decrypt (W := ToyCrypto.toy) (ciphertext r) (iv r) (js "p1") (js "s1") in
  run [0xD800] = Returned {| text := [0xFFFD]; success := true |}
  /\ run (0xFEFF :: js "hi") = Returned {| text := js "hi"; success := true |}
  /\ encrypt (W := ToyCrypto.toy) (js "hello") (js "p1") (js "!") rnd
     = Thrown InvalidCharacterError.
Proof. repeat split; vm_compute; reflexivity. Qed.

End Roundtrip.

(** Whatever the platform's cipher, an unpaired surrogate or a leading
    U+FEFF does not survive the round trip. *)
Lemma decrypt_encrypt_replaces `{W : WebCrypto} `{!WebCryptoSpec W}
    (passkey saltBase64 : jsstring) (rnd : entropy) (r : CryptoEngine.EncryptResult) :
  passkey <> [] -> saltBase64 <> [] ->
  (CryptoEngine.encrypt [0xD800] passkey saltBase64 rnd = Returned r ->
   CryptoEngine.decrypt (CryptoEngine.ciphertext r) (CryptoEngine.iv r) passkey saltBase64
   = Returned {| CryptoEngine.text := [0xFFFD]; CryptoEngine.success := true |})
  /\ (CryptoEngine.encrypt (0xFEFF :: js "hi") passkey saltBase64 rnd = Returned r ->
      CryptoEngine.decrypt (CryptoEngine.ciphertext r) (CryptoEngine.iv r) passkey saltBase64
      = Returned {| CryptoEngine.text := js "hi"; CryptoEngine.success := true |}).
Proof.
  intros Hk Hs. split; intros Hr;
    rewrite (decrypt_encrypt _ passkey saltBase64 rnd r Hk Hs Hr); reflexivity.
Qed.

(** ** C2 and C7: what [decrypt] does when it fails *)

Section DecryptFailure.
Import CryptoEngine.

(** C2 (the code departs from it).  [decrypt] is documented never to throw,
    yet for a ciphertext that is not base-64 the [catch] block calls
    [generateGibberish], which decodes the same string again and throws. *)
Theorem decrypt_throws_on_malformed_ciphertext `{W : WebCrypto} :
  decrypt (js "!") (js "AAAA") (js "p1") (js "s1") = Thrown InvalidCharacterError.
Proof. reflexivity. Qed.

(** The same happens for every ciphertext that [atob] rejects, as soon as
    the four arguments are present. *)
Lemma decrypt_throws_when_not_base64 `{W : WebCrypto}
    (ciphertextB64 ivB64 passkey saltBase64 : jsstring) :
  ivB64 <> [] -> passkey <> [] -> saltBase64 <> [] ->
  Base64.atob ciphertextB64 = None ->
  decrypt ciphertextB64 ivB64 passkey saltBase64 = Thrown InvalidCharacterError.
Proof.
  intros Hi Hk Hs Hbad.
  assert (Hc : ciphertextB64 <> []) by (intros ->; discriminate Hbad).
  assert (Hbuf : base64ToBuffer ciphertextB64 = Thrown InvalidCharacterError)
    by (unfold base64ToBuffer; now rewrite Hbad).
  destruct (decrypt_present ciphertextB64 ivB64 passkey saltBase64 Hc Hi Hk Hs)
    as [[plain E] | E]; [|rewrite E; unfold generateGibberish; now rewrite Hbuf].
  exfalso. revert E. unfold decrypt.
  rewrite !truthy_nonempty by assumption. cbn [negb orb].
  destruct (base64ToBuffer saltBase64) as [salt|]; cbn [obind try_catch];
    [|unfold generateGibberish; rewrite Hbuf; discriminate].
  destruct (base64ToBuffer ivB64) as [ivb|]; cbn [obind try_catch];
    unfold generateGibberish; rewrite Hbuf; discriminate.
Qed.

(** For a ciphertext that [atob] accepts, [decrypt] returns, and a failure
    carries a non-empty text. *)
Lemma decrypt_returns_on_base64 `{W : WebCrypto}
    (ciphertextB64 ivB64 passkey saltBase64 : jsstring) :
  is_Some (Base64.atob ciphertextB64) ->
  exists r,
    decrypt ciphertextB64 ivB64 passkey saltBase64 = Returned r
    /\ (success r = false -> text r <> []).
Proof.
  intros [bin Hbin].
  assert (Hg : generateGibberish ciphertextB64
               = Returned (gibberish_of_bytes (map byte_of_Z bin))).
  { unfold generateGibberish, base64ToBuffer. now rewrite Hbin. }
  destruct ciphertextB64 as [|c0 cs] eqn:Ec;
    [|destruct ivB64 as [|i0 itl] eqn:Ei;
      [|destruct passkey as [|p0 ps] eqn:Ep;
        [|destruct saltBase64 as [|s0 ss] eqn:Es]]];
    try (rewrite decrypt_missing by auto; eexists; split; [reflexivity|];
         intros _; discriminate).
  destruct (decrypt_present (c0 :: cs) (i0 :: itl) (p0 :: ps) (s0 :: ss))
    as [[plain ->] | ->]; try discriminate.
  - eexists. split; [reflexivity|]. discriminate.
  - rewrite Hg. cbn [obind]. eexists. split; [reflexivity|].
    intros _. apply gibberish_of_bytes_nonempty.
Qed.

(** C7 (amended).  For a fixed ciphertext and any two calls of [decrypt]
    in which iv, passphrase and salt are all non-empty and which fail,
    both calls return the same placeholder text; for a non-empty
    ciphertext it is the gibberish generated from the ciphertext alone. *)
Theorem decrypt_failure_text_of_ciphertext `{W : WebCrypto}
    (ciphertextB64 iv1 passkey1 salt1 iv2 passkey2 salt2 : jsstring)
    (r1 r2 : DecryptResult) :
  iv1 <> [] -> passkey1 <> [] -> salt1 <> [] ->
  iv2 <> [] -> passkey2 <> [] -> salt2 <> [] ->
  decrypt ciphertextB64 iv1 passkey1 salt1 = Returned r1 -> success r1 = false ->
  decrypt ciphertextB64 iv2 passkey2 salt2 = Returned r2 -> success r2 = false ->
  text r1 = text r2
  /\ (ciphertextB64 <> [] -> generateGibberish ciphertextB64 = Returned (text r1)).
Proof.
  intros Hi1 Hk1 Hs1 Hi2 Hk2 Hs2 H1 F1 H2 F2.
  destruct ciphertextB64 as [|c0 cs].
  { rewrite decrypt_missing in H1, H2 by auto.
    injection H1 as <-. injection H2 as <-. split; [reflexivity | congruence]. }
  assert (Hc : c0 :: cs <> []) by discriminate.
  destruct (decrypt_present (c0 :: cs) iv1 passkey1 salt1 Hc Hi1 Hk1 Hs1)
    as [[plain1 E1] | E1]; rewrite E1 in H1.
  { injection H1 as <-. discriminate. }
  destruct (decrypt_present (c0 :: cs) iv2 passkey2 salt2 Hc Hi2 Hk2 Hs2)
    as [[plain2 E2] | E2]; rewrite E2 in H2.
  { injection H2 as <-. discriminate. }
  destruct (generateGibberish (c0 :: cs)) as [g|e]; cbn [obind] in H1, H2;
    [|discriminate].
  injection H1 as <-. injection H2 as <-. split; [reflexivity|].
  intros _. reflexivity.
Qed.

Lemma decrypt_failure_text_of_ciphertext_witness :
  generateGibberish (js "AAAA") = Returned [0x0E00; 0x0E00; 0x0E00].
Proof.
  refine (proj2 (decrypt_failure_text_of_ciphertext (W := ToyCrypto.toy)
                   (js "AAAA") (js "AAAA") (js "wrong") (js "s1")
                   (js "AAAAAAAA") (js "also wrong") (js "c2FsdA==")
                   {| text := [0x0E00; 0x0E00; 0x0E00]; success := false |}
                   {| text := [0x0E00; 0x0E00; 0x0E00]; success := false |}
                   _ _ _ _ _ _ _ _ _ _) _);
    try discriminate; reflexivity.
Defined.

(** C7 as stated fails.  For the ciphertext "AAAA" the wrong passphrase
    "wrong" gets the gibberish of the ciphertext, while the empty
    passphrase (wrong too), an empty iv or an empty salt gets the fixed
    notice of the guard. *)
Lemma decrypt_failure_text_depends_on_passphrase :
  let notice := Returned {| text := missing_text; success := false |} in
  decrypt (W := ToyCrypto.toy) (js "AAAA") (js "AAAA") (js "wrong") (js "s1")
  = Returned {| text := [0x0E00; 0x0E00; 0x0E00]; success := false |}
  /\ decrypt (W := ToyCrypto.toy) (js "AAAA") (js "AAAA") [] (js "s1") = notice
  /\ decrypt (W := ToyCrypto.toy) (js "AAAA") [] (js "wrong") (js "s1") = notice
  /\ decrypt (W := ToyCrypto.toy) (js "AAAA") (js "AAAA") (js "wrong") [] = notice
  /\ missing_text <> [0x0E00; 0x0E00; 0x0E00].
Proof.
  cbn zeta. split; [|split; [|split; [|split]]].
  - vm_compute. reflexivity.
  - vm_compute. reflexivity.
  - vm_compute. reflexivity.
  - vm_compute. reflexivity.
  - discriminate.
Qed.

End DecryptFailure.

(** ** C9: the strength meter *)

Section Strength.
Import CryptoEngine.

(** C9.  For every string [measureStrength] returns a score between 0 and
    4, and for a non-empty string the label and the colour are those of
    one of the five levels (the index into [levels] is never out of
    bounds). *)
Theorem measureStrength_in_range (passkey : jsstring) :
  0 <= score (measureStrength passkey) <= 4
  /\ (passkey <> [] ->
      exists lv, lv ∈ levels
                 /\ label (measureStrength passkey) = Some lv.1
                 /\ color (measureStrength passkey) = Some lv.2).
Proof.
  unfold measureStrength. destruct passkey as [|c s].
  { cbn. split; [lia | congruence]. }
  cbn [truthy negb].
  set (n := Z.max 0 (Z.min 4 _)). cbn [score label color].
  assert (Hn : 0 <= n <= 4) by (unfold n; lia).
  clearbody n. split; [exact Hn|]. intros _.
  assert (Hcases : n = 0 \/ n = 1 \/ n = 2 \/ n = 3 \/ n = 4) by lia.
  unfold levels.
  destruct Hcases as [E | [E | [E | [E | E]]]]; rewrite E; cbn;
    eexists; (split; [|split; reflexivity]);
    apply list_elem_of_In; simpl; auto 10.
Qed.

Lemma measureStrength_in_range_witness :
  exists lv, lv ∈ levels
             /\ label (measureStrength (js "aaa")) = Some lv.1
             /\ color (measureStrength (js "aaa")) = Some lv.2.
Proof.
  apply (measureStrength_in_range (js "aaa")). discriminate.
Defined.

End Strength.

(** ** C3: the lockout boundary *)

Section Lockout.
Import CryptoEngine.

Lemma recordFailedAttempt_counter (t : Z) (conv : string) (attempts : gmap string Attempt) :
  counter conv (recordFailedAttempt t conv attempts).2 = counter conv attempts + 1.
Proof.
  unfold counter, recordFailedAttempt. cbn [snd]. rewrite lookup_insert_eq.
  destruct (attempts !! conv) as [a|]; cbn [default from_option count];
    destruct (_ <=? _); reflexivity.
Qed.

Lemma record_all_counter (conv : string) (times : list Z) (attempts : gmap string Attempt) :
  counter conv (record_all conv times attempts)
  = counter conv attempts + Z.of_nat (length times).
Proof.
  revert attempts. induction times as [|t times IH]; intros attempts.
  - cbn. lia.
  - change (record_all conv (t :: times) attempts)
      with (record_all conv times (recordFailedAttempt t conv attempts).2).
    rewrite IH, recordFailedAttempt_counter. cbn [length]. lia.
Qed.

Lemma record_all_snoc (conv : string) (times : list Z) (t : Z) (attempts : gmap string Attempt) :
  record_all conv (times ++ [t]) attempts
  = (recordFailedAttempt t conv (record_all conv times attempts)).2.
Proof. unfold record_all. now rewrite foldl_app. Qed.

(** Below the threshold nobody is locked out and nothing changes. *)
Lemma isLockedOut_below (now : Z) (conv : string) (attempts : gmap string Attempt) :
  counter conv attempts < CONFIG.PASSKEY_LOCKOUT_ATTEMPTS ->
  isLockedOut now conv attempts = (false, attempts).
Proof.
  unfold counter, isLockedOut. destruct (attempts !! conv) as [a|]; [|reflexivity].
  cbn [from_option]. intros H. apply Z.ltb_lt in H. now rewrite H.
Qed.

(** After a call that reaches the threshold the entry carries the stamp
    of that call. *)
Lemma recordFailedAttempt_stamp (t : Z) (conv : string) (attempts : gmap string Attempt) :
  CONFIG.PASSKEY_LOCKOUT_ATTEMPTS <= counter conv attempts + 1 ->
  (recordFailedAttempt t conv attempts).2 !! conv
  = Some {| count := counter conv attempts + 1;
            lockedUntil := Some (t + CONFIG.PASSKEY_LOCKOUT_DURATION_MS) |}.
Proof.
  unfold counter, recordFailedAttempt. cbn [snd]. rewrite lookup_insert_eq.
  intros H. destruct (attempts !! conv) as [a|]; cbn [default from_option count id] in *;
    apply Z.leb_le in H; now rewrite H.
Qed.

(** At or above the threshold the answer depends on the clock alone. *)
Lemma isLockedOut_at_threshold (now : Z) (conv : string)
    (attempts : gmap string Attempt) (c stamp : Z) :
  attempts !! conv = Some {| count := c; lockedUntil := Some stamp |} ->
  CONFIG.PASSKEY_LOCKOUT_ATTEMPTS <= c ->
  isLockedOut now conv attempts
  = if stamp <? now then (false, delete conv attempts) else (true, attempts).
Proof.
  intros Hentry Hc. unfold isLockedOut. rewrite Hentry. cbn [count].
  destruct (Z.ltb_spec c CONFIG.PASSKEY_LOCKOUT_ATTEMPTS); [lia|].
  reflexivity.
Qed.

(** C3.  Starting from a conversation with no recorded failure: before the
    fifth call of [recordFailedAttempt] [isLockedOut] is false; after
    exactly five calls, the last one at time [t5], it is true as long as
    the clock has not passed [t5 + 60000]; once the clock has passed it,
    [isLockedOut] is false and has removed the conversation's entry, so
    that the next failure counts from one again. *)
Theorem lockout_boundary (conv : string) (attempts : gmap string Attempt)
    (t1 t2 t3 t4 t5 now : Z) :
  attempts !! conv = None ->
  let after (k : nat) := record_all conv (take k [t1; t2; t3; t4; t5]) attempts in
  (forall k, (k < 5)%nat -> isLockedOut now conv (after k) = (false, after k))
  /\ (now <= t5 + CONFIG.PASSKEY_LOCKOUT_DURATION_MS ->
      isLockedOut now conv (after 5%nat) = (true, after 5%nat))
  /\ (t5 + CONFIG.PASSKEY_LOCKOUT_DURATION_MS < now ->
      isLockedOut now conv (after 5%nat) = (false, delete conv (after 5%nat))
      /\ delete conv (after 5%nat) !! conv = None
      /\ forall t, (recordFailedAttempt t conv (delete conv (after 5%nat))).1
                   = {| count := 1; lockedUntil := None |}).
Proof.
  intros Hfresh after.
  assert (Hc0 : counter conv attempts = 0) by (unfold counter; now rewrite Hfresh).
  assert (Hentry : after 5%nat !! conv
                   = Some {| count := 5;
                             lockedUntil := Some (t5 + CONFIG.PASSKEY_LOCKOUT_DURATION_MS) |}).
  { unfold after. change (take 5 [t1; t2; t3; t4; t5]) with ([t1; t2; t3; t4] ++ [t5]).
    rewrite record_all_snoc, recordFailedAttempt_stamp;
      rewrite record_all_counter, Hc0;
      [reflexivity | unfold CONFIG.PASSKEY_LOCKOUT_ATTEMPTS; simpl length; lia]. }
  split; [|split].
  - intros k Hk. apply isLockedOut_below. unfold after.
    rewrite record_all_counter, Hc0, length_take.
    unfold CONFIG.PASSKEY_LOCKOUT_ATTEMPTS. simpl length. lia.
  - intros Hnow.
    rewrite (isLockedOut_at_threshold now conv _ _ _ Hentry)
      by (unfold CONFIG.PASSKEY_LOCKOUT_ATTEMPTS; lia).
    destruct (Z.ltb_spec (t5 + CONFIG.PASSKEY_LOCKOUT_DURATION_MS) now); [lia | reflexivity].
  - intros Hnow. split; [|split].
    + rewrite (isLockedOut_at_threshold now conv _ _ _ Hentry)
        by (unfold CONFIG.PASSKEY_LOCKOUT_ATTEMPTS; lia).
      destruct (Z.ltb_spec (t5 + CONFIG.PASSKEY_LOCKOUT_DURATION_MS) now); [reflexivity | lia].
    + apply lookup_delete_eq.
    + intros t. unfold recordFailedAttempt. cbn [fst].
      rewrite lookup_delete_eq. reflexivity.
Qed.

Lemma lockout_boundary_witness :
  isLockedOut 1060000 "c1"
    (record_all "c1" (take 5 [1000000; 1000001; 1000002; 1000003; 1000004]) ∅)
  = (true, record_all "c1" (take 5 [1000000; 1000001; 1000002; 1000003; 1000004]) ∅).
Proof.
  refine (proj1 (proj2 (lockout_boundary "c1" ∅ 1000000 1000001 1000002 1000003 1000004
                          1060000 _)) _).
  - apply lookup_empty.
  - unfold CONFIG.PASSKEY_LOCKOUT_DURATION_MS. lia.
Defined.

End Lockout.

(** ** C8: [AppState.reset] *)

Section Reset.
Import AppState.

Lemma wipe_loop_lookup (zero : value) (ks : list string) (o : gmap string value)
    (j : string) :
  foldl (fun acc k => delete k (<[k := zero]> acc)) o ks !! j
  = if decide (j ∈ ks) then None else o !! j.
Proof.
  revert o. induction ks as [|k ks IH]; intros o; cbn [foldl].
  - destruct (decide (j ∈ [])) as [Hin|_]; [|reflexivity].
    now apply elem_of_nil in Hin.
  - rewrite IH. destruct (decide (j ∈ ks)) as [Hin|Hnin].
    + rewrite decide_True by (now apply elem_of_cons; right). reflexivity.
    + destruct (decide (j = k)) as [->|Hne].
      * rewrite decide_True by (now apply elem_of_cons; left).
        apply lookup_delete_eq.
      * rewrite decide_False by (rewrite elem_of_cons; tauto).
        rewrite lookup_delete_ne, lookup_insert_ne by congruence. reflexivity.
Qed.

(** The wiping loop leaves the object without any property. *)
Lemma wipe_empty (zero : value) (o : gmap string value) : wipe zero o = ∅.
Proof.
  apply map_eq. intros j. unfold wipe. rewrite wipe_loop_lookup, lookup_empty.
  destruct (decide (j ∈ map fst (map_to_list o))) as [_|Hnin]; [reflexivity|].
  destruct (o !! j) as [v|] eqn:E; [|reflexivity].
  exfalso. apply Hnin. apply list_elem_of_In, in_map_iff.
  exists (j, v). split; [reflexivity|].
  apply list_elem_of_In, elem_of_map_to_list. exact E.
Qed.

(** C8.  For every store state (holding objects under [passkeys] and
    [derivedKeys], as the store always does), [reset] returns; the objects
    that held the passphrases and the derived keys have been emptied; every
    top-level key other than [theme] has the value [INITIAL_STATE] gives
    it (a key [INITIAL_STATE] does not have is absent); and [theme] keeps
    its value. *)
Theorem reset_restores_defaults (env : Env) (_state : gmap string value)
    (pk dk : gmap string value) :
  _state !! "passkeys"%string = Some (VObject pk) ->
  _state !! "derivedKeys"%string = Some (VObject dk) ->
  exists r,
    reset env _state = inr r
    /\ old_passkeys r = ∅
    /\ old_derivedKeys r = ∅
    /\ (forall k, k <> "theme"%string -> new_state r !! k = INITIAL_STATE env !! k)
    /\ (forall v, _state !! "theme"%string = Some v ->
                  new_state r !! "theme"%string = Some v)
    /\ new_state r !! "passkeys"%string = Some (VObject ∅)
    /\ new_state r !! "derivedKeys"%string = Some (VObject ∅).
Proof.
  intros Hpk Hdk. unfold reset. rewrite Hpk, Hdk. eexists. split; [reflexivity|].
  cbn [old_passkeys old_derivedKeys new_state].
  split; [apply wipe_empty|]. split; [apply wipe_empty|].
  split; [|split; [|split]].
  - intros k Hk. now rewrite lookup_insert_ne by congruence.
  - intros v Hv. now rewrite lookup_insert_eq, Hv.
  - rewrite lookup_insert_ne by discriminate. reflexivity.
  - rewrite lookup_insert_ne by discriminate. reflexivity.
Qed.

Lemma reset_restores_defaults_witness :
  let env := {| stored_theme := Some "light"%string; innerWidth := 1280 |} in
  exists r,
    reset env used_state = inr r
    /\ old_passkeys r = ∅
    /\ old_derivedKeys r = ∅
    /\ (forall k, k <> "theme"%string -> new_state r !! k = INITIAL_STATE env !! k)
    /\ (forall v, used_state !! "theme"%string = Some v ->
                  new_state r !! "theme"%string = Some v)
    /\ new_state r !! "passkeys"%string = Some (VObject ∅)
    /\ new_state r !! "derivedKeys"%string = Some (VObject ∅).
Proof.
  apply (reset_restores_defaults _ used_state
           {[ "c1"%string := VStr "hunter2" ]} {[ "c1"%string := VCryptoKey 7 ]}).
  - apply lookup_insert_eq.
  - unfold used_state. rewrite lookup_insert_ne by discriminate. apply lookup_insert_eq.
Defined.

End Reset.

(** ** C4: duplicate insert events *)

Section Dedup.
Import Store RealtimeManager.

Lemma existsb_copy (msg : Message) (l : list Message) :
  existsb (copy_of msg) l
  = existsb (same_id (id msg)) l
    || match idempotency_key msg with
       | Some k => truthy_id (Some k) && existsb (same_key k) l
       | None => false
       end.
Proof.
  induction l as [|m l IH]; cbn [existsb].
  - destruct (idempotency_key msg) as [k|]; [|reflexivity].
    now rewrite andb_false_r.
  - rewrite IH. unfold copy_of.
    destruct (idempotency_key msg) as [k|]; [|now rewrite !orb_false_r].
    destruct (truthy_id (Some k)), (same_id (id msg) m), (same_key k m),
      (existsb (same_id (id msg)) l), (existsb (same_key k) l); reflexivity.
Qed.

Lemma copies_zero (msg : Message) (l : list Message) :
  copies msg l = 0%nat <-> existsb (copy_of msg) l = false.
Proof.
  unfold copies. induction l as [|m l IH]; cbn [List.filter existsb].
  - tauto.
  - destruct (copy_of msg m); cbn [length orb]; [split; discriminate | exact IH].
Qed.


(** What [_onMessageInsert] does with another party's message. *)
Lemma _onMessageInsert_other (visible : bool) (msg : Message) (st : State) :
  Some (sender_id msg) <> _userId st ->
  let st' := _onMessageInsert visible (Some msg) st in
  _userId st' = _userId st
  /\ if existsb (copy_of msg) (conversation (conversation_id msg) st)
     then st' = st
     else conversation (conversation_id msg) st'
          = conversation (conversation_id msg) st ++ [msg].
Proof.
  intros Hother. cbn zeta. unfold _onMessageInsert.
  rewrite bool_decide_eq_false_2 by exact Hother.
  rewrite existsb_copy. unfold conversation.
  set (l := default [] (messages (store st) !! conversation_id msg)).
  destruct (idempotency_key msg) as [k|].
  - destruct (truthy_id (Some k) && existsb (same_key k) l) eqn:Ek.
    + rewrite orb_true_r. split; reflexivity.
    + rewrite orb_false_r.
      destruct (existsb (same_id (id msg)) l); [split; reflexivity|].
      split; [destruct (_ && visible); reflexivity|].
      destruct (_ && visible); cbn; now rewrite lookup_insert_eq.
  - rewrite orb_false_r.
    destruct (existsb (same_id (id msg)) l); [split; reflexivity|].
    split; [destruct (_ && visible); reflexivity|].
    destruct (_ && visible); cbn; now rewrite lookup_insert_eq.
Qed.


(** Once a message has been appended, a later event of the same
    conversation that carries the same id, or the same non-empty
    idempotency key, is dropped. *)
Lemma later_event_dropped (visible1 visible2 : bool) (msg msg' : Message) (st : State) :
  Some (sender_id msg) <> _userId st ->
  Some (sender_id msg') <> _userId st ->
  conversation_id msg' = conversation_id msg ->
  copies msg (conversation (conversation_id msg) st) = 0%nat ->
  id msg' = id msg
  \/ (truthy_id (idempotency_key msg') = true
      /\ idempotency_key msg' = idempotency_key msg) ->
  _onMessageInsert visible2 (Some msg')
    (_onMessageInsert visible1 (Some msg) st)
  = _onMessageInsert visible1 (Some msg) st.
Proof.
  intros Hother Hother' Hconv Hzero Hsame.
  destruct (_onMessageInsert_other visible1 msg st Hother) as [Hu1 H1].
  apply copies_zero in Hzero. rewrite Hzero in H1.
  set (st1 := _onMessageInsert visible1 (Some msg) st) in *.
  assert (Hother1 : Some (sender_id msg') <> _userId st1) by now rewrite Hu1.
  destruct (_onMessageInsert_other visible2 msg' st1 Hother1) as [_ H2].
  rewrite Hconv, H1, existsb_app in H2. cbn [existsb] in H2.
  assert (Hcopy : copy_of msg' msg = true).
  { unfold copy_of, same_id, same_key.
    destruct Hsame as [Hid | [Ht Hk]].
    - rewrite bool_decide_eq_true_2 by congruence. reflexivity.
    - rewrite Hk in *. destruct (idempotency_key msg) as [k|]; [|discriminate Ht].
      rewrite Ht. rewrite (bool_decide_eq_true_2 (Some k = Some k)) by reflexivity.
      apply orb_true_r. }
  rewrite Hcopy, orb_true_r in H2. exact H2.
Qed.


End Dedup.

(** ** C10: the unread total *)

Section Unread.
Import Store.

(** What [sum_entries] is: nothing for the empty object, and one more
    summand for one more entry. *)
Lemma sum_entries_empty : sum_entries ∅ = 0.
Proof. apply map_fold_empty. Qed.

Lemma sum_entries_insert (counts : gmap string Z) (k : string) (n : Z) :
  counts !! k = None -> sum_entries (<[k := n]> counts) = n + sum_entries counts.
Proof.
  intros Hk. unfold sum_entries.
  apply (map_fold_insert_L (fun _ n acc => n + acc)); [|exact Hk].
  intros. lia.
Qed.

Lemma foldl_add (a : Z) (xs : list Z) :
  foldl (fun a b => a + b) a xs = a + foldr Z.add 0 xs.
Proof.
  revert a. induction xs as [|x xs IH]; intros a; cbn [foldl foldr]; [lia|].
  rewrite IH. lia.
Qed.

(** The reduction the code performs computes that sum. *)
Lemma reduce_sum_sum_entries (counts : gmap string Z) :
  reduce_sum counts = sum_entries counts.
Proof.
  unfold reduce_sum, sum_entries. rewrite map_fold_foldr, foldl_add.
  induction (map_to_list counts) as [|[k n] l IH]; [reflexivity|].
  cbn [map foldr snd uncurry] in *. lia.
Qed.

Lemma _updateUnreadCount_consistent (conv : string) (n : Z) (st : RealtimeManager.State) :
  unread_consistent (RealtimeManager.store (RealtimeManager._updateUnreadCount conv n st)).
Proof.
  unfold unread_consistent, RealtimeManager._updateUnreadCount. cbn.
  apply reduce_sum_sum_entries.
Qed.

(** C10.  Each of the three operations of the service layer that write
    the unread counters (the global-feed insert, entering a conversation,
    the tab becoming visible) either leaves [unreadCounts] and
    [totalUnread] as they were or leaves [totalUnread] equal to the sum of
    the entries of [unreadCounts]; [_updateUnreadCount] always does the
    latter. *)
Theorem unread_total_is_sum :
  (forall visible msg st,
      untouched_or_consistent (RealtimeManager.store st)
        (RealtimeManager.store (RealtimeManager._handleGlobalMessageInsert visible msg st)))
  /\ (forall markReadOk conv st,
         untouched_or_consistent (RealtimeManager.store st)
           (RealtimeManager.store (RealtimeManager.enterConversation markReadOk conv st)))
  /\ (forall visibleNow markReadOk v,
         untouched_or_consistent (ConnectivityManager.vstore v)
           (ConnectivityManager.vstore
              (ConnectivityManager._handleVisibilityChange visibleNow markReadOk v)))
  /\ (forall conv n st,
         unread_consistent
           (RealtimeManager.store (RealtimeManager._updateUnreadCount conv n st))).
Proof.
  split; [|split; [|split]].
  - intros visible [msg|] st; [|now left].
    unfold RealtimeManager._handleGlobalMessageInsert.
    destruct (bool_decide _); [now left|].
    destruct (negb _ || negb visible); [|now left].
    right. unfold unread_consistent. cbn. apply reduce_sum_sum_entries.
  - intros markReadOk conv st. unfold RealtimeManager.enterConversation.
    set (st0 := match RealtimeManager._activeConversationId st with
                | Some _ => _ | None => _ end).
    assert (H0 : unreadCounts (RealtimeManager.store st0)
                 = unreadCounts (RealtimeManager.store st)
                 /\ totalUnread (RealtimeManager.store st0)
                    = totalUnread (RealtimeManager.store st)).
    { unfold st0. destruct (RealtimeManager._activeConversationId st) as [prev|];
        [|tauto].
      destruct (truthy_id (Some prev) && negb (bool_decide (prev = conv))); [|tauto].
      unfold RealtimeManager.leaveConversation.
      destruct (bool_decide _); cbn; tauto. }
    clearbody st0. destruct H0 as [Hc Ht].
    cbn [RealtimeManager._userId RealtimeManager.perform RealtimeManager.with_store
           RealtimeManager.with_active].
    destruct (truthy_id (RealtimeManager._userId st0)) eqn:Eu;
      cbn [RealtimeManager._userId RealtimeManager.perform RealtimeManager.with_store
             RealtimeManager.with_active]; rewrite Eu.
    + destruct markReadOk.
      * right. unfold unread_consistent. cbn. apply reduce_sum_sum_entries.
      * left. cbn. tauto.
    + left. cbn. tauto.
  - intros visibleNow markReadOk v. unfold ConnectivityManager._handleVisibilityChange.
    destruct (visibleNow && negb _); [|now left].
    destruct (activeConversationId _) as [conv|]; [|now left].
    destruct (truthy_id _ && truthy_id _ && markReadOk); [|now left].
    destruct (0 <? _); [|now left].
    right. unfold unread_consistent. cbn. apply reduce_sum_sum_entries.
  - apply _updateUnreadCount_consistent.
Qed.

(** Each of the three does write the counters on some input. *)
Example global_insert_counts :
  let st' := RealtimeManager._handleGlobalMessageInsert true
               (Some {| id := "m9"; conversation_id := "c2"; sender_id := "bob";
                        idempotency_key := None; ciphertext := "" |})
               alice_idle in
  unreadCounts (RealtimeManager.store st') = {[ "c2"%string := 1 ]}
  /\ totalUnread (RealtimeManager.store st') = 1.
Proof. split; reflexivity. Qed.

End Unread.

(** ** C6: flushing the offline queue *)

Section FlushFacts.
Import Store ConnectivityManager.
Variable now : nat -> Z.
Variable sendMessage : nat -> QueueEntry -> bool.

Lemma indexed_from_cons (i : nat) (msg : QueueEntry) (rest : list QueueEntry) :
  indexed_from i (msg :: rest) = (i, msg) :: indexed_from (S i) rest.
Proof. reflexivity. Qed.

(** The loop, in terms of the fate of each entry. *)
Lemma flush_loop_spec (queue : list QueueEntry) : forall (i : nat) (acc : FlushAcc),
  let r := flush_loop now sendMessage i queue acc in
  let l := indexed_from i queue in
  sent r = sent acc + count_of (delivered now sendMessage) l
  /\ failed r
     = failed acc + count_of (dropped now) l + count_of (kept now sendMessage) l
  /\ remaining r = remaining acc ++ entries_of (kept now sendMessage) l
  /\ send_calls r = send_calls acc ++ entries_of (fun p => negb (dropped now p)) l
  /\ expired_events r = expired_events acc ++ entries_of (dropped now) l.
Proof.
  induction queue as [|msg rest IH]; intros i acc; cbn zeta.
  - unfold count_of, entries_of. cbn. rewrite !app_nil_r.
    repeat split; first [lia | reflexivity].
  - rewrite indexed_from_cons. cbn [flush_loop].
    unfold count_of, entries_of, delivered, kept, dropped in *.
    cbn [List.filter fst snd].
    destruct (expired (now i) msg) eqn:Ex; cbn [negb andb].
    + destruct (IH (S i) {| sent := sent acc; failed := failed acc + 1;
                            remaining := remaining acc; send_calls := send_calls acc;
                            expired_events := expired_events acc ++ [msg] |})
        as (H1 & H2 & H3 & H4 & H5).
      cbn [sent failed remaining send_calls expired_events] in *.
      rewrite H1, H2, H3, H4, H5. cbn [length map snd].
      rewrite <- app_assoc. repeat split; first [lia | reflexivity].
    + destruct (sendMessage i msg) eqn:Es; cbn [negb].
      * destruct (IH (S i) {| sent := sent acc + 1; failed := failed acc;
                              remaining := remaining acc;
                              send_calls := send_calls acc ++ [msg];
                              expired_events := expired_events acc |})
          as (H1 & H2 & H3 & H4 & H5).
        cbn [sent failed remaining send_calls expired_events] in *.
        rewrite H1, H2, H3, H4, H5. cbn [length map snd].
        rewrite <- app_assoc. repeat split; first [lia | reflexivity].
      * destruct (IH (S i) {| sent := sent acc; failed := failed acc + 1;
                              remaining := remaining acc ++ [msg];
                              send_calls := send_calls acc ++ [msg];
                              expired_events := expired_events acc |})
          as (H1 & H2 & H3 & H4 & H5).
        cbn [sent failed remaining send_calls expired_events] in *.
        rewrite H1, H2, H3, H4, H5. cbn [length map snd].
        rewrite <- !app_assoc. repeat split; first [lia | reflexivity].
Qed.



End FlushFacts.

(** An entry queued six minutes ago is dropped and reported as failed,
    not sent. *)
Example flushQueue_six_minutes :
  let old := {| Store.conversationId := "c1"; Store.userId := "alice";
                Store.idempotencyKey := "k1"; Store._queuedAt := Some 0 |} in
  ConnectivityManager.flushQueue (fun _ => 6 * 60 * 1000) (fun _ _ => true) [old]
  = ({| ConnectivityManager.r_sent := 0; ConnectivityManager.r_failed := 1;
        ConnectivityManager.r_remaining := 0 |},
     [],
     {| ConnectivityManager.sent := 0; ConnectivityManager.failed := 1;
        ConnectivityManager.remaining := []; ConnectivityManager.send_calls := [];
        ConnectivityManager.expired_events := [old] |}).
Proof. reflexivity. Qed.

(** ** C5: the reconnection loop *)

Section Backoff.
Import ConnectivityManager.







Lemma backoff_delays_setTimeout (why : TimerFor) (d : Q) (c : Conn) :
  backoff_delays (setTimeout why d c)
  = backoff_delays c ++ match why with AfterFailure _ => [d] | _ => [] end.
Proof.
  unfold backoff_delays. cbn [scheduled setTimeout].
  rewrite flat_map_app. cbn. now rewrite app_nil_r.
Qed.

Lemma _startReconnecting_running (c : Conn) :
  _reconnectInterval c = None -> _reconnectAttempts c = 0 ->
  running (_startReconnecting c) 0
  /\ backoff_delays (_startReconnecting c) = backoff_delays c
  /\ exists rest, scheduled (_startReconnecting c)
                  = rest ++ [(FirstAttempt, inject_Z CONFIG.RECONNECT_INTERVAL_MS)].
Proof.
  intros Hi Ha. unfold _startReconnecting. rewrite Hi.
  rewrite backoff_delays_setTimeout, app_nil_r.
  unfold running, _setStatus.
  destruct (decide (_status c = reconnecting)) as [E|E]; cbn;
    (split; [split; [eauto | split; [exact Ha | auto]] | split; [reflexivity | eauto]]).
Qed.

Lemma offline_tick (t : Tick) (c : Conn) (n : nat) :
  running c n -> onLine t = false ->
  running (timer_fires t c) n
  /\ backoff_delays (timer_fires t c) = backoff_delays c.
Proof.
  intros ([d Hd] & Ha & Hs) Hoff. unfold timer_fires, attemptReconnect.
  rewrite Hd, Hoff. cbn [negb].
  rewrite backoff_delays_setTimeout, app_nil_r.
  split; [|reflexivity]. unfold running. cbn. eauto.
Qed.

Lemma _reconnect_fails (s : SessionResult) (u : bool) (c : Conn) :
  s <> SessionAlive ->
  exists c', _reconnect s u c = inl c'
             /\ _status c' = _status c
             /\ _reconnectAttempts c' = _reconnectAttempts c
             /\ _reconnectInterval c' = _reconnectInterval c
             /\ connectionStatus c' = connectionStatus c
             /\ scheduled c' = scheduled c.
Proof.
  intros Hs. destruct s; [contradiction | |]; eexists; (split; [reflexivity|]);
    cbn; tauto.
Qed.

Lemma failed_attempt_before_cap (t : Tick) (c : Conn) (n : nat) :
  running c n -> onLine t = true -> session t <> SessionAlive ->
  (S n < 15)%nat ->
  running (timer_fires t c) (S n)
  /\ backoff_delays (timer_fires t c)
     = backoff_delays c ++ [backoff_delay (Z.of_nat n + 1) (random t)].
Proof.
  intros ([d Hd] & Ha & Hs) Hon Hfail Hn. unfold timer_fires, attemptReconnect.
  rewrite Hd, Hon. cbn [negb].
  destruct (_reconnect_fails (session t) (hasUser t)
              (set_attempts (_reconnectAttempts c + 1) c) Hfail)
    as (c2 & -> & H2s & H2a & H2i & H2c & H2l).
  cbn [set_attempts _status _reconnectAttempts _reconnectInterval
         connectionStatus scheduled] in *.
  rewrite H2a, Ha.
  destruct (Z.leb_spec MAX_ATTEMPTS (Z.of_nat n + 1)) as [H|_];
    [unfold MAX_ATTEMPTS in H; lia|].
  assert (Hb : backoff_delays c2 = backoff_delays c)
    by (unfold backoff_delays; now rewrite H2l).
  rewrite backoff_delays_setTimeout, Hb.
  split; [|reflexivity].
  unfold running. cbn. rewrite H2a, H2s, Ha. repeat split; [eauto | lia | exact Hs].
Qed.

Lemma failed_attempt_at_cap (t : Tick) (c : Conn) :
  running c 14 -> onLine t = true -> session t <> SessionAlive ->
  stopped (timer_fires t c)
  /\ backoff_delays (timer_fires t c) = backoff_delays c.
Proof.
  intros ([d Hd] & Ha & Hs) Hon Hfail. unfold timer_fires, attemptReconnect.
  rewrite Hd, Hon. cbn [negb].
  destruct (_reconnect_fails (session t) (hasUser t)
              (set_attempts (_reconnectAttempts c + 1) c) Hfail)
    as (c2 & -> & H2s & H2a & H2i & H2c & H2l).
  cbn [set_attempts _status _reconnectAttempts _reconnectInterval
         connectionStatus scheduled] in *.
  rewrite H2a, Ha. change (MAX_ATTEMPTS <=? Z.of_nat 14 + 1) with true. cbv iota.
  unfold _stopReconnecting. rewrite H2i, Hd.
  unfold _setStatus. cbn [clear_interval _status]. rewrite H2s, Hs.
  destruct (decide (reconnecting = offline)) as [E|_]; [discriminate|].
  split.
  - unfold stopped. cbn. rewrite H2a, Ha. repeat split; try reflexivity.
    eexists. now rewrite last_snoc.
  - unfold backoff_delays. cbn. now rewrite H2l.
Qed.

Lemma stopped_stays (t : Tick) (c : Conn) : stopped c -> timer_fires t c = c.
Proof. intros (Hi & _). unfold timer_fires. now rewrite Hi. Qed.

Lemma stopped_stays_all (ticks : list Tick) (c : Conn) :
  stopped c -> foldl (fun c t => timer_fires t c) c ticks = c.
Proof.
  intros Hc. induction ticks as [|t ts IH]; [reflexivity|].
  cbn [foldl]. now rewrite stopped_stays.
Qed.

(** The loop from a waiting state on: every tick is either taken while the
    browser is offline or is an attempt that fails. *)
Lemma loop_from (ticks : list Tick) : forall (c : Conn) (n : nat),
  running c n -> (n < 15)%nat ->
  Forall (fun t => onLine t = true -> session t <> SessionAlive) ticks ->
  let c' := foldl (fun c t => timer_fires t c) c ticks in
  let attempts := List.filter onLine ticks in
  backoff_delays c'
  = backoff_delays c ++ delays_from (Z.of_nat n) (take (14 - n) attempts)
  /\ ((n + length attempts < 15)%nat -> running c' (n + length attempts))
  /\ ((15 <= n + length attempts)%nat -> stopped c').
Proof.
  induction ticks as [|t ts IH]; intros c n Hrun Hn Hfail; cbn zeta.
  - cbn [foldl List.filter length]. rewrite take_nil. cbn [delays_from].
    rewrite app_nil_r, Nat.add_0_r.
    split; [reflexivity | split; [intros; assumption | intros; lia]].
  - inversion_clear Hfail as [|? ? Ht Hts]. cbn [foldl List.filter].
    destruct (onLine t) eqn:Hon.
    + (* an attempt *)
      specialize (Ht eq_refl).
      destruct (decide (S n < 15)%nat) as [Hlt|Hge].
      * destruct (failed_attempt_before_cap t c n Hrun Hon Ht Hlt) as [Hrun1 Hd1].
        destruct (IH (timer_fires t c) (S n) Hrun1 Hlt Hts) as (Hd & Hr & Hs).
        cbn [length]. replace (14 - n)%nat with (S (14 - S n)) by lia.
        cbn [take delays_from]. rewrite Hd, Hd1, <- app_assoc. cbn [app].
        replace (Z.of_nat (S n)) with (Z.of_nat n + 1) by lia.
        split; [reflexivity | split]; [|intros; apply Hs; lia].
        intros. replace (n + S (length (List.filter onLine ts)))%nat
                  with (S n + length (List.filter onLine ts))%nat by lia.
        apply Hr. lia.
      * assert (n = 14%nat) as -> by lia.
        destruct (failed_attempt_at_cap t c Hrun Hon Ht) as [Hstop Hd1].
        rewrite stopped_stays_all by exact Hstop.
        cbn [take delays_from length]. rewrite app_nil_r.
        split; [exact Hd1 | split; [lia | intros; exact Hstop]].
    + (* the browser is offline: wait again *)
      destruct (offline_tick t c n Hrun Hon) as [Hrun1 Hd1].
      destruct (IH (timer_fires t c) n Hrun1 Hn Hts) as (Hd & Hr & Hs).
      rewrite Hd, Hd1. split; [reflexivity | split; assumption].
Qed.



End Backoff.

(* ===================================================================== *)
(** * Further properties of the engine, the managers and their callers *)
(* ===================================================================== *)

(** ** CryptoEngine: the encoding helpers *)

Section EncodingRoundTrips.
Import CryptoEngine.

Lemma b64_encode_length (bytes : list Z) :
  length (Base64.b64_encode bytes) = (4 * Nat.div (length bytes + 2) 3)%nat.
Proof.
  induction bytes as [| a | a b | a b c l IH] using list_ind3; try reflexivity.
  unfold Base64.b64_encode in *.
  change (Base64.b64_groups (a :: b :: c :: l)) with
    (a / 4 :: (a mod 4) * 16 + b / 16 :: (b mod 16) * 4 + c / 64 :: c mod 64
       :: Base64.b64_groups l).
  cbn [length map app]. rewrite b64_padding_shift.
  rewrite length_app in *. rewrite length_map in *. 
  replace (S (S (S (length l))) + 2)%nat with ((length l + 2) + 1 * 3)%nat by lia.
  rewrite Nat.div_add by lia. lia.
Qed.

(** X1.  [bufferToBase64] never throws, whatever the bytes; it yields four
    characters for every three bytes begun, and [base64ToBuffer] gives the
    very same bytes back. *)
Theorem base64_buffer_roundtrip (buffer : list byte) :
  exists s,
    bufferToBase64 buffer = Returned s
    /\ length s = (4 * Nat.div (length buffer + 2) 3)%nat
    /\ base64ToBuffer s = Returned buffer.
Proof.
  exists (Base64.b64_encode (map Z_of_byte buffer)). split; [|split].
  - apply bufferToBase64_returns.
  - rewrite b64_encode_length. now rewrite length_map.
  - apply base64ToBuffer_b64_encode.
Qed.

End EncodingRoundTrips.

(** ** CryptoEngine: which strings survive [encode] and [decode] *)

Section TextRoundTrip.
Import Utf8 CryptoEngine.

(** For any string of 16-bit units: the scalar values read off it, the
    length of their UTF-16 form, and what it takes for that form to be the
    string again. *)
Lemma code_points_units (n : nat) : forall s : jsstring,
  (length s <= n)%nat -> Forall (fun c => 0 <= c < 65536) s ->
  Forall scalar (code_points s)
  /\ length (flat_map utf16_units (code_points s)) = length s
  /\ (flat_map utf16_units (code_points s) = s -> well_formed s = true).
Proof.
  induction n as [|n IH]; intros s Hlen Hu.
  { destruct s; [repeat split; constructor | simpl in Hlen; lia]. }
  destruct s as [|c rest]; [repeat split; constructor|].
  inversion_clear Hu as [|? ? Hc Hrest].
  cbn [well_formed code_points]. unfold is_high, is_low.
  destruct (Z.leb_spec 0xD800 c) as [Hh1|Hh1], (Z.leb_spec c 0xDBFF) as [Hh2|Hh2];
    cbn [andb].
  - destruct rest as [|d rest'].
    { split; [repeat constructor; unfold scalar; lia|]. split; [reflexivity|].
      cbn. intros [= E]. lia. }
    inversion_clear Hrest as [|? ? Hd Hrest'].
    destruct (Z.leb_spec 0xDC00 d) as [Hl1|Hl1], (Z.leb_spec d 0xDFFF) as [Hl2|Hl2];
      cbn [andb].
    + destruct (IH rest') as (IH1 & IH2 & IH3); [simpl in Hlen; lia | assumption |].
      split; [constructor; [unfold scalar; lia | assumption]|].
      cbn [flat_map]. unfold utf16_units at 1 3.
      destruct (Z.ltb_spec (65536 + (c - 55296) * 1024 + (d - 56320)) 65536); [lia|].
      cbn [app length]. split; [now rewrite IH2|].
      intros [= _ _ E]. auto.
    + destruct (IH (d :: rest')) as (IH1 & IH2 & IH3);
        [simpl in Hlen |- *; lia | now constructor |].
      split; [constructor; [unfold scalar; lia | assumption]|].
      cbn [flat_map]. unfold utf16_units at 1 3. cbn [Z.ltb Z.compare Pos.compare Pos.compare_cont app length].
      split; [now rewrite IH2|]. intros [= E]. lia.
    + destruct (IH (d :: rest')) as (IH1 & IH2 & IH3);
        [simpl in Hlen |- *; lia | now constructor |].
      split; [constructor; [unfold scalar; lia | assumption]|].
      cbn [flat_map]. unfold utf16_units at 1 3. cbn [Z.ltb Z.compare Pos.compare Pos.compare_cont app length].
      split; [now rewrite IH2|]. intros [= E]. lia.
    + lia.
  - destruct (IH rest) as (IH1 & IH2 & IH3); [simpl in Hlen; lia | assumption |].
    destruct (Z.leb_spec 0xDC00 c) as [Hl1|Hl1], (Z.leb_spec c 0xDFFF) as [Hl2|Hl2];
      cbn [andb negb]; try lia.
    + split; [constructor; [unfold scalar; lia | assumption]|].
      cbn [flat_map]. unfold utf16_units at 1 3. cbn [Z.ltb Z.compare Pos.compare Pos.compare_cont app length].
      split; [now rewrite IH2|]. intros [= E]. lia.
    + split; [constructor; [unfold scalar; lia | assumption]|].
      cbn [flat_map]. unfold utf16_units at 1 3.
      destruct (Z.ltb_spec c 65536); [|lia]. cbn [app length].
      split; [now rewrite IH2|]. intros [= E].
      destruct (Z.leb_spec 0 c); [|lia]. cbn [andb]. auto.
  - destruct (IH rest) as (IH1 & IH2 & IH3); [simpl in Hlen; lia | assumption |].
    destruct (Z.leb_spec 0xDC00 c) as [Hl1|Hl1]; [lia|]. cbn [andb negb].
    split; [constructor; [unfold scalar; lia | assumption]|].
    cbn [flat_map]. unfold utf16_units at 1 3.
    destruct (Z.ltb_spec c 65536); [|lia]. cbn [app length].
    split; [now rewrite IH2|]. intros [= E].
    destruct (Z.leb_spec 0 c); [|lia]. cbn [andb]. auto.
  - lia.
Qed.

(** X2.  For a string of 16-bit units, [decode(encode(s))] is [s] exactly
    when [s] has no unpaired surrogate and does not begin with U+FEFF. *)
Theorem decode_encode_roundtrip (s : jsstring) :
  Forall (fun c => 0 <= c < 65536) s ->
  decode (encode s) = s <-> (well_formed s = true /\ head s <> Some 0xFEFF).
Proof.
  intros Hu. split.
  2:{ intros [Hwf Hbom]. now apply TextDecoder_TextEncoder. }
  unfold decode, encode, TextDecoder_decode, TextEncoder_encode.
  destruct (code_points_units (length s) s (le_n _) Hu) as (Hsc & Hlen & Hwf).
  destruct (decide (head s = Some 0xFEFF)) as [Hb|Hb].
  - (* the mark is dropped, so the result is one unit short *)
    destruct s as [|c rest]; [discriminate|]. cbn in Hb. injection Hb as ->.
    inversion_clear Hu as [|? ? _ Hrest].
    destruct (code_points_units (length rest) rest (le_n _) Hrest) as (Hsc' & Hlen' & _).
    change (code_points (65279 :: rest)) with (65279 :: code_points rest).
    cbn [flat_map].
    change (strip_bom (utf8_encode_cp 65279 ++ flat_map utf8_encode_cp (code_points rest)))
      with (flat_map utf8_encode_cp (code_points rest)).
    rewrite utf8_decode_encode by assumption.
    intros E. apply (f_equal length) in E. rewrite Hlen' in E. simpl in E. lia.
  - pose proof (code_points_head s Hb) as Hhd.
    assert (Hstrip : strip_bom (flat_map utf8_encode_cp (code_points s))
                     = flat_map utf8_encode_cp (code_points s)).
    { destruct (code_points s) as [|cp cps]; [reflexivity|].
      cbn [flat_map]. inversion_clear Hsc as [|? ? Hcp _].
      apply strip_bom_encode_cp; [assumption|]. cbn in Hhd. congruence. }
    rewrite Hstrip, utf8_decode_encode by assumption. auto.
Qed.

Lemma decode_encode_roundtrip_witness :
  decode (encode (js "hello")) = js "hello".
Proof.
  apply (decode_encode_roundtrip (js "hello")).
  - repeat constructor; vm_compute; congruence.
  - split; [reflexivity | discriminate].
Defined.

End TextRoundTrip.

(** ** CryptoEngine: what [encrypt] and [decrypt] can do *)

Section EngineOutcomes.
Import CryptoEngine.
Context {W : WebCrypto}.

(** X3.  The outcomes of [encrypt]: it throws 'Missing encryption
    parameters' exactly when an argument is empty, the [atob] error exactly
    when all are present and the salt is not base-64, and it returns in
    every other case; the cipher itself never makes it fail. *)
Theorem encrypt_outcomes (plaintext passkey saltBase64 : jsstring) (rnd : entropy) :
  match encrypt plaintext passkey saltBase64 rnd with
  | Thrown MissingParameters => plaintext = [] \/ passkey = [] \/ saltBase64 = []
  | Thrown InvalidCharacterError =>
      plaintext <> [] /\ passkey <> [] /\ saltBase64 <> []
      /\ Base64.atob saltBase64 = None
  | Thrown OperationError => False
  | Returned _ =>
      plaintext <> [] /\ passkey <> [] /\ saltBase64 <> []
      /\ is_Some (Base64.atob saltBase64)
  end.
Proof.
  unfold encrypt.
  destruct plaintext as [|p ps]; [cbn; auto|].
  destruct passkey as [|k ks]; [cbn; auto|].
  destruct saltBase64 as [|s ss]; [cbn; auto|].
  cbn [truthy negb orb]. unfold base64ToBuffer at 1.
  destruct (Base64.atob (s :: ss)) as [bin|] eqn:Hs; cbn [obind].
  - rewrite !bufferToBase64_returns. cbn [obind]. repeat split; eauto; discriminate.
  - repeat split; discriminate.
Qed.

(** X4.  What [encrypt] returns: the IV is the base-64 of twelve bytes
    taken from [crypto.getRandomValues] (sixteen characters), and the
    ciphertext is the base-64 of the AES-GCM output under the key derived
    from the passphrase and the decoded salt, sixteen bytes longer than
    the UTF-8 plaintext. *)
Theorem encrypt_result_shape `{!WebCryptoSpec W}
    (plaintext passkey saltBase64 : jsstring) (rnd : entropy) (r : EncryptResult) :
  encrypt plaintext passkey saltBase64 rnd = Returned r ->
  length (iv r) = 16%nat
  /\ base64ToBuffer (iv r) = Returned (getRandomBytes rnd CONFIG.IV_LENGTH)
  /\ exists salt ct,
       base64ToBuffer saltBase64 = Returned salt
       /\ ct = aes_gcm_encrypt (deriveKey passkey salt)
                 (getRandomBytes rnd CONFIG.IV_LENGTH) (encode plaintext)
       /\ base64ToBuffer (ciphertext r) = Returned ct
       /\ length ct = (length (encode plaintext) + 16)%nat.
Proof.
  unfold encrypt.
  destruct (negb (truthy plaintext) || negb (truthy passkey) || negb (truthy saltBase64));
    [discriminate|].
  destruct (base64ToBuffer saltBase64) as [salt|e] eqn:Hsalt; [|discriminate].
  cbn [obind]. rewrite !bufferToBase64_returns. cbn [obind].
  set (ivb := getRandomBytes rnd CONFIG.IV_LENGTH).
  set (ct := aes_gcm_encrypt (deriveKey passkey salt) ivb (encode plaintext)).
  intros Hr.
  assert (Er : r = {| ciphertext := Base64.b64_encode (map Z_of_byte ct);
                      iv := Base64.b64_encode (map Z_of_byte ivb) |}) by congruence.
  subst r. clear Hr. cbn [ciphertext iv].
  split; [|split].
  - rewrite b64_encode_length, length_map. unfold ivb.
    now rewrite length_getRandomBytes.
  - apply base64ToBuffer_b64_encode.
  - exists salt, ct. split; [reflexivity|]. split; [reflexivity|].
    split; [apply base64ToBuffer_b64_encode | apply aes_gcm_tag].
Qed.

(** X5.  [decrypt] reports success exactly when all four arguments are
    present, salt, IV and ciphertext are base-64, and AES-GCM accepts the
    ciphertext under the key derived from the passphrase and the salt; the
    text is then the decoding of what AES-GCM released. *)
Theorem decrypt_success_sound (ciphertextB64 ivB64 passkey saltBase64 t : jsstring) :
  decrypt ciphertextB64 ivB64 passkey saltBase64
  = Returned {| text := t; success := true |}
  <-> (ciphertextB64 <> [] /\ ivB64 <> [] /\ passkey <> [] /\ saltBase64 <> []
       /\ exists salt ivb ct plain,
            base64ToBuffer saltBase64 = Returned salt
            /\ base64ToBuffer ivB64 = Returned ivb
            /\ base64ToBuffer ciphertextB64 = Returned ct
            /\ aes_gcm_decrypt (deriveKey passkey salt) ivb ct = Some plain
            /\ t = decode plain).
Proof.
  split.
  - unfold decrypt.
    destruct ciphertextB64 as [|c cs]; [discriminate|].
    destruct ivB64 as [|i0 ivs]; [discriminate|].
    destruct passkey as [|k ks]; [discriminate|].
    destruct saltBase64 as [|s ss]; [discriminate|].
    cbn [truthy negb orb].
    destruct (base64ToBuffer (s :: ss)) as [salt|] eqn:Hs; cbn [obind try_catch].
    2:{ destruct (generateGibberish (c :: cs)); discriminate. }
    destruct (base64ToBuffer (i0 :: ivs)) as [ivb|] eqn:Hi; cbn [obind try_catch].
    2:{ destruct (generateGibberish (c :: cs)); discriminate. }
    destruct (base64ToBuffer (c :: cs)) as [ct|] eqn:Hc; cbn [obind try_catch].
    2:{ destruct (generateGibberish (c :: cs)); discriminate. }
    destruct (aes_gcm_decrypt (deriveKey (k :: ks) salt) ivb ct) as [plain|] eqn:Hd;
      cbn [obind try_catch].
    2:{ destruct (generateGibberish (c :: cs)); discriminate. }
    intros [= <-]. repeat split; try discriminate.
    exists salt, ivb, ct, plain. auto.
  - intros (Hc & Hi & Hk & Hs & salt & ivb & ct & plain & Es & Ei & Ec & Ed & ->).
    unfold decrypt. rewrite !truthy_nonempty by assumption. cbn [negb orb].
    rewrite Es, Ei, Ec. cbn [obind]. rewrite Ed. reflexivity.
Qed.

(** A non-empty buffer encodes to a string that [encrypt] takes as salt. *)
Lemma encoded_buffer_accepted (buffer : list byte) (plaintext passkey : jsstring)
    (rnd : entropy) :
  buffer <> [] -> plaintext <> [] -> passkey <> [] ->
  returns (encrypt plaintext passkey (Base64.b64_encode (map Z_of_byte buffer)) rnd).
Proof.
  intros Hb Hp Hk. apply encrypt_returns; try assumption.
  - intros E. apply (f_equal truthy) in E.
    rewrite b64_encode_truthy in E by (destruct buffer; [congruence | discriminate]).
    discriminate.
  - rewrite atob_b64_encode; [eauto|].
    apply Forall_map, Forall_forall. intros b _. apply Z_of_byte_range.
Qed.

(** X6.  A salt made by [generateSalt] is twenty-four base-64 characters
    that decode to the sixteen random bytes, and [encrypt] accepts it for
    every non-empty plaintext and passphrase. *)
Theorem generateSalt_usable (rnd : entropy) :
  exists salt,
    generateSalt rnd = Returned salt
    /\ length salt = 24%nat
    /\ base64ToBuffer salt = Returned (getRandomBytes rnd CONFIG.SALT_LENGTH)
    /\ forall plaintext passkey rnd',
         plaintext <> [] -> passkey <> [] ->
         returns (encrypt plaintext passkey salt rnd').
Proof.
  unfold generateSalt.
  pose proof (length_getRandomBytes rnd CONFIG.SALT_LENGTH) as Hlen.
  set (bytes := getRandomBytes rnd CONFIG.SALT_LENGTH) in *. clearbody bytes.
  exists (Base64.b64_encode (map Z_of_byte bytes)).
  split; [apply bufferToBase64_returns|].
  split; [rewrite b64_encode_length, length_map, Hlen; reflexivity|].
  split; [apply base64ToBuffer_b64_encode|].
  intros plaintext passkey rnd' Hp Hk.
  apply encoded_buffer_accepted; try assumption.
  intros ->. discriminate.
Qed.

(** X7.  Files: [decryptFile] gives back what [encryptFile] was given,
    for any data and passphrase (empty ones too) as long as the salt is
    base-64; and [decryptFile] never throws, it answers [null] when the
    salt or the IV is not base-64. *)
Theorem decryptFile_encryptFile `{!WebCryptoSpec W}
    (fileData : list byte) (passkey saltBase64 : jsstring) (rnd : entropy) :
  is_Some (Base64.atob saltBase64) ->
  (exists r,
      encryptFile fileData passkey saltBase64 rnd = Returned r
      /\ decryptFile (file_ciphertext r) (file_iv r) passkey saltBase64
         = Returned (Some fileData))
  /\ (forall ct ivB64 key salt, returns (decryptFile ct ivB64 key salt))
  /\ (forall ct ivB64 key salt,
         Base64.atob salt = None \/ Base64.atob ivB64 = None ->
         decryptFile ct ivB64 key salt = Returned None).
Proof.
  intros [bin Hbin]. split; [|split].
  - assert (Hs : base64ToBuffer saltBase64 = Returned (map byte_of_Z bin))
      by (unfold base64ToBuffer; now rewrite Hbin).
    unfold encryptFile. rewrite Hs. cbn [obind].
    rewrite bufferToBase64_returns. cbn [obind].
    eexists. split; [reflexivity|]. cbn [file_ciphertext file_iv].
    unfold decryptFile. rewrite Hs. cbn [obind].
    rewrite base64ToBuffer_b64_encode. cbn [obind].
    rewrite aes_gcm_correct by apply length_getRandomBytes. reflexivity.
  - intros ct ivB64 key salt. unfold decryptFile, returns.
    destruct (base64ToBuffer salt) as [s|]; cbn [obind try_catch]; [|eauto].
    destruct (base64ToBuffer ivB64) as [i|]; cbn [obind try_catch]; [|eauto].
    destruct (aes_gcm_decrypt _ i ct); cbn [try_catch]; eauto.
  - intros ct ivB64 key salt Hbad. unfold decryptFile, base64ToBuffer.
    destruct (Base64.atob salt) as [s|]; cbn [obind try_catch]; [|reflexivity].
    destruct Hbad as [Hbad|Hbad]; [discriminate|]. rewrite Hbad. reflexivity.
Qed.

End EngineOutcomes.

Lemma encrypt_result_shape_witness :
  exists r,
    CryptoEngine.encrypt (W := ToyCrypto.toy) (js "hello") (js "p1") (js "s1")
      (fun _ => Byte.x2a) = Returned r
    /\ length (CryptoEngine.iv r) = 16%nat
    /\ CryptoEngine.base64ToBuffer (CryptoEngine.iv r)
       = Returned (CryptoEngine.getRandomBytes (fun _ => Byte.x2a) CONFIG.IV_LENGTH).
Proof.
  eexists. split; [vm_compute; reflexivity|].
  refine (let H := encrypt_result_shape (W := ToyCrypto.toy)
                     (js "hello") (js "p1") (js "s1") (fun _ => Byte.x2a) _ _ in
          conj (proj1 H) (proj1 (proj2 H))).
  vm_compute. reflexivity.
Defined.

Lemma decryptFile_encryptFile_witness :
  exists r,
    CryptoEngine.encryptFile (W := ToyCrypto.toy) [Byte.x01; Byte.x02] [] [] (fun _ => Byte.x2a)
    = Returned r
    /\ CryptoEngine.decryptFile (W := ToyCrypto.toy)
         (CryptoEngine.file_ciphertext r) (CryptoEngine.file_iv r) [] []
       = Returned (Some [Byte.x01; Byte.x02]).
Proof.
  refine (proj1 (decryptFile_encryptFile (W := ToyCrypto.toy)
                   [Byte.x01; Byte.x02] [] [] (fun _ => Byte.x2a) _)).
  vm_compute. eauto.
Defined.

(** ** CryptoEngine: the placeholder of a failed decryption *)

Section Placeholder.
Import CryptoEngine.

Lemma gibberish_loop_app (bytes : list byte) : forall (i : Z) (out : jsstring),
  gibberish_loop i bytes out = out ++ gibberish_loop i bytes [].
Proof.
  induction bytes as [|b rest IH]; intros i out.
  - cbn. now rewrite app_nil_r.
  - cbn [gibberish_loop].
    destruct (nth _ ranges (0, 0)) as [lo hi].
    set (x := fromCharCode _).
    destruct ((0 <? i) && (i mod 7 =? 0)).
    + rewrite IH. rewrite (IH (i + 1) (([] ++ [x]) ++ js " ")).
      cbn [app]. now rewrite <- !app_assoc.
    + rewrite IH. rewrite (IH (i + 1) ([] ++ [x])).
      cbn [app]. now rewrite <- !app_assoc.
Qed.

(** One turn of the loop adds a character of a block, and perhaps a space. *)
Lemma gibberish_loop_cons (b : byte) (rest : list byte) (i : Z) :
  exists g,
    (exists lo hi, In (lo, hi) ranges /\ lo <= g < hi)
    /\ gibberish_loop i (b :: rest) []
       = g :: (if (0 <? i) && (i mod 7 =? 0) then [32] else [])
           ++ gibberish_loop (i + 1) rest [].
Proof.
  cbn [gibberish_loop].
  pose proof (Z_of_byte_range b) as Hb. set (v := Z_of_byte b) in *. clearbody v.
  assert (Hidx : (Z.to_nat (v mod Z.of_nat (length ranges)) < length ranges)%nat).
  { cbn [length ranges]. pose proof (Z.mod_pos_bound v 6). lia. }
  pose proof (nth_In ranges (0, 0) Hidx) as Hin.
  destruct (nth _ ranges (0, 0)) as [lo hi].
  assert (Hr : 0 <= lo /\ lo < hi /\ hi < 65536).
  { cbn in Hin.
    repeat (destruct Hin as [Hin | Hin]; [injection Hin as <- <-; lia|]).
    destruct Hin. }
  assert (Hg : lo <= lo + v mod (hi - lo) < hi).
  { pose proof (Z.mod_pos_bound v (hi - lo)). lia. }
  exists (lo + v mod (hi - lo)). split; [eauto|].
  rewrite gibberish_loop_app. cbn [app].
  unfold fromCharCode. rewrite (Z.mod_small (lo + v mod (hi - lo)) 65536) by lia.
  destruct ((0 <? i) && (i mod 7 =? 0)); reflexivity.
Qed.

Lemma gibberish_loop_shape (bytes : list byte) : forall i : Z,
  length (gibberish_loop i bytes [])
  = (length bytes + spaces_from i (length bytes))%nat
  /\ Forall glyph_or_space (gibberish_loop i bytes []).
Proof.
  induction bytes as [|b rest IH]; intros i.
  - split; [reflexivity | constructor].
  - destruct (gibberish_loop_cons b rest i) as (g & Hg & ->).
    destruct (IH (i + 1)) as [IHlen IHall].
    cbn [length spaces_from]. rewrite length_app, IHlen. split.
    + destruct ((0 <? i) && (i mod 7 =? 0)); cbn [length]; lia.
    + constructor; [now right|]. apply Forall_app. split; [|assumption].
      destruct ((0 <? i) && (i mod 7 =? 0)); repeat constructor.
Qed.

Lemma spaces_from_zero (n : nat) :
  (n <= 40)%nat -> spaces_from 0 n = Nat.div (n - 1) 7.
Proof.
  intros Hn. do 41 (destruct n as [|n]; [reflexivity|]). lia.
Qed.

Lemma take_min_length {A} (l : list A) (n : nat) :
  take (Nat.min (length l) n) l = take n l.
Proof.
  destruct (Nat.le_ge_cases (length l) n).
  - rewrite Nat.min_l by assumption. now rewrite !take_ge by lia.
  - now rewrite Nat.min_r by assumption.
Qed.

(** X8.  The placeholder [generateGibberish] makes for a ciphertext is a
    function of the first forty bytes it decodes to: the fixed text when
    there is none, and otherwise one character of the six blocks per byte
    with a space after every seventh, hence at most forty-five units. *)
Theorem generateGibberish_shape (ciphertextB64 g : jsstring) :
  generateGibberish ciphertextB64 = Returned g ->
  exists bytes,
    base64ToBuffer ciphertextB64 = Returned bytes
    /\ g = gibberish_of_bytes (take 40 bytes)
    /\ (bytes = [] -> g = fallback_text)
    /\ (bytes <> [] ->
        let n := Nat.min (length bytes) 40 in
        length g = (n + Nat.div (n - 1) 7)%nat
        /\ (1 <= length g <= 45)%nat
        /\ Forall glyph_or_space g).
Proof.
  unfold generateGibberish.
  destruct (base64ToBuffer ciphertextB64) as [bytes|]; [|discriminate].
  cbn [obind]. intros [= <-]. exists bytes. split; [reflexivity|].
  assert (Hg : forall l : list byte,
             gibberish_of_bytes l
             = let out := gibberish_loop 0 (take 40 l) [] in
               if truthy out then out else fallback_text).
  { intros l. unfold gibberish_of_bytes. now rewrite take_min_length. }
  split; [|split].
  - rewrite (Hg bytes), (Hg (take 40 bytes)). now rewrite take_take, Nat.min_id.
  - intros ->. reflexivity.
  - intros Hne. set (n := Nat.min (length bytes) 40). rewrite Hg. cbv zeta.
    destruct (gibberish_loop_shape (take 40 bytes) 0) as [Hlen Hall].
    assert (Hn : length (take 40 bytes) = n) by (rewrite length_take; unfold n; lia).
    rewrite Hn in Hlen. rewrite spaces_from_zero in Hlen by (unfold n; lia).
    assert (Hpos : (1 <= n)%nat).
    { unfold n. destruct bytes; [congruence | cbn [length]; lia]. }
    assert (Hdiv : (Nat.div (n - 1) 7 <= 5)%nat).
    { pose proof (Nat.Div0.div_le_mono (n - 1) 39 7) as Hm.
      change (Nat.div 39 7) with 5%nat in Hm. apply Hm. unfold n. lia. }
    destruct (gibberish_loop 0 (take 40 bytes) []) as [|u out] eqn:E.
    { cbn [length] in Hlen. exfalso. lia. }
    cbn [truthy]. split; [exact Hlen|]. split; [|exact Hall].
    assert (Hn40 : (n <= 40)%nat) by (unfold n; lia).
    rewrite Hlen. clearbody n. lia.
Qed.

Lemma generateGibberish_shape_witness :
  exists bytes,
    base64ToBuffer (js "AAAA") = Returned bytes
    /\ [0x0E00; 0x0E00; 0x0E00] = gibberish_of_bytes (take 40 bytes).
Proof.
  destruct (generateGibberish_shape (js "AAAA") [0x0E00; 0x0E00; 0x0E00])
    as (bytes & H1 & H2 & _); [vm_compute; reflexivity|].
  exists bytes. split; assumption.
Defined.

End Placeholder.

(** ** CryptoEngine: the top of the strength meter *)

Section VeryStrong.
Import CryptoEngine.

Lemma b2z_range (b : bool) : 0 <= b2z b <= 1.
Proof. destruct b; cbn; lia. Qed.

Lemma b2z_one (b : bool) : b2z b = 1 <-> b = true.
Proof. destruct b; cbn; split; (congruence || lia). Qed.

Lemma b2z_zero (b : bool) : b2z b = 0 <-> b = false.
Proof. destruct b; cbn; split; (congruence || lia). Qed.

(** X9.  [measureStrength] gives the top score 4 ('Very Strong') exactly
    to a passphrase of twenty units or more that has a lower-case letter,
    an upper-case letter, a digit and another character, at least ten
    different characters, and no character three times in a row. *)
Theorem measureStrength_very_strong (passkey : jsstring) :
  score (measureStrength passkey) = 4
  <-> ((20 <= length passkey)%nat
       /\ existsb is_lower passkey = true
       /\ existsb is_upper passkey = true
       /\ existsb is_digit passkey = true
       /\ existsb (fun c => negb (is_lower c || is_upper c || is_digit c)) passkey = true
       /\ (10 <= length (remove_dups (Utf8.string_iterator passkey)))%nat
       /\ has_triple passkey = false).
Proof.
  unfold measureStrength. destruct passkey as [|c s].
  { cbn. split; [lia | intros [H _]; lia]. }
  cbn [truthy negb score].
  set (p := c :: s).
  assert (Hfloor : forall z : Z, Qfloor (inject_Z z / (5 # 2)) = (z * 2) / 5).
  { intros z. unfold Qdiv, Qinv, Qmult, inject_Z, Qfloor. cbn. reflexivity. }
  rewrite Hfloor. unfold strength_tally.
  set (len := Z.of_nat (length p)).
  set (unique := Z.of_nat (length (remove_dups (Utf8.string_iterator p)))).
  pose proof (b2z_range (4 <=? len)) as R1.
  pose proof (b2z_range (8 <=? len)) as R2.
  pose proof (b2z_range (12 <=? len)) as R3.
  pose proof (b2z_range (20 <=? len)) as R4.
  pose proof (b2z_range (existsb is_lower p)) as R5.
  pose proof (b2z_range (existsb is_upper p)) as R6.
  pose proof (b2z_range (existsb is_digit p)) as R7.
  pose proof (b2z_range
                (existsb (fun c => negb (is_lower c || is_upper c || is_digit c)) p)) as R8.
  pose proof (b2z_range (6 <=? unique)) as R9.
  pose proof (b2z_range (10 <=? unique)) as R10.
  pose proof (b2z_range (has_triple p)) as R11.
  split.
  - intros H.
    assert (E4 : b2z (20 <=? len) = 1) by (Z.div_mod_to_equations; lia).
    assert (E5 : b2z (existsb is_lower p) = 1) by (Z.div_mod_to_equations; lia).
    assert (E6 : b2z (existsb is_upper p) = 1) by (Z.div_mod_to_equations; lia).
    assert (E7 : b2z (existsb is_digit p) = 1) by (Z.div_mod_to_equations; lia).
    assert (E8 : b2z (existsb (fun c => negb (is_lower c || is_upper c || is_digit c)) p) = 1)
      by (Z.div_mod_to_equations; lia).
    assert (E10 : b2z (10 <=? unique) = 1) by (Z.div_mod_to_equations; lia).
    assert (E11 : b2z (has_triple p) = 0) by (Z.div_mod_to_equations; lia).
    apply b2z_one in E4, E5, E6, E7, E8, E10. apply b2z_zero in E11.
    apply Z.leb_le in E4, E10. unfold len, unique in *.
    repeat split; try assumption; lia.
  - intros (H4 & H5 & H6 & H7 & H8 & H10 & H11).
    rewrite H5, H6, H7, H8, H11.
    assert (E1 : (4 <=? len) = true) by (apply Z.leb_le; unfold len; lia).
    assert (E2 : (8 <=? len) = true) by (apply Z.leb_le; unfold len; lia).
    assert (E3 : (12 <=? len) = true) by (apply Z.leb_le; unfold len; lia).
    assert (E4 : (20 <=? len) = true) by (apply Z.leb_le; unfold len; lia).
    assert (E9 : (6 <=? unique) = true) by (apply Z.leb_le; unfold unique; lia).
    assert (E10 : (10 <=? unique) = true) by (apply Z.leb_le; unfold unique; lia).
    rewrite E1, E2, E3, E4, E9, E10. reflexivity.
Qed.

End VeryStrong.

(** ** The passkey dialog and the lockout *)

Section Dialog.
Import CryptoEngine UIRenderer.
Context {W : WebCrypto}.

Lemma with_attempts_same (k : Keys) : with_attempts (passkeyAttempts k) k = k.
Proof. now destruct k. Qed.

(** A press while the conversation is locked changes nothing. *)
Lemma submit_locked (conv : string) (s : Submission) (k : Keys) (c stamp : Z) :
  passkeyAttempts k !! conv = Some {| count := c; lockedUntil := Some stamp |} ->
  CONFIG.PASSKEY_LOCKOUT_ATTEMPTS <= c ->
  at_check s <= stamp ->
  submit conv s k = (Returned TooShort, k)
  \/ submit conv s k = (Returned LockedOutNow, k).
Proof.
  intros Hk Hc Ht. unfold submit, _handlePasskeySubmit.
  destruct (negb (truthy (typed s)) || _); [now left | right].
  rewrite (isLockedOut_at_threshold _ _ _ c stamp Hk Hc).
  destruct (Z.ltb_spec stamp (at_check s)); [lia|].
  cbn [fst snd]. now rewrite with_attempts_same.
Qed.

(** X10.  While a conversation is locked, pressing submit changes nothing
    in the store, however often and with whatever passphrase: the
    passphrase kept is not replaced and the lock is not extended.  The
    first press after the stamp with a passphrase of four units or more
    is taken again: the passphrase is stored. *)
Theorem passkey_submit_locked_inert (conv : string) (k : Keys) (c stamp : Z)
    (presses : list Submission) :
  passkeyAttempts k !! conv = Some {| count := c; lockedUntil := Some stamp |} ->
  CONFIG.PASSKEY_LOCKOUT_ATTEMPTS <= c ->
  Forall (fun s => at_check s <= stamp) presses ->
  submit_all conv presses k = k
  /\ Forall (fun s => submit conv s k = (Returned TooShort, k)
                      \/ submit conv s k = (Returned LockedOutNow, k)) presses
  /\ forall s, stamp < at_check s -> (4 <= length (typed s))%nat ->
       (submit conv s k).1 <> Returned LockedOutNow
       /\ getPasskey conv (submit conv s k).2 = Some (typed s).
Proof.
  intros Hk Hc Hall. split; [|split].
  - induction Hall as [|s l Hs _ IH]; [reflexivity|].
    unfold submit_all in *. cbn [foldl].
    destruct (submit_locked conv s k c stamp Hk Hc Hs) as [-> | ->]; exact IH.
  - eapply Forall_impl; [exact Hall|]. intros s Hs.
    now apply (submit_locked conv s k c stamp).
  - intros s Hs Hlen. unfold submit, _handlePasskeySubmit.
    assert (Hp : negb (truthy (typed s))
                 || (Z.of_nat (length (typed s)) <? CONFIG.PASSKEY_MIN_LENGTH) = false).
    { destruct (typed s) as [|u us]; [simpl in Hlen; lia|]. cbn [truthy negb orb].
      apply Z.ltb_ge. unfold CONFIG.PASSKEY_MIN_LENGTH. lia. }
    rewrite Hp. rewrite (isLockedOut_at_threshold _ _ _ c stamp Hk Hc).
    destruct (Z.ltb_spec stamp (at_check s)); [|lia]. cbn [fst snd].
    set (k2 := setPasskey conv (typed s) _).
    assert (Hk2 : getPasskey conv k2 = Some (typed s))
      by (unfold getPasskey, k2, setPasskey; cbn; apply lookup_insert_eq).
    unfold _ensureSalt.
    destruct (truthy (default [] (passkeySalts k2 !! conv))) eqn:Hsalt.
    + rewrite Hsalt.
      destruct (List.find _ (held s)) as [m|].
      * destruct (decrypt m.1 m.2 (typed s) _) as [r|e];
          [destruct (success r)|]; cbn [fst snd]; split; (discriminate || exact Hk2).
      * cbn [fst snd]. split; [discriminate | exact Hk2].
    + assert (Hgen : exists salt, (if truthy (default [] (offered_salt s))
                                   then Returned (default [] (offered_salt s))
                                   else generateSalt (salt_entropy s)) = Returned salt).
      { destruct (truthy (default [] (offered_salt s))); [eexists; reflexivity|].
        unfold generateSalt.
        rewrite bufferToBase64_returns. eexists; reflexivity. }
      destruct Hgen as [salt ->]. cbn [obind].
      destruct (truthy (default [] (passkeySalts (with_salts _ k2) !! conv))).
      * destruct (List.find _ (held s)) as [m|].
        -- destruct (decrypt m.1 m.2 (typed s) _) as [r|e];
             [destruct (success r)|]; cbn [fst snd]; split; (discriminate || exact Hk2).
        -- cbn [fst snd]. split; [discriminate | exact Hk2].
      * cbn [fst snd]. split; [discriminate | exact Hk2].
Qed.

(** X11.  A press that is taken and whose passphrase fails to open the
    first message held is not refused: the dialog closes and the
    passphrase is stored.  The failure is counted, and when the count
    reaches five the conversation is locked until sixty seconds after the
    failure was recorded. *)
Theorem passkey_submit_failure_counts (conv : string) (s : Submission) (k : Keys)
    (salt : jsstring) (m : jsstring * jsstring) (r : DecryptResult) :
  (4 <= length (typed s))%nat ->
  (isLockedOut (at_check s) conv (passkeyAttempts k)).1 = false ->
  passkeySalts k !! conv = Some salt -> salt <> [] ->
  List.find (fun m => truthy m.1 && truthy m.2) (held s) = Some m ->
  decrypt m.1 m.2 (typed s) salt = Returned r -> success r = false ->
  let before := (isLockedOut (at_check s) conv (passkeyAttempts k)).2 in
  let k' := (submit conv s k).2 in
  (submit conv s k).1 = Returned Opened
  /\ getPasskey conv k' = Some (typed s)
  /\ counter conv (passkeyAttempts k') = counter conv before + 1
  /\ (CONFIG.PASSKEY_LOCKOUT_ATTEMPTS <= counter conv before + 1 ->
      forall t, t <= at_record s + CONFIG.PASSKEY_LOCKOUT_DURATION_MS ->
        isLockedOut t conv (passkeyAttempts k') = (true, passkeyAttempts k')).
Proof.
  intros Hlen Hfree Hsalt Hne Hfind Hdec Hfail before k'.
  assert (Hp : negb (truthy (typed s))
               || (Z.of_nat (length (typed s)) <? CONFIG.PASSKEY_MIN_LENGTH) = false).
  { destruct (typed s) as [|u us]; [simpl in Hlen; lia|]. cbn [truthy negb orb].
    apply Z.ltb_ge. unfold CONFIG.PASSKEY_MIN_LENGTH. lia. }
  assert (E : submit conv s k
              = (Returned Opened,
                 with_attempts (recordFailedAttempt (at_record s) conv before).2
                   (setPasskey conv (typed s) (with_attempts before k)))).
  { unfold submit, _handlePasskeySubmit. rewrite Hp, Hfree. fold before.
    assert (Hs2 : passkeySalts (setPasskey conv (typed s) (with_attempts before k)) !! conv
                  = Some salt) by exact Hsalt.
    unfold _ensureSalt. rewrite Hs2. cbn [default from_option id].
    rewrite (truthy_nonempty salt Hne). rewrite Hs2. cbn [default from_option id].
    rewrite (truthy_nonempty salt Hne). rewrite Hfind, Hdec, Hfail. reflexivity. }
  unfold k'. rewrite E. cbn [fst snd]. split; [reflexivity|].
  split; [unfold getPasskey; cbn; apply lookup_insert_eq|].
  cbn [with_attempts passkeyAttempts].
  split; [apply recordFailedAttempt_counter|].
  intros Hfive t Ht.
  rewrite (isLockedOut_at_threshold t conv _ (counter conv before + 1)
             (at_record s + CONFIG.PASSKEY_LOCKOUT_DURATION_MS)).
  - destruct (Z.ltb_spec (at_record s + CONFIG.PASSKEY_LOCKOUT_DURATION_MS) t);
      [lia | reflexivity].
  - now apply recordFailedAttempt_stamp.
  - exact Hfive.
Qed.

End Dialog.

Lemma passkey_submit_locked_inert_witness :
  submit_all (W := ToyCrypto.toy) "c1"
    [wrong_guess 1000; wrong_guess 2000; wrong_guess 60000] (locked_until 60000)
  = locked_until 60000.
Proof.
  refine (proj1 (passkey_submit_locked_inert (W := ToyCrypto.toy) "c1"
                   (locked_until 60000) 5 60000
                   [wrong_guess 1000; wrong_guess 2000; wrong_guess 60000] _ _ _)).
  - reflexivity.
  - unfold CONFIG.PASSKEY_LOCKOUT_ATTEMPTS. lia.
  - repeat constructor; cbn; lia.
Defined.

Lemma passkey_submit_failure_counts_witness :
  (submit (W := ToyCrypto.toy) "c1" (wrong_guess 1000) four_failures).1 = Returned UIRenderer.Opened
  /\ CryptoEngine.getPasskey "c1"
       (submit (W := ToyCrypto.toy) "c1" (wrong_guess 1000) four_failures).2
     = Some (js "abcd").
Proof.
  pose proof (passkey_submit_failure_counts (W := ToyCrypto.toy) "c1" (wrong_guess 1000)
                four_failures (js "s1") (js "AAAA", js "AAAA")
                {| CryptoEngine.text := [0x0E00; 0x0E00; 0x0E00];
                   CryptoEngine.success := false |}) as H.
  cbv zeta in H.
  destruct H as (H1 & H2 & _);
    [cbn; lia | reflexivity | reflexivity | discriminate | reflexivity
    | vm_compute; reflexivity | reflexivity |].
  split; assumption.
Defined.

(** ** Unread counters: by how much they move *)

Section UnreadArithmetic.
Import Store RealtimeManager.

Lemma sum_entries_update (counts : gmap string Z) (k : string) (n : Z) :
  sum_entries (<[k := n]> counts)
  = sum_entries counts - default 0 (counts !! k) + n.
Proof.
  destruct (counts !! k) as [old|] eqn:E; cbn [default from_option Datatypes.id].
  - assert (H1 : sum_entries counts = old + sum_entries (delete k counts)).
    { rewrite <- (insert_delete_id counts k old E) at 1.
      apply sum_entries_insert, lookup_delete_eq. }
    assert (H2 : sum_entries (<[k := n]> counts) = n + sum_entries (delete k counts)).
    { rewrite <- (insert_delete_eq counts k n).
      apply sum_entries_insert, lookup_delete_eq. }
    lia.
  - rewrite sum_entries_insert by exact E. lia.
Qed.

(** X12.  A message of somebody else on the global feed, for a
    conversation that is not the active one or while the tab is hidden,
    raises that conversation's count by one and the total by exactly one;
    one's own message, or one for the active conversation in a visible
    tab, moves neither.  The message lists are never touched. *)
Theorem global_insert_adds_one (visible : bool) (msg : Message) (st : State) :
  unread_consistent (store st) ->
  let st' := _handleGlobalMessageInsert visible (Some msg) st in
  let conv := conversation_id msg in
  let old := unreadCounts (store st) in
  messages (store st') = messages (store st)
  /\ if bool_decide (Some (sender_id msg) = _userId st)
        || (bool_decide (Some conv = _activeConversationId st) && visible)
     then unreadCounts (store st') = old
          /\ totalUnread (store st') = totalUnread (store st)
     else unreadCounts (store st') = <[conv := default 0 (old !! conv) + 1]> old
          /\ totalUnread (store st') = totalUnread (store st) + 1.
Proof.
  intros Hc. unfold _handleGlobalMessageInsert.
  destruct (bool_decide (Some (sender_id msg) = _userId st)); cbn [orb].
  { repeat split. }
  destruct (bool_decide (Some (conversation_id msg) = _activeConversationId st)), visible;
    cbn [negb orb andb]; cbn; try (repeat split; fail).
  all: split; [reflexivity|]; split; [reflexivity|];
    rewrite reduce_sum_sum_entries, sum_entries_update, Hc; lia.
Qed.

Lemma global_insert_adds_one_witness :
  totalUnread (store (_handleGlobalMessageInsert false (Some bob_hello) alice_idle))
  = totalUnread (store alice_idle) + 1.
Proof.
  pose proof (global_insert_adds_one false bob_hello alice_idle) as H.
  cbv zeta in H. destruct H as [_ H]; [reflexivity|].
  exact (proj2 H).
Defined.

(** Leaving the previous conversation does not touch the counters or the
    user. *)
Lemma enter_prelude (conv : string) (st : State) :
  let st0 := match _activeConversationId st with
             | Some prev =>
                 if truthy_id (Some prev) && negb (bool_decide (prev = conv))
                 then leaveConversation prev st else st
             | None => st
             end in
  unreadCounts (store st0) = unreadCounts (store st)
  /\ totalUnread (store st0) = totalUnread (store st)
  /\ messages (store st0) = messages (store st)
  /\ _userId st0 = _userId st.
Proof.
  cbv zeta. destruct (_activeConversationId st) as [prev|]; [|tauto].
  destruct (truthy_id (Some prev) && negb (bool_decide (prev = conv))); [|tauto].
  unfold leaveConversation. destruct (bool_decide _); cbn; tauto.
Qed.

(** X13.  Entering a conversation as a signed-in user, when the
    read-receipt request succeeds, sets the conversation's count to zero
    and lowers the total by exactly the count it had; when the request
    fails the counters stay as they were. *)
Theorem enterConversation_clears_unread (markReadOk : bool) (conv : string) (st : State) :
  unread_consistent (store st) ->
  truthy_id (_userId st) = true ->
  let st' := enterConversation markReadOk conv st in
  let old := unreadCounts (store st) in
  _activeConversationId st' = Some conv
  /\ if markReadOk
     then unreadCounts (store st') = <[conv := 0]> old
          /\ totalUnread (store st') = totalUnread (store st) - default 0 (old !! conv)
     else unreadCounts (store st') = old
          /\ totalUnread (store st') = totalUnread (store st).
Proof.
  intros Hc Hu. unfold enterConversation.
  pose proof (enter_prelude conv st) as H0. cbv zeta in H0.
  set (st0 := match _activeConversationId st with Some _ => _ | None => _ end) in *.
  clearbody st0. destruct H0 as (Ec & Et & _ & Eu).
  cbn [_userId perform with_store with_active].
  rewrite Eu, Hu. cbn [_userId perform with_store with_active]. rewrite Eu, Hu.
  destruct markReadOk; cbn.
  - split; [reflexivity|]. rewrite Ec. split; [reflexivity|].
    rewrite reduce_sum_sum_entries, sum_entries_update, <- Et, <- Hc. lia.
  - rewrite Ec, Et. repeat split.
Qed.

Lemma enterConversation_clears_unread_witness :
  _activeConversationId (enterConversation true "c2" alice_idle) = Some "c2"%string.
Proof.
  pose proof (enterConversation_clears_unread true "c2" alice_idle) as H.
  cbv zeta in H. destruct H as [H _]; [reflexivity | reflexivity |].
  exact H.
Defined.

End UnreadArithmetic.

(** ** RealtimeManager: deleting a message *)

Section Deletion.
Import Store RealtimeManager.

Lemma filter_none {A} (f : A -> bool) (l : list A) :
  existsb f l = false -> List.filter (fun x => negb (f x)) l = l.
Proof.
  induction l as [|x l IH]; [reflexivity|]. cbn [existsb List.filter].
  intros H. apply orb_false_elim in H as [Hx Hl]. rewrite Hx. cbn [negb].
  now rewrite IH.
Qed.

Lemma existsb_filter_negb {A} (f : A -> bool) (l : list A) :
  existsb f (List.filter (fun x => negb (f x)) l) = false.
Proof.
  induction l as [|x l IH]; [reflexivity|]. cbn [List.filter].
  destruct (f x) eqn:E; cbn [negb existsb]; [exact IH|]. now rewrite E, IH.
Qed.

Lemma conversation_after_delete (old : Message) (st : State) (c : string) :
  conversation c (_onMessageDelete (Some old) st)
  = if decide (c = conversation_id old)
    then List.filter (fun m => negb (same_id (id old) m)) (conversation c st)
    else conversation c st.
Proof.
  unfold conversation, _onMessageDelete. cbn.
  destruct (decide (c = conversation_id old)) as [->|Hne].
  - now rewrite lookup_insert_eq.
  - now rewrite lookup_insert_ne by congruence.
Qed.

(** X14.  [_onMessageDelete] removes every message with the id of the
    deleted row from its conversation and nothing else, so a second
    delivery of the event changes no list; and it undoes
    [_onMessageInsert]: a message of somebody else that was appended is
    gone after its deletion, the list being as before. *)
Theorem delete_undoes_insert (visible : bool) (msg : Message) (st : State) :
  Some (sender_id msg) <> _userId st ->
  copies msg (conversation (conversation_id msg) st) = 0%nat ->
  let conv := conversation_id msg in
  let st1 := _onMessageInsert visible (Some msg) st in
  let st2 := _onMessageDelete (Some msg) st1 in
  conversation conv st1 = conversation conv st ++ [msg]
  /\ conversation conv st2 = conversation conv st
  /\ (forall c, c <> conv -> conversation c st2 = conversation c st1)
  /\ (forall (old : Message) (s : State) (c : string),
         existsb (same_id (id old))
           (conversation (conversation_id old) (_onMessageDelete (Some old) s)) = false
         /\ conversation c (_onMessageDelete (Some old) (_onMessageDelete (Some old) s))
            = conversation c (_onMessageDelete (Some old) s)).
Proof.
  intros Hother Hfresh conv st1 st2.
  pose proof (_onMessageInsert_other visible msg st Hother) as [_ Hins].
  apply copies_zero in Hfresh. rewrite Hfresh in Hins. fold conv st1 in Hins.
  split; [exact Hins|]. split; [|split].
  - unfold st2. rewrite conversation_after_delete.
    destruct (decide (conv = conversation_id msg)) as [_|Hne]; [|now elim Hne].
    rewrite Hins, List.filter_app. cbn [List.filter].
    unfold same_id at 2. rewrite bool_decide_eq_true_2 by reflexivity. cbn [negb].
    rewrite app_nil_r. apply filter_none.
    rewrite existsb_copy in Hfresh. now apply orb_false_elim in Hfresh as [H _].
  - intros c Hc. unfold st2. rewrite conversation_after_delete.
    destruct (decide (c = conversation_id msg)); [contradiction | reflexivity].
  - intros old s c. split.
    + rewrite conversation_after_delete.
      destruct (decide (conversation_id old = conversation_id old)); [|contradiction].
      apply (existsb_filter_negb (same_id (id old))).
    + rewrite !conversation_after_delete.
      destruct (decide (c = conversation_id old)); [|reflexivity].
      apply filter_none, (existsb_filter_negb (same_id (id old))).
Qed.

Lemma delete_undoes_insert_witness :
  conversation "c1"
    (_onMessageDelete (Some bob_hello) (_onMessageInsert true (Some bob_hello) alice_idle))
  = conversation "c1" alice_idle.
Proof.
  pose proof (delete_undoes_insert true bob_hello alice_idle) as H.
  cbv zeta in H. destruct H as (_ & H & _); [discriminate | reflexivity |].
  exact H.
Defined.

End Deletion.

(** ** RealtimeManager: the typing indicator *)

Section TypingFacts.
Import RealtimeManager.

Lemma no_repeated_typing_snoc (l : list (string * bool)) (x : string * bool) :
  no_repeated_typing l = true ->
  (x.2 = true -> forall y, last l = Some y -> y.2 = false) ->
  no_repeated_typing (l ++ [x]) = true.
Proof.
  induction l as [|a l IH]; [reflexivity|]. intros Hl Hx.
  destruct l as [|b l'].
  - cbn. specialize (Hx). destruct (x.2) eqn:E; [|now rewrite andb_false_r].
    rewrite (Hx eq_refl a eq_refl). reflexivity.
  - cbn [app no_repeated_typing] in *.
    apply andb_prop in Hl as [Hab Hrest]. rewrite Hab. cbn [andb].
    apply IH; [exact Hrest|]. intros Ex y Hy. apply (Hx Ex y). exact Hy.
Qed.

Lemma typing_step_settled (ty : Typing) (e : TypingEvent) :
  typing_settled ty -> typing_settled (typing_step ty e).
Proof.
  intros Hty. pose proof Hty as (Hrep & Htimer & Hlast).
  assert (Hstop : forall c, typing_settled (stopTyping c ty)).
  { intros c. unfold typing_settled, stopTyping. cbn. split; [|split].
    - apply no_repeated_typing_snoc; [exact Hrep | discriminate].
    - split; [discriminate | intros [? [=]]].
    - rewrite last_snoc. split; [discriminate | intros [? [=]]]. }
  destruct e as [active conv | conv | | conv]; cbn [typing_step].
  - unfold startTyping.
    destruct (negb (Store.truthy_id (Some conv)) || negb (bool_decide (Some conv = active)));
      [exact Hty|].
    unfold typing_settled.
    destruct (_isTypingBroadcast ty) eqn:Ef;
      cbn [negb _isTypingBroadcast _typingBroadcastTimer broadcasts].
    + rewrite Ef. split; [exact Hrep|]. split; [split; eauto|]. exact Hlast.
    + split; [|split].
      * apply no_repeated_typing_snoc; [exact Hrep|].
        intros _ [c b] Hy. destruct b; [|reflexivity].
        assert (false = true) by (apply Hlast; eauto). discriminate.
      * split; eauto.
      * rewrite last_snoc. split; eauto.
  - apply Hstop.
  - unfold typing_timer_fires. destruct (_typingBroadcastTimer ty); [apply Hstop|].
    exact Hty.
  - unfold leave_typing. destruct (_isTypingBroadcast ty) eqn:Ef.
    + destruct (Hstop conv) as (H1 & H2 & H3). cbn in *.
      split; [exact H1|]. split; [split; [discriminate | intros [? [=]]]|exact H3].
    + cbn. split; [exact Hrep|]. split; [split; [discriminate | intros [? [=]]]|].
      exact Hlast.
Qed.

(** X15.  Whatever the keystrokes, explicit stops, timer firings and
    departures, and in whatever conversation, the typing state is never
    broadcast as 'typing' twice in a row; the flag is up exactly while the
    auto-stop timer is pending, and exactly when the last broadcast said
    'typing'. *)
Theorem typing_never_repeated (events : list TypingEvent) :
  typing_settled (foldl typing_step typing_idle events).
Proof.
  assert (H0 : typing_settled typing_idle).
  { unfold typing_settled, typing_idle. cbn.
    repeat split; try discriminate; intros [? [=]]. }
  revert H0. generalize typing_idle.
  induction events as [|e events IH]; intros ty Hty; [exact Hty|].
  cbn [foldl]. apply IH, typing_step_settled, Hty.
Qed.

(** A burst of keystrokes in the active conversation is one 'typing'
    broadcast, and the timer ends it with one 'not typing'. *)
Example typing_burst :
  broadcasts (foldl typing_step typing_idle
                [Keystroke (Some "c1"%string) "c1"; Keystroke (Some "c1"%string) "c1";
                 Keystroke (Some "c1"%string) "c2"; Keystroke (Some "c1"%string) "c1";
                 AutoStop; AutoStop])
  = [("c1"%string, true); ("c1"%string, false)].
Proof. reflexivity. Qed.

End TypingFacts.

(** ** RealtimeManager: presence *)

Section PresenceFacts.
Import RealtimeManager.

Lemma add_user_elem (uid x : string) (set : list string) :
  x ∈ add_user uid set <-> x = uid \/ x ∈ set.
Proof.
  unfold add_user. destruct (bool_decide (uid ∈ set)) eqn:E.
  - apply bool_decide_eq_true_1 in E. split; [tauto|]. intros [->|H]; assumption.
  - rewrite elem_of_app, list_elem_of_singleton. tauto.
Qed.

Lemma delete_user_elem (uid x : string) (set : list string) :
  x ∈ delete_user uid set <-> x ∈ set /\ x <> uid.
Proof.
  unfold delete_user. rewrite !list_elem_of_In, filter_In.
  rewrite negb_true_iff, bool_decide_eq_false. reflexivity.
Qed.

(** The loop of [_processPresenceState], entry by entry. *)
Lemma presence_loop (userId : option string) (conv : string)
    (state : list (string * list bool)) :
  forall online typingSet timers,
  NoDup (map fst state) ->
  (forall uid, uid ∈ typingSet -> (uid ∉ map fst state) /\ timers !! uid = Some conv) ->
  let r := foldl (presence_entry userId conv) (online, typingSet, timers) state in
  (forall uid, uid ∈ r.1.2 <->
               uid ∈ typingSet \/ (Some uid <> userId /\ says_typing state uid))
  /\ (forall uid, uid ∈ r.1.2 -> r.2 !! uid = Some conv)
  /\ (forall uid, uid ∈ online -> uid ∈ r.1.1)
  /\ (forall uid, uid ∈ r.1.1 -> uid ∈ online \/ (Some uid <> userId /\ uid ∈ map fst state)).
Proof.
  induction state as [|[u ps] state IH]; intros online typingSet timers Hnd Hinv.
  - cbn. split; [|split; [|split]]; try tauto.
    + intros uid. split; [tauto|]. intros [H | [_ (ps & Hps & _)]]; [exact H|].
      inversion Hps.
    + intros uid Huid. now apply Hinv.
  - cbn [map fst] in Hnd. apply NoDup_cons in Hnd as [Hu Hnd].
    cbn [foldl presence_entry].
    assert (Hsays : forall uid,
               says_typing ((u, ps) :: state) uid
               <-> (uid = u /\ default false (last ps) = true) \/ says_typing state uid).
    { intros uid. unfold says_typing. split.
      - intros (ps' & Hin & Ht). apply elem_of_cons in Hin as [[= -> ->] | Hin]; eauto.
      - intros [[-> Ht] | (ps' & Hin & Ht)].
        + exists ps. split; [left | exact Ht].
        + exists ps'. split; [now right | exact Ht]. }
    assert (Hkey : forall uid, says_typing state uid -> uid ∈ map fst state).
    { intros uid (ps' & Hin & _). apply list_elem_of_In, in_map_iff.
      exists (uid, ps'). split; [reflexivity | now apply list_elem_of_In]. }
    destruct (bool_decide (Some u = userId)) eqn:Eown.
    + apply bool_decide_eq_true_1 in Eown.
      destruct (IH online typingSet timers Hnd) as (H1 & H2 & H3 & H4).
      { intros uid Huid. destruct (Hinv uid Huid) as [Hn Ht]. split; [|exact Ht].
        cbn [map fst] in Hn. now apply not_elem_of_cons in Hn as [_ Hn]. }
      split; [|split; [exact H2|split; [exact H3|]]].
      * intros uid. rewrite H1, Hsays. split; [tauto|].
        intros [H | [Hne [[-> _] | H]]]; [tauto | congruence | tauto].
      * intros uid Huid. destruct (H4 uid Huid) as [H | [Hne H]]; [tauto|].
        right. split; [exact Hne|]. cbn [map fst]. now right.
    + apply bool_decide_eq_false_1 in Eown.
      destruct (default false (last ps)) eqn:Ety.
      * destruct (IH (add_user u online) (add_user u typingSet) (<[u := conv]> timers) Hnd)
          as (H1 & H2 & H3 & H4).
        { intros uid Huid. apply add_user_elem in Huid as [-> | Huid].
          - split; [exact Hu | apply lookup_insert_eq].
          - destruct (Hinv uid Huid) as [Hn Ht]. cbn [map fst] in Hn.
            apply not_elem_of_cons in Hn as [Hne Hn]. split; [exact Hn|].
            now rewrite lookup_insert_ne by congruence. }
        split; [|split; [exact H2|split]].
        -- intros uid. rewrite H1, add_user_elem, Hsays. split; [|tauto].
           intros [[-> | H] | H]; [|tauto|tauto]. right. split; [exact Eown | tauto].
        -- intros uid Huid. apply H3, add_user_elem. now right.
        -- intros uid Huid. destruct (H4 uid Huid) as [H | [Hne H]].
           ++ apply add_user_elem in H as [-> | H]; [|tauto].
              right. split; [exact Eown|]. cbn [map fst]. now left.
           ++ right. split; [exact Hne|]. cbn [map fst]. now right.
      * destruct (IH (add_user u online) typingSet (delete u timers) Hnd)
          as (H1 & H2 & H3 & H4).
        { intros uid Huid. destruct (Hinv uid Huid) as [Hn Ht]. cbn [map fst] in Hn.
          apply not_elem_of_cons in Hn as [Hne Hn]. split; [exact Hn|].
          now rewrite lookup_delete_ne by congruence. }
        split; [|split; [exact H2|split]].
        -- intros uid. rewrite H1, Hsays. split; [tauto|].
           intros [H | [Hne [[_ Hf] | H]]]; [tauto | congruence | tauto].
        -- intros uid Huid. apply H3, add_user_elem. now right.
        -- intros uid Huid. destruct (H4 uid Huid) as [H | [Hne H]].
           ++ apply add_user_elem in H as [-> | H]; [|tauto].
              right. split; [exact Eown|]. cbn [map fst]. now left.
           ++ right. split; [exact Hne|]. cbn [map fst]. now right.
Qed.

(** X16.  After a presence sync of a conversation, the users shown as
    typing there are exactly the other users whose latest presence says
    so, and each of them has an expiry timer pending, whose firing takes
    that user, and nobody else, out of the typing set.  A sync removes
    nobody from the online users, and never adds oneself. *)
Theorem presence_sync_typing_expires (userId : option string) (conv : string)
    (state : list (string * list bool)) (p : Presence) :
  NoDup (map fst state) ->
  let p' := _processPresenceState userId conv state p in
  (forall uid, uid ∈ typing_in conv p'
               <-> Some uid <> userId /\ says_typing state uid)
  /\ (forall uid, uid ∈ typing_in conv p' ->
        _typingExpireTimers p' !! uid = Some conv
        /\ forall x, x ∈ typing_in conv (typing_expires uid p')
                     <-> x ∈ typing_in conv p' /\ x <> uid)
  /\ (forall uid, uid ∈ onlineUsers p -> uid ∈ onlineUsers p')
  /\ (forall uid, uid ∈ onlineUsers p' -> uid ∉ onlineUsers p -> Some uid <> userId).
Proof.
  intros Hnd. cbv zeta.
  destruct (presence_loop userId conv state (onlineUsers p) [] (_typingExpireTimers p) Hnd)
    as (H1 & H2 & H3 & H4).
  { intros uid Huid. inversion Huid. }
  unfold _processPresenceState, typing_in.
  cbn [typingUsers onlineUsers _typingExpireTimers].
  rewrite lookup_insert_eq. cbn [default from_option Datatypes.id].
  split; [|split; [|split]].
  - intros uid. rewrite H1. split; [|tauto]. intros [H | H]; [inversion H | exact H].
  - intros uid Huid. split; [now apply H2|].
    intros x. unfold typing_expires. cbn [typingUsers onlineUsers _typingExpireTimers].
    rewrite (H2 uid Huid), lookup_insert_eq. cbn [typingUsers].
    rewrite lookup_insert_eq. cbn [default from_option Datatypes.id].
    apply delete_user_elem.
  - exact H3.
  - intros uid Huid Hnew. destruct (H4 uid Huid) as [H | [H _]]; [contradiction | exact H].
Qed.

Lemma presence_sync_typing_expires_witness :
  "bob"%string
    ∈ typing_in "c1"
        (_processPresenceState (Some "alice"%string) "c1"
           [("alice"%string, [true]); ("bob"%string, [false; true]); ("carol"%string, [])]
           nobody_here).
Proof.
  refine (proj2 (proj1 (presence_sync_typing_expires (Some "alice"%string) "c1"
                          [("alice"%string, [true]); ("bob"%string, [false; true]);
                           ("carol"%string, [])] nobody_here _) "bob"%string) _).
  - repeat constructor; cbn; rewrite ?elem_of_cons, ?elem_of_nil; intuition discriminate.
  - split; [discriminate|]. exists [false; true]. split; [|reflexivity].
    apply elem_of_cons. right. apply elem_of_cons. now left.
Defined.

End PresenceFacts.

(** ** SupabaseService: channels are not leaked *)

Section Channels.
Import RealtimeManager SupabaseService.

Lemma removeChannel_elem (ch x : nat) (l : list nat) :
  x ∈ removeChannel ch l <-> x ∈ l /\ x <> ch.
Proof.
  unfold removeChannel. rewrite !list_elem_of_In, filter_In.
  rewrite Bool.negb_true_iff, Nat.eqb_neq. reflexivity.
Qed.

Lemma removeChannel_NoDup (ch : nat) (l : list nat) :
  NoDup l -> NoDup (removeChannel ch l).
Proof.
  rewrite !NoDup_ListNoDup. apply List.NoDup_filter.
Qed.

Lemma _removeChannel_channels (key : string) (s : Realtime) :
  _channels (_removeChannel key s) = delete key (_channels s)
  /\ created (_removeChannel key s) = created s.
Proof.
  unfold _removeChannel. destruct (_channels s !! key) eqn:E; cbn; [tauto|].
  split; [symmetry; now apply delete_id | reflexivity].
Qed.

Lemma _removeChannel_tidy (key : string) (s : Realtime) :
  tidy s -> serials_below s ->
  tidy (_removeChannel key s) /\ serials_below (_removeChannel key s).
Proof.
  intros (Hnd & Hel & Hinj) Hlt. unfold serials_below, tidy in *. unfold _removeChannel.
  destruct (_channels s !! key) as [ex|] eqn:E;
    [|exact (conj (conj Hnd (conj Hel Hinj)) Hlt)].
  split; [split; [|split]|]; cbn.
  - now apply removeChannel_NoDup.
  - intros ch. rewrite removeChannel_elem, Hel. split.
    + intros [[k Hk] Hne]. exists k. apply lookup_delete_Some. split; [|exact Hk].
      intros <-. congruence.
    + intros [k Hk]. apply lookup_delete_Some in Hk as [Hne Hk]. split; [eauto|].
      intros ->. apply Hne. now apply (Hinj key k ex).
  - intros k1 k2 ch H1 H2.
    apply lookup_delete_Some in H1 as [_ H1], H2 as [_ H2]. now apply (Hinj k1 k2 ch).
  - intros k ch Hk. apply lookup_delete_Some in Hk as [_ Hk]. now apply (Hlt k).
Qed.

Lemma subscribe_tidy (key : string) (s : Realtime) :
  tidy s -> serials_below s ->
  tidy (subscribe key s) /\ serials_below (subscribe key s).
Proof.
  intros Ht Hlt.
  destruct (_removeChannel_tidy key s Ht Hlt) as [(Hnd & Hel & Hinj) Hlt1].
  destruct (_removeChannel_channels key s) as [Hch Hcr].
  unfold serials_below, tidy in *.
  unfold subscribe. set (s1 := _removeChannel key s) in *.
  assert (Hfresh : created s1 ∉ client_channels s1).
  { intros Hin. apply Hel in Hin as [k Hk]. apply Hlt1 in Hk. lia. }
  split; [split; [|split]|]; cbn.
  - apply NoDup_app. split; [exact Hnd|]. split; [|apply NoDup_singleton].
    intros x Hx Hx'. apply list_elem_of_singleton in Hx'. now subst.
  - intros ch. rewrite elem_of_app, list_elem_of_singleton, Hel. split.
    + intros [[k Hk] | ->].
      * exists k. rewrite lookup_insert_ne; [exact Hk|].
        intros <-. rewrite Hch, lookup_delete_eq in Hk. discriminate.
      * exists key. apply lookup_insert_eq.
    + intros [k Hk]. apply lookup_insert_Some in Hk as [[_ <-] | [_ Hk]]; eauto.
  - intros k1 k2 ch H1 H2.
    apply lookup_insert_Some in H1 as [[<- <-] | [Hn1 H1]],
                                H2 as [[<- E2] | [Hn2 H2]]; try reflexivity.
    + apply Hlt1 in H2. lia.
    + subst ch. apply Hlt1 in H1. lia.
    + now apply (Hinj k1 k2 ch).
  - intros k ch Hk. apply lookup_insert_Some in Hk as [[_ <-] | [_ Hk]]; [lia|].
    apply Hlt1 in Hk. lia.
Qed.

Lemma foldl_removeChannel_elem (vs : list nat) : forall (l : list nat) (x : nat),
  x ∈ foldl (fun l ch => removeChannel ch l) l vs <-> x ∈ l /\ x ∉ vs.
Proof.
  induction vs as [|v vs IH]; intros l x; cbn [foldl].
  - split; [intros H; split; [exact H | apply not_elem_of_nil] | tauto].
  - rewrite IH, removeChannel_elem, not_elem_of_cons. tauto.
Qed.

Lemma unsubscribeAll_tidy (s : Realtime) :
  tidy s -> serials_below s ->
  tidy (unsubscribeAll s) /\ serials_below (unsubscribeAll s).
Proof.
  intros (Hnd & Hel & Hinj) Hlt. unfold serials_below, tidy in *. unfold unsubscribeAll.
  assert (Hnil : foldl (fun l ch => removeChannel ch l) (client_channels s)
                   (map snd (map_to_list (_channels s))) = []).
  { apply elem_of_nil_inv. intros x Hx.
    apply foldl_removeChannel_elem in Hx as [Hin Hout]. apply Hout.
    apply Hel in Hin as [k Hk].
    apply list_elem_of_In, in_map_iff. exists (k, x). split; [reflexivity|].
    apply list_elem_of_In, elem_of_map_to_list, Hk. }
  rewrite Hnil. split; [split; [|split]|]; cbn.
  - constructor.
  - intros ch. split; [intros H; inversion H | intros [k Hk]; now rewrite lookup_empty in Hk].
  - intros k1 k2 ch H1. now rewrite lookup_empty in H1.
  - intros k ch Hk. now rewrite lookup_empty in Hk.
Qed.

Lemma no_channels_tidy : tidy no_channels /\ serials_below no_channels.
Proof.
  unfold serials_below, tidy. split; [split; [|split]|]; cbn.
  - constructor.
  - intros ch. split; [intros H; inversion H | intros [k Hk]; now rewrite lookup_empty in Hk].
  - intros k1 k2 ch H1. now rewrite lookup_empty in H1.
  - intros k ch Hk. now rewrite lookup_empty in Hk.
Qed.

Lemma channel_op_tidy (o : ChannelOp) (s : Realtime) :
  tidy s /\ serials_below s -> tidy (channel_op o s) /\ serials_below (channel_op o s).
Proof.
  intros [Ht Hlt]. destruct o as [key | key |]; cbn [channel_op].
  - now apply subscribe_tidy.
  - now apply _removeChannel_tidy.
  - now apply unsubscribeAll_tidy.
Qed.

(** A tidy service holds as many channels as it has keys. *)
Lemma tidy_size (s : Realtime) :
  tidy s -> length (client_channels s) = size (_channels s).
Proof.
  intros (Hnd & Hel & Hinj).
  rewrite <- length_map_to_list, <- (length_fmap snd).
  apply Permutation_length, NoDup_Permutation; [exact Hnd | |].
  - apply NoDup_fmap_2_strong; [|apply NoDup_map_to_list].
    intros [k1 v1] [k2 v2] H1 H2 E. cbn in E. subst v2.
    apply elem_of_map_to_list in H1, H2. f_equal. now apply (Hinj k1 k2 v1).
  - intros ch. rewrite Hel, list_elem_of_fmap. split.
    + intros [k Hk]. exists (k, ch). split; [reflexivity|].
      now apply elem_of_map_to_list.
    + intros [[k v] [-> Hk]]. exists k. now apply elem_of_map_to_list.
Qed.

(** X17.  Whatever is subscribed and unsubscribed, and in whatever order,
    the client never holds a channel the service has no key for, nor two
    channels for one key: the channels held are exactly those registered
    in [_channels], each once and each under one key, so there are as
    many as there are keys. *)
Theorem channels_never_leak (ops : list ChannelOp) :
  let s := foldl (fun s o => channel_op o s) no_channels ops in
  tidy s /\ length (client_channels s) = size (_channels s).
Proof.
  cbv zeta.
  assert (H : tidy (foldl (fun s o => channel_op o s) no_channels ops)
              /\ serials_below (foldl (fun s o => channel_op o s) no_channels ops)).
  { generalize no_channels_tidy. generalize no_channels.
    induction ops as [|o ops IH]; intros s Hs; [exact Hs|].
    cbn [foldl]. apply IH, channel_op_tidy, Hs. }
  split; [apply H | apply tidy_size, H].
Qed.

End Channels.

(** ** RealtimeManager: switching conversations *)

Section Switching.
Import Store RealtimeManager SupabaseService.

Lemma dom_removeChannel (key : string) (s : Realtime) :
  dom (_channels (_removeChannel key s)) = dom (_channels s) ∖ {[ key ]}.
Proof.
  destruct (_removeChannel_channels key s) as [-> _]. apply dom_delete_L.
Qed.

Lemma dom_subscribe (key : string) (s : Realtime) :
  dom (_channels (subscribe key s)) = {[ key ]} ∪ dom (_channels s).
Proof.
  unfold subscribe. cbn [_channels]. rewrite dom_insert_L, dom_removeChannel.
  apply set_eq. intros k. rewrite !elem_of_union, elem_of_difference, !elem_of_singleton.
  destruct (decide (k = key)); tauto.
Qed.

Lemma dom_service_call (e : Effect) (s : Realtime) :
  dom (_channels (service_call e s))
  = match e with
    | Subscribe channel c => {[ channel +:+ ":" +:+ c ]} ∪ dom (_channels s)
    | Unsubscribe channel c => dom (_channels s) ∖ {[ channel +:+ ":" +:+ c ]}
    | _ => dom (_channels s)
    end.
Proof.
  destruct e; cbn [service_call]; try reflexivity.
  - apply dom_subscribe.
  - apply dom_removeChannel.
Qed.

Lemma service_after_app (es1 es2 : list Effect) (s : Realtime) :
  service_after (es1 ++ es2) s = service_after es2 (service_after es1 s).
Proof. unfold service_after. apply foldl_app. Qed.

Lemma service_after_tidy (es : list Effect) : forall s : Realtime,
  tidy s /\ serials_below s ->
  tidy (service_after es s) /\ serials_below (service_after es s).
Proof.
  induction es as [|e es IH]; intros s Hs; [exact Hs|].
  cbn [service_after foldl]. apply IH. destruct Hs as [Ht Hlt].
  destruct e; cbn [service_call]; try (split; assumption).
  - now apply subscribe_tidy.
  - now apply _removeChannel_tidy.
Qed.

Ltac enter_effects Eu :=
  repeat (progress
            (cbn [_userId perform with_store with_active _updateUnreadCount store effects
                    _activeConversationId];
             rewrite ?Eu));
  (split; [reflexivity|]);
  (eexists; split; [rewrite <- ?app_assoc; reflexivity|]);
  intros s Hs; cbn [app service_after foldl];
  rewrite ?dom_service_call; cbn [conversation_keys] in *;
  split;
  [ apply elem_of_subseteq; intros k;
    pose proof (proj1 (elem_of_subseteq _ _) Hs k) as Hk;
    repeat (rewrite elem_of_union in Hk || rewrite elem_of_singleton in Hk
            || rewrite elem_of_empty in Hk);
    repeat (rewrite elem_of_union || rewrite elem_of_difference
            || rewrite elem_of_singleton);
    tauto
  | repeat (rewrite elem_of_union || rewrite elem_of_singleton); tauto ].

(** One visit: what is active afterwards, and which keys the service is
    left with. *)
Lemma enter_channels (ok : bool) (c : string) (st : State) :
  c <> ""%string ->
  (forall a, _activeConversationId st = Some a -> a <> ""%string) ->
  _activeConversationId (enterConversation ok c st) = Some c
  /\ exists es,
       effects (enterConversation ok c st) = effects st ++ es
       /\ forall s,
            dom (_channels s) ⊆ conversation_keys (_activeConversationId st) ->
            dom (_channels (service_after es s)) ⊆ conversation_keys (Some c)
            /\ "messages:" +:+ c ∈ dom (_channels (service_after es s)).
Proof.
  intros Hc Hact. unfold enterConversation.
  destruct (_activeConversationId st) as [prev|] eqn:Ea.
  - assert (Hprev : truthy_id (Some prev) = true).
    { cbn. apply bool_decide_eq_true_2. now apply Hact. }
    rewrite Hprev. cbn [andb].
    destruct (bool_decide (prev = c)) eqn:Epc; cbn [negb].
    + apply bool_decide_eq_true_1 in Epc. subst prev.
      destruct (truthy_id (_userId st)) eqn:Eu, ok;
        enter_effects Eu.
    + unfold leaveConversation.
      cbn [_userId perform with_store with_active store effects _activeConversationId].
      rewrite Ea. rewrite bool_decide_eq_true_2 by reflexivity.
      destruct (truthy_id (_userId st)) eqn:Eu, ok;
        enter_effects Eu.
  - destruct (truthy_id (_userId st)) eqn:Eu, ok;
      enter_effects Eu.
Qed.

(** X18.  Entering conversations one after the other leaves no channel
    of a conversation that was left: after any number of visits (ids
    non-empty), started with no conversation active and no channel open,
    the service holds the message channel of the last conversation
    entered, at most its presence channel besides, and nothing else; the
    client holds each of them once. *)
Theorem switching_leaves_no_channel (visits : list (string * bool)) (st : State) :
  _activeConversationId st = None -> effects st = [] ->
  Forall (fun v => v.1 <> ""%string) visits ->
  let st' := visit_all visits st in
  let s := service_after (effects st') no_channels in
  tidy s
  /\ (length (client_channels s) <= 2)%nat
  /\ _activeConversationId st' = fst <$> last visits
  /\ dom (_channels s) ⊆ conversation_keys (_activeConversationId st')
  /\ forall c, _activeConversationId st' = Some c ->
       "messages:" +:+ c ∈ dom (_channels s).
Proof.
  intros Hnone Heff Hids. cbv zeta.
  assert (Hinv :
    _activeConversationId (visit_all visits st) = fst <$> last visits
    /\ (forall a, _activeConversationId (visit_all visits st) = Some a -> a <> ""%string)
    /\ dom (_channels (service_after (effects (visit_all visits st)) no_channels))
         ⊆ conversation_keys (_activeConversationId (visit_all visits st))
    /\ forall c, _activeConversationId (visit_all visits st) = Some c ->
         "messages:" +:+ c
           ∈ dom (_channels (service_after (effects (visit_all visits st)) no_channels))).
  { induction visits as [|[c ok] visits IH] using rev_ind.
    - cbn. rewrite Hnone, Heff. cbn. split; [reflexivity|].
      split; [discriminate|]. split; [now rewrite dom_empty_L | discriminate].
    - apply Forall_app in Hids as [Hids Hc]. inversion_clear Hc as [|? ? Hc' _].
      cbn in Hc'. destruct (IH Hids) as (_ & Hne & Hdom & _). clear IH.
      unfold visit_all in *. rewrite foldl_app. cbn [foldl fst snd].
      set (st1 := foldl _ st visits) in *.
      destruct (enter_channels ok c st1 Hc' Hne) as (Hact & es & Hes & Hserv).
      rewrite Hact, Hes, service_after_app, last_snoc. cbn [fmap option_fmap option_map fst].
      destruct (Hserv _ Hdom) as [H1 H2].
      split; [reflexivity|]. split; [intros a [= <-]; exact Hc'|].
      split; [exact H1|]. intros c' [= <-]. exact H2. }
  destruct Hinv as (Hact & _ & Hdom & Hmsg).
  pose proof (service_after_tidy (effects (visit_all visits st)) no_channels
                no_channels_tidy) as [Ht _].
  split; [exact Ht|]. split; [|split; [exact Hact|split; [exact Hdom | exact Hmsg]]].
  rewrite (tidy_size _ Ht), <- size_dom.
  etransitivity; [apply subseteq_size, Hdom|].
  destruct (_activeConversationId (visit_all visits st)) as [a|]; cbn [conversation_keys].
  - rewrite size_union_alt. rewrite size_singleton.
    pose proof (subseteq_size ({[ "presence:" +:+ a ]} ∖ {[ "messages:" +:+ a ]})
                  ({[ "presence:" +:+ a ]} : gset string)) as Hs.
    rewrite size_singleton in Hs. assert (Hsub : ({[ "presence:" +:+ a ]} ∖ {[ "messages:" +:+ a ]} : gset string)
                   ⊆ {[ "presence:" +:+ a ]}).
    { apply elem_of_subseteq. intros k. rewrite elem_of_difference. tauto. }
    specialize (Hs Hsub). lia.
  - rewrite size_empty. lia.
Qed.

Lemma switching_leaves_no_channel_witness :
  dom (_channels
         (service_after
            (effects (visit_all [("c1"%string, true); ("c2"%string, false)]
                        {| _userId := Some "alice"%string; _activeConversationId := None;
                           store := store alice_idle; effects := [] |}))
            no_channels))
  ⊆ conversation_keys (Some "c2"%string).
Proof.
  pose proof (switching_leaves_no_channel [("c1"%string, true); ("c2"%string, false)]
                {| _userId := Some "alice"%string; _activeConversationId := None;
                   store := store alice_idle; effects := [] |}) as H.
  cbv zeta in H.
  destruct H as (_ & _ & _ & H & _);
    [reflexivity | reflexivity | repeat constructor; discriminate |].
  exact H.
Defined.

End Switching.

(** ** ConnectivityManager: the queue when the browser comes back *)

Section QueueOnline.
Import Store ConnectivityManager.

Lemma queue_all_snoc (entries : list (Z * QueueEntry)) (p : Z * QueueEntry)
    (queue : list QueueEntry) :
  queue_all (entries ++ [p]) queue = queueMessage p.1 p.2 (queue_all entries queue).
Proof. unfold queue_all. now rewrite foldl_app. Qed.

(** Every entry queued carries the time it was queued at. *)
Lemma queue_all_stamped (T : Z) (entries : list (Z * QueueEntry)) :
  Forall (fun p => T <= p.1) entries ->
  Forall (fun m => exists t, _queuedAt m = Some t /\ T <= t) (queue_all entries [])
  /\ length (queue_all entries []) = length entries.
Proof.
  induction entries as [|p entries IH] using rev_ind; intros H.
  - split; [constructor | reflexivity].
  - apply Forall_app in H as [H Hp]. inversion_clear Hp as [|? ? Hp' _].
    destruct (IH H) as [IH1 IH2]. rewrite queue_all_snoc. unfold queueMessage. split.
    + apply Forall_app. split; [exact IH1|]. constructor; [|constructor].
      cbn. eauto.
    + rewrite !length_app, IH2. reflexivity.
Qed.

Lemma entries_of_all (f : nat * QueueEntry -> bool) (queue : list QueueEntry) :
  forall i : nat,
  Forall (fun p => f p = true) (indexed_from i queue) ->
  entries_of f (indexed_from i queue) = queue.
Proof.
  unfold entries_of. intros i H. rewrite filter_all by exact H.
  unfold indexed_from. revert i H.
  induction queue as [|m queue IH]; intros i H; [reflexivity|].
  cbn [length seq zip zip_with map snd]. f_equal. apply IH.
  inversion_clear H. assumption.
Qed.

Lemma entries_of_none (f : nat * QueueEntry -> bool) (l : list (nat * QueueEntry)) :
  Forall (fun p => f p = false) l -> entries_of f l = [].
Proof.
  unfold entries_of. induction 1 as [|p l Hp _ IH]; [reflexivity|].
  cbn [List.filter]. now rewrite Hp.
Qed.

Lemma indexed_from_Forall (P : QueueEntry -> Prop) (Q : nat * QueueEntry -> Prop)
    (queue : list QueueEntry) :
  (forall i m, P m -> Q (i, m)) ->
  Forall P queue -> forall i, Forall Q (indexed_from i queue).
Proof.
  intros HPQ H. induction H as [|m queue Hm _ IH]; intros i; [constructor|].
  rewrite indexed_from_cons. constructor; [now apply HPQ | apply IH].
Qed.

Lemma _status_setStatus (s : Status) (c : Conn) : _status (_setStatus s c) = s.
Proof. unfold _setStatus. destruct (decide (_status c = s)); [assumption | reflexivity]. Qed.

(** X19.  Messages queued while offline and the browser coming back:
    when the session is gone or cannot be checked the queue is left as it
    is; when it is alive and no entry is older than five minutes at its
    turn, nothing is announced as expired, every entry is handed to
    [sendMessage] once and in the order queued, and the queue kept is
    made of the entries whose send failed. *)
Theorem online_flushes_queue (now : nat -> Z) (sendMessage : nat -> QueueEntry -> bool)
    (session : SessionResult) (hasUser activeConv : bool) (c : Conn)
    (T : Z) (entries : list (Z * QueueEntry)) :
  Forall (fun p => T <= p.1) entries ->
  (forall i, now i <= T + EXPIRY_MS) ->
  let queue := queue_all entries [] in
  let after := _handleOnline now sendMessage session hasUser activeConv c queue in
  let acc := (flushQueue now sendMessage queue).2 in
  length queue = length entries
  /\ match session with
     | SessionAlive =>
         expired_events acc = []
         /\ send_calls acc = queue
         /\ after.2 = entries_of (kept now sendMessage) (indexed_from 0 queue)
         /\ _status after.1 = online
         /\ _reconnectAttempts after.1 = 0
     | _ => after.2 = queue
     end.
Proof.
  intros Hent Hnow. cbv zeta.
  destruct (queue_all_stamped T entries Hent) as [Hst Hlen].
  split; [exact Hlen|].
  set (queue := queue_all entries []) in *. clearbody queue.
  assert (Hfresh : forall i, Forall (fun p => dropped now p = false) (indexed_from i queue)).
  { apply (indexed_from_Forall
             (fun m => exists t, _queuedAt m = Some t /\ T <= t)
             (fun p => dropped now p = false) queue); [|exact Hst].
    intros i m (t & Ht & HT). unfold dropped, expired. cbn [fst snd].
    rewrite Ht. cbn [default from_option Datatypes.id].
    apply Z.ltb_ge. specialize (Hnow i). lia. }
  assert (Hflush : expired_events (flushQueue now sendMessage queue).2 = []
                   /\ send_calls (flushQueue now sendMessage queue).2 = queue
                   /\ (flushQueue now sendMessage queue).1.2
                      = entries_of (kept now sendMessage) (indexed_from 0 queue)).
  { destruct queue as [|m rest]; [repeat split|].
    unfold flushQueue. cbn [fst snd].
    destruct (flush_loop_spec now sendMessage (m :: rest) 0%nat flush_init)
      as (_ & _ & H3 & H4 & H5).
    cbn [remaining send_calls expired_events flush_init app] in *.
    rewrite H3, H4, H5. split; [|split; [|reflexivity]].
    - apply entries_of_none, Hfresh.
    - apply entries_of_all. eapply Forall_impl; [apply Hfresh|].
      intros p Hp. cbn beta. now rewrite Hp. }
  destruct Hflush as (Hex & Hsend & Hkept).
  unfold _handleOnline.
  destruct session; cbn [_reconnect].
  - cbn [fst snd]. split; [exact Hex|]. split; [exact Hsend|]. split; [exact Hkept|].
    destruct activeConv; cbn [_status _reconnectAttempts notify set_attempts];
      (split; [apply _status_setStatus | reflexivity]).
  - reflexivity.
  - reflexivity.
Qed.

Lemma online_flushes_queue_witness :
  let queue := queue_all [(1000, hello_payload); (2000, hello_payload)] [] in
  send_calls (flushQueue (fun _ => 300000) (fun _ _ => true) queue).2 = queue.
Proof.
  intros queue.
  pose proof (online_flushes_queue (fun _ => 300000) (fun _ _ => true) SessionAlive
                true true fresh_manager 1000
                [(1000, hello_payload); (2000, hello_payload)]) as H.
  cbv zeta in H. destruct H as [_ (_ & H & _)].
  - repeat constructor; cbn; lia.
  - intros i. unfold EXPIRY_MS. lia.
  - exact H.
Defined.

End QueueOnline.

(** ** ConnectivityManager: the end of the reconnection loop, and after *)

Section Reconnection.
Import ConnectivityManager.

Lemma idle_stays_all (ticks : list Tick) (c : Conn) :
  _reconnectInterval c = None -> foldl (fun c t => timer_fires t c) c ticks = c.
Proof.
  intros Hc. induction ticks as [|t ts IH]; [reflexivity|].
  cbn [foldl]. unfold timer_fires at 2. now rewrite Hc.
Qed.

(** What [_reconnect] leaves when the session is alive. *)
Lemma _reconnect_succeeds (u : bool) (c : Conn) :
  exists c', _reconnect SessionAlive u c = inr c'
             /\ _status c' = _status c
             /\ _reconnectAttempts c' = 0
             /\ _reconnectInterval c' = None
             /\ connectionStatus c' = "connected"%string
             /\ scheduled c' = scheduled c.
Proof.
  eexists. split; [reflexivity|]. unfold _stopReconnecting.
  destruct u; cbn; destruct (_reconnectInterval c) eqn:E; cbn; rewrite ?E;
    repeat split; reflexivity.
Qed.

(** An attempt that finds the session alive. *)
Lemma successful_attempt (t : Tick) (c : Conn) :
  is_Some (_reconnectInterval c) -> onLine t = true -> session t = SessionAlive ->
  let c' := timer_fires t c in
  _status c' = online
  /\ connectionStatus c' = "connected"%string
  /\ _reconnectAttempts c' = 0
  /\ _reconnectInterval c' = None
  /\ backoff_delays c' = backoff_delays c
  /\ last (notices c') = Some (Toast "Reconnected!" false).
Proof.
  intros [d Hd] Hon Hs. cbv zeta. unfold timer_fires, attemptReconnect.
  rewrite Hd, Hon, Hs. cbn [negb].
  destruct (_reconnect_succeeds (hasUser t) (set_attempts (_reconnectAttempts c + 1) c))
    as (c2 & -> & H2s & H2a & H2i & H2c & H2l).
  cbn [set_attempts scheduled _status] in *.
  assert (H3 : _status (_setStatus online c2) = online) by apply _status_setStatus.
  assert (H4 : connectionStatus (_setStatus online c2) = "connected"%string
               /\ _reconnectAttempts (_setStatus online c2) = 0
               /\ scheduled (_setStatus online c2) = scheduled c).
  { unfold _setStatus. destruct (decide (_status c2 = online)); cbn; auto. }
  destruct H4 as (H4c & H4a & H4l).
  cbn [notify clear_interval _status connectionStatus _reconnectAttempts
         _reconnectInterval notices].
  rewrite last_snoc. unfold backoff_delays.
  cbn [notify clear_interval scheduled]. rewrite H4l. auto 10.
Qed.

(** X20.  The reconnection loop ends at the first attempt that finds the
    session alive, provided fewer than fifteen attempts failed before:
    the status is online, the store says 'connected', the attempt counter
    is back at zero, no timer is pending, 'Reconnected!' has been shown,
    the back-off delays armed are those of the failed attempts, and
    nothing the timer could still do changes the manager. *)
Theorem reconnect_loop_recovers (c : Conn) (failing later : list Tick) (t : Tick) :
  _reconnectInterval c = None -> _reconnectAttempts c = 0 ->
  Forall (fun t => onLine t = true -> session t <> SessionAlive) failing ->
  (length (List.filter onLine failing) < 15)%nat ->
  onLine t = true -> session t = SessionAlive ->
  let c' := reconnect_loop (failing ++ t :: later) c in
  _status c' = online
  /\ connectionStatus c' = "connected"%string
  /\ _reconnectAttempts c' = 0
  /\ _reconnectInterval c' = None
  /\ backoff_delays c' = backoff_delays c ++ delays_from 0 (List.filter onLine failing)
  /\ last (notices c') = Some (Toast "Reconnected!" false)
  /\ c' = reconnect_loop (failing ++ [t]) c.
Proof.
  intros Hi Ha Hfail Hn Hon Hs. cbv zeta. unfold reconnect_loop.
  destruct (_startReconnecting_running c Hi Ha) as (Hrun & Hd0 & _).
  destruct (loop_from failing (_startReconnecting c) 0 Hrun ltac:(lia) Hfail)
    as (Hd & Hr & _).
  specialize (Hr ltac:(lia)). destruct Hr as (Hsome & _).
  rewrite !foldl_app. cbn [foldl].
  set (c1 := foldl _ (_startReconnecting c) failing) in *.
  destruct (successful_attempt t c1 Hsome Hon Hs) as (H1 & H2 & H3 & H4 & H5 & H6).
  rewrite idle_stays_all by exact H4.
  rewrite H5, Hd, Hd0. rewrite take_ge by lia. auto 10.
Qed.

Lemma reconnect_loop_recovers_witness :
  _status (reconnect_loop [dead_backend (1 # 2); live_backend (1 # 2); dead_backend 0]
             fresh_manager) = online.
Proof.
  refine (proj1 (reconnect_loop_recovers fresh_manager [dead_backend (1 # 2)]
                   [dead_backend 0] (live_backend (1 # 2)) _ _ _ _ _ _)).
  - reflexivity.
  - reflexivity.
  - repeat constructor. discriminate.
  - cbn. lia.
  - reflexivity.
  - reflexivity.
Defined.

(** X21.  Once the loop has given up, the attempt counter stays at
    fifteen: when the browser comes back or a reconnection is forced and
    the session still cannot be reached, the loop is started again with
    the counter at fifteen, so its first failed attempt is the last: the
    counter is then sixteen, the status offline again, no timer pending,
    and no back-off delay was armed. *)
Theorem restart_after_giving_up (c : Conn) (s : SessionResult) (u : bool) (t : Tick) :
  stopped c -> s <> SessionAlive ->
  onLine t = true -> session t <> SessionAlive ->
  let c1 := forceReconnect s u c in
  let c2 := timer_fires t c1 in
  running c1 15
  /\ (forall now sendMessage activeConv queue,
         _handleOnline now sendMessage s u activeConv c queue = (c1, queue))
  /\ _reconnectAttempts c2 = 16
  /\ _reconnectInterval c2 = None
  /\ _status c2 = offline
  /\ connectionStatus c2 = "disconnected"%string
  /\ backoff_delays c2 = backoff_delays c.
Proof.
  intros (Hi & Ha & Hst & Hcs & _) Hs Hon Hts. cbv zeta.
  assert (Hc1 : exists c0,
             _reconnect s u (_setStatus reconnecting c) = inl c0
             /\ forceReconnect s u c = _startReconnecting c0
             /\ _status c0 = reconnecting
             /\ _reconnectAttempts c0 = 15
             /\ _reconnectInterval c0 = None
             /\ scheduled c0 = scheduled c).
  { destruct (_reconnect_fails s u (_setStatus reconnecting c) Hs)
      as (c0 & E & H0s & H0a & H0i & _ & H0l).
    exists c0. unfold forceReconnect. rewrite E. split; [reflexivity|].
    split; [reflexivity|].
    rewrite H0s, H0a, H0i, H0l, _status_setStatus.
    unfold _setStatus. rewrite Hst.
    destruct (decide (offline = reconnecting)); [discriminate|]. cbn. auto. }
  destruct Hc1 as (c0 & E0 & Ef & H0s & H0a & H0i & H0l).
  assert (Hrun : running (forceReconnect s u c) 15
                 /\ backoff_delays (forceReconnect s u c) = backoff_delays c).
  { rewrite Ef. unfold _startReconnecting. rewrite H0i.
    unfold running, backoff_delays, _setStatus. rewrite H0s.
    destruct (decide (reconnecting = reconnecting)); [|contradiction].
    cbn. rewrite H0a, H0s, H0l, flat_map_app. cbn. rewrite app_nil_r.
    repeat split; eauto. }
  destruct Hrun as [Hrun Hb1]. split; [exact Hrun|]. split.
  { intros now sendMessage activeConv queue. unfold _handleOnline.
    rewrite E0, Ef. reflexivity. }
  destruct Hrun as ([d Hd] & Ha1 & Hs1).
  unfold timer_fires, attemptReconnect. rewrite Hd, Hon. cbn [negb].
  destruct (_reconnect_fails (session t) (hasUser t)
              (set_attempts (_reconnectAttempts (forceReconnect s u c) + 1)
                 (forceReconnect s u c)) Hts)
    as (c3 & -> & H3s & H3a & H3i & H3c & H3l).
  cbn [set_attempts _status _reconnectAttempts _reconnectInterval
         connectionStatus scheduled] in *.
  rewrite H3a, Ha1. change (MAX_ATTEMPTS <=? Z.of_nat 15 + 1) with true. cbv iota.
  unfold _stopReconnecting. rewrite H3i, Hd.
  unfold _setStatus. cbn [clear_interval _status]. rewrite H3s, Hs1.
  destruct (decide (reconnecting = offline)); [discriminate|].
  unfold backoff_delays in *. cbn. rewrite H3a, Ha1, H3l, Hb1. repeat split.
Qed.

Lemma restart_after_giving_up_witness :
  let stuck := reconnect_loop (repeat (dead_backend (1 # 2)) 15) fresh_manager in
  _reconnectAttempts
    (timer_fires (dead_backend 0) (forceReconnect SessionError true stuck)) = 16.
Proof.
  intros stuck.
  pose proof (restart_after_giving_up stuck SessionError true (dead_backend 0)) as H.
  cbv zeta in H.
  destruct H as (_ & _ & H & _);
    [vm_compute; repeat split; eauto | discriminate | reflexivity | discriminate |].
  exact H.
Defined.

(** ** ConnectivityManager: the status shown *)









End Reconnection.

(** ** UIRenderer: the message list of a conversation *)

Section Rows.
Import Store UIRenderer.

Lemma unique_from_spec (merged : list Row) : forall seen : list string,
  NoDup (map row_id (unique_from seen merged))
  /\ (forall x, x ∈ map row_id (unique_from seen merged)
                <-> x ∈ map row_id merged /\ x ∉ seen)
  /\ sublist (unique_from seen merged) merged.
Proof.
  induction merged as [|m rest IH]; intros seen; cbn [unique_from map].
  - split; [constructor|]. split; [|constructor].
    intros x. split; [intros H; inversion H | intros [H _]; inversion H].
  - destruct (bool_decide (row_id m ∈ seen)) eqn:E.
    + apply bool_decide_eq_true_1 in E.
      destruct (IH seen) as (H1 & H2 & H3).
      split; [exact H1|]. split; [|now apply sublist_cons].
      intros x. rewrite H2, elem_of_cons. split; [tauto|].
      intros [[-> | Hx] Hs]; [contradiction | tauto].
    + apply bool_decide_eq_false_1 in E.
      destruct (IH (row_id m :: seen)) as (H1 & H2 & H3). cbn [map].
      split; [|split; [|now apply sublist_skip]].
      * constructor; [|exact H1]. rewrite H2, not_elem_of_cons. tauto.
      * intros x. rewrite !elem_of_cons, H2, not_elem_of_cons.
        destruct (decide (x = row_id m)) as [->|Hne]; tauto.
Qed.

Lemma unique_from_id (merged : list Row) : forall seen : list string,
  NoDup (map row_id merged) ->
  (forall x, x ∈ map row_id merged -> x ∉ seen) ->
  unique_from seen merged = merged.
Proof.
  induction merged as [|m rest IH]; intros seen Hnd Hs; [reflexivity|].
  cbn [unique_from map] in *. apply NoDup_cons in Hnd as [Hm Hnd].
  rewrite bool_decide_eq_false_2 by (apply Hs; left).
  f_equal. apply IH; [exact Hnd|].
  intros x Hx. rewrite not_elem_of_cons. split.
  - intros ->. contradiction.
  - apply Hs. now right.
Qed.

(** X23.  The list [_loadMessages] stores has no two rows with one id:
    it holds, in their order, the rows of the page (followed, when an
    older page was asked for, by the rows held before) less the later
    ones of equal id; every id that came is still there, and a list that
    had no duplicate is stored as it is. *)
Theorem loaded_has_no_duplicate (before : bool) (msgs existing : list Row) :
  let merged := if before then msgs ++ existing else msgs in
  let unique := loaded before msgs existing in
  NoDup (map row_id unique)
  /\ (forall x, x ∈ map row_id unique <-> x ∈ map row_id merged)
  /\ sublist unique merged
  /\ (NoDup (map row_id merged) -> unique = merged).
Proof.
  cbv zeta. unfold loaded.
  destruct (unique_from_spec (if before then msgs ++ existing else msgs) [])
    as (H1 & H2 & H3).
  split; [exact H1|]. split; [|split; [exact H3|]].
  - intros x. rewrite H2. split; [tauto|]. intros H. split; [exact H|].
    apply not_elem_of_nil.
  - intros Hnd. apply unique_from_id; [exact Hnd|]. intros x _. apply not_elem_of_nil.
Qed.

Lemma findIndex_none {A} (p : A -> bool) (l : list A) :
  Forall (fun x => p x = false) l -> findIndex p l = None.
Proof.
  induction 1 as [|x l Hx _ IH]; [reflexivity|]. cbn [findIndex].
  now rewrite Hx, IH.
Qed.

Lemma findIndex_app_last {A} (p : A -> bool) (l : list A) (x : A) :
  Forall (fun y => p y = false) l -> p x = true ->
  findIndex p (l ++ [x]) = Some (length l).
Proof.
  induction 1 as [|y l Hy _ IH]; intros Hx; cbn [app findIndex length].
  - now rewrite Hx.
  - rewrite Hy, IH by exact Hx. reflexivity.
Qed.

Lemma temp_id_inj (k1 k2 : string) : "temp-" +:+ k1 = "temp-" +:+ k2 -> k1 = k2.
Proof. intros H. injection H as H. exact H. Qed.

(** X24.  One's own message shows once.  The stand-in pushed by
    [handleSendMessage] is replaced by the row of the server at the first
    of the two confirmations (the answer to the request, the echo on the
    realtime feed), in place; the second one, in whichever order they
    come, changes nothing: the list then holds the rows it held before
    and the server's row once. *)
Theorem own_message_appears_once (key : string) (real : Message) (msgs : list Row) :
  idempotency_key real = Some key ->
  Forall (fun r => row_id r <> id real) msgs ->
  Forall (fun r => forall status, r <> Optimistic key status) msgs ->
  let sending := push_optimistic key msgs in
  let confirmed := _replaceOptimistic (Some key) real sending in
  confirmed = msgs ++ [Server real]
  /\ _replaceOptimistic (idempotency_key real) real sending = confirmed
  /\ _replaceOptimistic (Some key) real confirmed = confirmed
  /\ _replaceOptimistic (idempotency_key real) real confirmed = confirmed
  /\ length (List.filter (fun r => bool_decide (row_id r = id real)) confirmed) = 1%nat.
Proof.
  intros Hkey Hids Hopt. cbv zeta. rewrite Hkey.
  set (wanted := fun m => _optimistic m && bool_decide (row_id m = "temp-" +:+ key)).
  assert (Hno : Forall (fun m => wanted m = false) msgs).
  { eapply Forall_impl; [exact Hopt|]. intros r Hr. unfold wanted.
    destruct r as [k st|m]; [|reflexivity]. cbn [_optimistic andb row_id].
    apply bool_decide_eq_false_2. intros E. apply temp_id_inj in E. subst k.
    now apply (Hr st). }
  assert (E1 : _replaceOptimistic (Some key) real (push_optimistic key msgs)
               = msgs ++ [Server real]).
  { unfold _replaceOptimistic, push_optimistic. cbn [key_text default from_option Datatypes.id].
    fold wanted. rewrite findIndex_app_last; [|exact Hno|].
    - rewrite insert_app_r_alt by lia. rewrite Nat.sub_diag. reflexivity.
    - unfold wanted. cbn. now apply bool_decide_eq_true_2. }
  assert (E2 : _replaceOptimistic (Some key) real (msgs ++ [Server real])
               = msgs ++ [Server real]).
  { unfold _replaceOptimistic. cbn [key_text default from_option Datatypes.id].
    fold wanted. rewrite findIndex_none.
    - rewrite existsb_app. cbn [existsb row_id].
      rewrite (bool_decide_eq_true_2 (id real = id real)) by reflexivity.
      now rewrite orb_true_r.
    - apply Forall_app. split; [exact Hno|]. repeat constructor. }
  rewrite E1, E2. repeat split.
  rewrite List.filter_app, length_app. cbn [List.filter row_id].
  rewrite (bool_decide_eq_true_2 (id real = id real)) by reflexivity. cbn [length].
  assert (Hnone : List.filter (fun r => bool_decide (row_id r = id real)) msgs = []).
  { clear -Hids. induction Hids as [|r l Hr _ IH]; [reflexivity|].
    cbn [List.filter]. now rewrite (bool_decide_eq_false_2 _ Hr). }
  now rewrite Hnone.
Qed.

Lemma own_message_appears_once_witness :
  let real := {| id := "m7"; conversation_id := "c1"; sender_id := "alice";
                 idempotency_key := Some "k7"%string; ciphertext := "q83v" |} in
  _replaceOptimistic (Some "k7"%string) real (push_optimistic "k7" [Server bob_hello])
  = [Server bob_hello; Server real].
Proof.
  intros real.
  refine (proj1 (own_message_appears_once "k7" real [Server bob_hello] _ _ _)).
  - reflexivity.
  - repeat constructor. discriminate.
  - repeat constructor. intros status. discriminate.
Defined.

End Rows.

(** ** Utils: [chunkData] and [throttle] *)

Section UtilsFacts.
Import Utils.

(** The slice the loop takes at an index inside the data. *)
Lemma slice_chunk {A} (data : list A) (max i : Z) :
  0 < max -> 0 <= i < Z.of_nat (length data) ->
  slice data i (i + max)
  = take (Z.to_nat (Z.min max (Z.of_nat (length data) - i))) (drop (Z.to_nat i) data).
Proof.
  intros Hm Hi. unfold slice.
  destruct (Z.ltb_spec i 0); [lia|]. destruct (Z.ltb_spec (i + max) 0); [lia|].
  f_equal; [|f_equal]; lia.
Qed.

Lemma chunk_loop_spec {A} (data : list A) (max : Z) (Hm : 0 < max) :
  forall (fuel : nat) (i : Z) (chunks : list (list A)),
  0 <= i -> Z.of_nat (length data) - i <= Z.of_nat fuel ->
  exists cs,
    chunk_loop fuel data max i chunks = Some (chunks ++ cs)
    /\ concat cs = drop (Z.to_nat i) data
    /\ Forall (fun c => (0 < length c)%nat /\ Z.of_nat (length c) <= max) cs
    /\ Z.of_nat (length cs) = Z.max 0 ((Z.of_nat (length data) - i + max - 1) / max).
Proof.
  induction fuel as [|fuel IH]; intros i chunks Hi Hfuel.
  - cbn [chunk_loop]. destruct (Z.ltb_spec i (Z.of_nat (length data))); [lia|].
    exists []. rewrite app_nil_r. split; [reflexivity|].
    split; [now rewrite drop_ge by lia|]. split; [constructor|].
    cbn [length]. assert ((Z.of_nat (length data) - i + max - 1) / max <= 0); [|lia].
    apply Z.lt_succ_r, Z.div_lt_upper_bound; lia.
  - cbn [chunk_loop]. destruct (Z.ltb_spec i (Z.of_nat (length data))) as [Hlt|Hge].
    + destruct (IH (i + max) (chunks ++ [slice data i (i + max)])) as (cs & E & Hc & Hb & Hn);
        [lia | lia |].
      exists (slice data i (i + max) :: cs). rewrite E, <- app_assoc. cbn [app].
      split; [reflexivity|]. rewrite slice_chunk by lia.
      set (k := Z.to_nat (Z.min max (Z.of_nat (length data) - i))).
      assert (Hk : (0 < k)%nat /\ Z.of_nat k <= max
                   /\ (k <= length (drop (Z.to_nat i) data))%nat).
      { unfold k. rewrite length_drop. lia. }
      split; [|split].
      * cbn [concat]. rewrite Hc.
        rewrite <- (take_drop k (drop (Z.to_nat i) data)) at 2. f_equal.
        rewrite drop_drop.
        destruct (Z.le_gt_cases max (Z.of_nat (length data) - i)).
        -- f_equal. unfold k. lia.
        -- rewrite !drop_ge; [reflexivity | unfold k; lia | lia].
      * constructor; [|exact Hb]. rewrite length_take. lia.
      * cbn [length]. rewrite Nat2Z.inj_succ, Hn.
        replace (Z.of_nat (length data) - i + max - 1)
          with (Z.of_nat (length data) - (i + max) + max - 1 + 1 * max) by lia.
        rewrite Z.div_add by lia.
        assert (0 <= (Z.of_nat (length data) - (i + max) + max - 1) / max).
        { apply Z.div_pos; lia. }
        lia.
    + exists []. rewrite app_nil_r. split; [reflexivity|].
      split; [now rewrite drop_ge by lia|]. split; [constructor|].
      cbn [length]. assert ((Z.of_nat (length data) - i + max - 1) / max <= 0); [|lia].
      apply Z.lt_succ_r, Z.div_lt_upper_bound; lia.
Qed.

(** X25.  For a positive chunk size [chunkData] ends (within as many
    turns as there are elements) and cuts the data into consecutive
    pieces: put end to end they are the data again, none is empty, none
    is longer than the chunk size, and there are the data's length
    divided by the chunk size, rounded up, of them. *)
Theorem chunkData_partitions {A} (data : list A) (max : Z) (fuel : nat) :
  0 < max -> (length data <= fuel)%nat ->
  exists chunks,
    chunkData fuel data max = Some chunks
    /\ concat chunks = data
    /\ Forall (fun c => (0 < length c)%nat /\ Z.of_nat (length c) <= max) chunks
    /\ Z.of_nat (length chunks) = (Z.of_nat (length data) + max - 1) / max.
Proof.
  intros Hm Hfuel. unfold chunkData.
  destruct (chunk_loop_spec data max Hm fuel 0 []) as (cs & E & Hc & Hb & Hn); [lia | lia |].
  exists cs. cbn [app] in E. split; [exact E|]. split; [exact Hc|]. split; [exact Hb|].
  rewrite Hn, Z.sub_0_r.
  assert (0 <= (Z.of_nat (length data) + max - 1) / max); [|lia].
  apply Z.div_pos; lia.
Qed.

Lemma chunkData_partitions_witness :
  exists chunks,
    chunkData 5 [1; 2; 3; 4; 5] 2 = Some chunks /\ concat chunks = [1; 2; 3; 4; 5].
Proof.
  destruct (chunkData_partitions [1; 2; 3; 4; 5] 2 5) as (chunks & H1 & H2 & _);
    [lia | simpl; lia |].
  exists chunks. split; assumption.
Defined.

(** A chunk size of zero never ends on data that is not empty. *)
Example chunkData_zero_runs_out (fuel : nat) : chunkData fuel [1] 0 = None.
Proof.
  unfold chunkData. generalize (@nil (list Z)).
  induction fuel as [|fuel IH]; intros chunks; [reflexivity|].
  cbn [chunk_loop length]. cbn [Z.ltb Z.compare Z.of_nat]. apply IH.
Qed.

Lemma default_last_cons {A} (l : list A) : forall a d : A,
  default d (last (a :: l)) = default a (last l).
Proof.
  induction l as [|b l IH]; intros a d; [reflexivity|].
  rewrite last_cons_cons. now rewrite (IH b d), (IH b a).
Qed.

Lemma throttle_app (ms : Z) (pre post : list Z) : forall lst : Z,
  throttle ms lst (pre ++ post)
  = throttle ms lst pre
    ++ throttle ms (default lst (last (throttle ms lst pre))) post.
Proof.
  induction pre as [|n pre IH]; intros lst; [reflexivity|].
  cbn [app throttle]. unfold throttled.
  destruct (ms <=? n - lst); cbn [fst snd].
  - rewrite IH. cbn [app]. now rewrite default_last_cons.
  - apply IH.
Qed.

(** X26.  The function [throttle(fn, ms)] returns runs [fn] at times that
    are at least [ms] apart, the first at least [ms] after the initial
    [last] (which is 0); the calls it lets through are calls that were
    made, in their order; and what the closure remembers is the time of
    the last call let through. *)
Theorem throttle_spacing (ms lst : Z) (times : list Z) :
  Sorted (fun a b => ms <= b - a) (lst :: throttle ms lst times)
  /\ sublist (throttle ms lst times) times
  /\ forall pre post, times = pre ++ post ->
       throttle ms lst times
       = throttle ms lst pre
         ++ throttle ms (default lst (last (throttle ms lst pre))) post.
Proof.
  split; [|split].
  - revert lst. induction times as [|n times IH]; intros lst; cbn [throttle].
    + repeat constructor.
    + unfold throttled. destruct (Z.leb_spec ms (n - lst)); cbn [fst snd].
      * constructor; [apply IH|]. now constructor.
      * apply IH.
  - revert lst. induction times as [|n times IH]; intros lst; cbn [throttle].
    + constructor.
    + unfold throttled. destruct (ms <=? n - lst); cbn [fst snd].
      * apply sublist_skip, IH.
      * apply sublist_cons, IH.
  - intros pre post ->. apply throttle_app.
Qed.

End UtilsFacts.

(** ** EventBus: subscriptions *)

Section BusFacts.
Import EventBus.

Lemma set_delete_absent (f : Listener) (set : list Listener) :
  f ∉ set -> set_delete f set = set.
Proof.
  unfold set_delete. induction set as [|g set IH]; intros H; [reflexivity|].
  apply not_elem_of_cons in H as [Hne H]. cbn [List.filter].
  rewrite (bool_decide_eq_false_2 (g = f)) by congruence. cbn [negb].
  now rewrite IH.
Qed.

Lemma set_delete_gone (f : Listener) (set : list Listener) : f ∉ set_delete f set.
Proof.
  unfold set_delete. rewrite list_elem_of_In, filter_In.
  intros [_ H]. apply negb_true_iff, bool_decide_eq_false_1 in H. now apply H.
Qed.

Lemma set_delete_app (f : Listener) (s1 s2 : list Listener) :
  set_delete f (s1 ++ s2) = set_delete f s1 ++ set_delete f s2.
Proof. apply List.filter_app. Qed.

(** X27.  Subscribing the same function to the same event a second time
    changes nothing, and one [off] (or one call of either handle) then
    leaves the function unsubscribed: a [Set] holds it once. *)
Theorem on_twice_is_on_once (event : string) (callback : nat) (bus : Bus) :
  on event callback (on event callback bus) = on event callback bus
  /\ Plain callback ∈ default [] (_listeners (on event callback bus) !! event)
  /\ Plain callback
       ∉ default [] (_listeners (off event callback (on event callback (on event callback bus)))
                     !! event).
Proof.
  assert (Hin : Plain callback ∈ set_add (Plain callback)
                                   (default [] (_listeners bus !! event))).
  { unfold set_add. destruct (bool_decide _) eqn:E.
    - now apply bool_decide_eq_true_1 in E.
    - apply elem_of_app. right. now apply list_elem_of_singleton. }
  assert (Hon : on event callback (on event callback bus) = on event callback bus).
  { unfold on, subscribe. cbn [_listeners wrappers]. rewrite lookup_insert_eq.
    cbn [default from_option Datatypes.id]. f_equal. rewrite insert_insert_eq. f_equal.
    unfold set_add at 1. now rewrite bool_decide_eq_true_2. }
  split; [exact Hon|]. split.
  - unfold on, subscribe. cbn [_listeners]. rewrite lookup_insert_eq. exact Hin.
  - rewrite Hon. unfold off, unsubscribe, on, subscribe. cbn [_listeners wrappers].
    rewrite lookup_insert_eq. cbn [_listeners]. rewrite lookup_insert_eq.
    cbn [default from_option Datatypes.id]. apply set_delete_gone.
Qed.

(** X28.  A [once] subscription is delivered one event: the callback is
    called, last, at the next [emit] of the event and not at the one
    after.  [off(event, callback)] does not cancel it, since what is
    subscribed is a wrapper; the handle [once] returned does. *)
Theorem once_is_delivered_once (event : string) (callback : nat) (bus : Bus) :
  Wrapper (wrappers bus) callback ∉ default [] (_listeners bus !! event) ->
  let registered := once event callback bus in
  let first := emit event registered.1 in
  let second := emit event first.2 in
  first.1 = (emit event bus).1 ++ [callback]
  /\ second.1 = (emit event (emit event bus).2).1
  /\ (emit event (off event callback registered.1)).1
     = (emit event (off event callback bus)).1 ++ [callback]
  /\ (emit event (unsubscribe event registered.2 registered.1)).1 = (emit event bus).1.
Proof.
  intros Hfresh. cbv zeta. unfold once, subscribe, off, unsubscribe, emit.
  cbn [fst snd _listeners wrappers].
  set (w := Wrapper (wrappers bus) callback) in *.
  assert (Hadd : set_add w (default [] (_listeners bus !! event))
                 = default [] (_listeners bus !! event) ++ [w]).
  { unfold set_add. now rewrite bool_decide_eq_false_2. }
  rewrite Hadd, !lookup_insert_eq. cbn [fst snd _listeners wrappers].
  rewrite !lookup_insert_eq. cbn [fst snd].
  destruct (_listeners bus !! event) as [set|] eqn:E;
    cbn [default from_option Datatypes.id fst snd _listeners wrappers] in *;
    rewrite ?lookup_insert_eq, ?E; cbn [fst snd].
  - rewrite map_app, List.filter_app, set_delete_app. cbn [map target List.filter is_wrapper negb].
    rewrite app_nil_r.
    assert (Hw : set_delete (Plain callback) [w] = [w]) by reflexivity.
    rewrite Hw, map_app.
    assert (Hself : set_delete w [w] = []).
    { unfold set_delete. cbn [List.filter].
      now rewrite (bool_decide_eq_true_2 (w = w)). }
    rewrite set_delete_app, Hself, app_nil_r, (set_delete_absent w set Hfresh).
    repeat split.
  - cbn [app map target List.filter is_wrapper negb].
    assert (Hself : set_delete w [w] = []).
    { unfold set_delete. cbn [List.filter].
      now rewrite (bool_decide_eq_true_2 (w = w)). }
    rewrite Hself. repeat split.
Qed.

Lemma once_is_delivered_once_witness :
  (emit "message:received" (once "message:received" 7 {| _listeners := ∅; wrappers := 0 |}).1).1
  = [7%nat].
Proof.
  refine (proj1 (once_is_delivered_once "message:received" 7
                   {| _listeners := ∅; wrappers := 0 |} _)).
  cbn. apply not_elem_of_nil.
Defined.

End BusFacts.
